(** * classifierPerformance: confusion-matrix sweep, curves, AUC and optimum

    A shallow embedding of the Go package [classifierPerformance]
    (EvalPerformance, PrecisionRecall, AUC, Optimum and the older
    ComputePerformance variant) together with the properties its
    specification states about them.

    Conventions of the embedding.
    - [float64] is Rocq's primitive binary64 [float]; Go's [<] is
      [PrimFloat.ltb], Go's [==] is [PrimFloat.eqb] (so NaN differs from
      itself and +0 equals -0), [math.Abs] is [PrimFloat.abs].
    - Go's [int] is a 64-bit two's complement integer, embedded in [Z] with
      the wrap-around of [+] and [-] written out ([int_add], [int_sub]).
    - A slice is a [list]; an index outside the slice is a run-time panic,
      which the [outcome] monad records.  Slices passed by the caller share
      their backing array with the callee, so a function that writes to an
      argument slice returns its final contents.
    - [map[float64]int] is an association list under Go's key equality
      [==]: a NaN key never matches, so every assignment with a NaN key adds
      an entry and every lookup of NaN yields the zero value.
    - [sort.Sort] and [sort.Float64s] belong to Go's library.  [sort_Sort]
      is the library's insertion sort over [sort.Interface], which the
      library runs on at most 12 elements; on more elements its result is
      the library's up to the order of ties when [Less] is an order.  Where
      a score may be NaN, [Predictions.Less] is no order, and the
      properties are stated of the functions of the module [Library],
      which take [sort.Sort] as a parameter.

    The file has the model first (the run time, then the package, then the
    vocabulary of the properties) and the proofs after it: the order of
    binary64 values, the insertion sort, the counting loop and the sweep,
    the effect on the caller's slices, AUC, Optimum, rounding,
    PrecisionRecall, the rest of the package and the command, and last the
    properties that hold with any [sort.Sort] of the library. *)

From Stdlib Require Import String ZArith List Bool Lia Floats.
From Stdlib Require Uint63.
From Stdlib Require Import Permutation Sorted.
Import ListNotations.

Set Implicit Arguments.
Set Warnings "-inexact-float".

(* ------------------------------------------------------------------ *)
(** * Go run-time model *)

(** ** Panics *)

Inductive outcome (A : Type) : Type :=
| Return (a : A)
| Panic (msg : string).

Arguments Return {A} a.
Arguments Panic {A} msg.

Definition bind {A B : Type} (c : outcome A) (k : A -> outcome B) : outcome B :=
  match c with
  | Return a => k a
  | Panic msg => Panic msg
  end.

Notation "x <- c ;; k" := (bind c (fun x => k))
  (at level 61, c at next level, right associativity).

(** ** Machine integers *)

Definition int_min : Z := (- 2 ^ 63)%Z.
Definition int_max : Z := (2 ^ 63 - 1)%Z.

Definition is_int (z : Z) : Prop := (int_min <= z <= int_max)%Z.

Definition wrap64 (z : Z) : Z := ((z + 2 ^ 63) mod 2 ^ 64 - 2 ^ 63)%Z.

Definition int_add (a b : Z) : Z := wrap64 (a + b).
Definition int_sub (a b : Z) : Z := wrap64 (a - b).

(** ** float64 *)

Definition f64_lt (a b : float) : bool := PrimFloat.ltb a b.
Definition f64_eq (a b : float) : bool := PrimFloat.eqb a b.
Definition f64_gt (a b : float) : bool := PrimFloat.ltb b a.
Definition f64_le (a b : float) : bool := PrimFloat.leb a b.

(** [x != x], the test [sort.Float64s] uses for NaN. *)
Definition isNaN (x : float) : bool := negb (f64_eq x x).

(** The conversion [float64(z)] of an [int]: round to nearest, ties to
    even.  [of_uint63] does this for 0 <= z < 2^63, the rounding is
    symmetric, and -2^63 is a power of two. *)
Definition float64_of_int (z : Z) : float :=
  if (z <? 0)%Z then
    if (z =? int_min)%Z then (- 0x1p63)%float
    else (- of_uint63 (Uint63.of_Z (- z)))%float
  else of_uint63 (Uint63.of_Z z).

(** ** Slices *)

Definition index {A : Type} (s : list A) (i : nat) : outcome A :=
  match nth_error s i with
  | Some a => Return a
  | None => Panic "index out of range"
  end.

Fixpoint set_nth {A : Type} (s : list A) (i : nat) (a : A) : list A :=
  match s, i with
  | [], _ => []
  | _ :: s', O => a :: s'
  | b :: s', S i' => b :: set_nth s' i' a
  end.

Definition assign {A : Type} (s : list A) (i : nat) (a : A) : outcome (list A) :=
  if (i <? length s)%nat then Return (set_nth s i a)
  else Panic "index out of range".

(** [s[i], s[j] = s[j], s[i]]: both operands are read, then s[i] and s[j]
    are written in this order. *)
Definition slice_swap {A : Type} (s : list A) (i j : nat) : outcome (list A) :=
  a <- index s i ;;
  b <- index s j ;;
  s1 <- assign s i b ;;
  assign s1 j a.

(** ** Counted loops: [for i := start; i < start + count; i++ { body }] *)

Fixpoint for_loop {St : Type} (start count : nat)
    (body : nat -> St -> outcome St) (s : St) : outcome St :=
  match count with
  | O => Return s
  | S count' => s' <- body start s ;; for_loop (S start) count' body s'
  end.

(** ** map[float64]int *)

Definition gomap : Type := list (float * Z).

Fixpoint map_get (m : gomap) (k : float) : Z :=
  match m with
  | [] => 0%Z
  | (k', v) :: m' => if f64_eq k' k then v else map_get m' k
  end.

(** [m[k] = v].  On an existing key the value is overwritten, and so is the
    stored key (the run time copies the key for float maps since +0 and -0
    are equal keys). *)
Fixpoint map_set (m : gomap) (k : float) (v : Z) : gomap :=
  match m with
  | [] => [(k, v)]
  | (k', v') :: m' =>
      if f64_eq k' k then (k, v) :: m' else (k', v') :: map_set m' k v
  end.

(** The keys a [range] over the map yields.  Go leaves the order
    unspecified; every use below sorts the keys. *)
Definition map_keys (m : gomap) : list float := List.map fst m.

(** ** Package sort *)

(** [sort.Interface]. *)
Class Interface (T : Type) : Type := {
  Len : T -> nat;
  Less : T -> nat -> nat -> outcome bool;
  Swap : T -> nat -> nat -> outcome T
}.

(** The inner loop of the library's [insertionSort(data, 0, n)]:
    [for j := i; j > 0 && data.Less(j, j-1); j-- { data.Swap(j, j-1) }]. *)
Fixpoint sift_down {T : Type} `{Interface T} (data : T) (j : nat) : outcome T :=
  match j with
  | O => Return data
  | S j' =>
      lt <- Less data j j' ;;
      if lt : bool then
        data' <- Swap data j j' ;;
        sift_down data' j'
      else Return data
  end.

Definition insertionSort {T : Type} `{Interface T} (data : T) (n : nat)
    : outcome T :=
  for_loop 1 (n - 1) (fun i d => sift_down d i) data.

(** [sort.Sort(data)].  The library sorts in place, ascending by [Less],
    without promising stability.  It runs [insertionSort] on slices of at
    most 12 elements (a Shell pass of gap 6 precedes it in older releases,
    which does nothing up to 6 elements); on longer slices it partitions
    first.  Every strategy yields an ascending permutation when [Less] is a
    strict weak order; the model takes the insertion sort at every
    length. *)
Definition sort_Sort {T : Type} `{Interface T} (data : T) : outcome T :=
  insertionSort data (Len data).

(** [sort.Float64Slice]: ascending, NaN before every other value. *)
Definition Float64Slice : Type := list float.

Definition Float64Slice_Less (x : Float64Slice) (i j : nat) : outcome bool :=
  a <- index x i ;;
  b <- index x j ;;
  Return (f64_lt a b || (isNaN a && negb (isNaN b))).

#[export] Instance Float64Slice_Interface : Interface Float64Slice := {
  Len := @length float;
  Less := Float64Slice_Less;
  Swap := @slice_swap float
}.

Definition sort_Float64s (x : list float) : outcome (list float) :=
  sort_Sort (x : Float64Slice).

(* ------------------------------------------------------------------ *)
(** * The package *)

(** ** Predictions and its [sort.Interface] methods *)

Record Predictions : Type := {
  Values : list float;
  Labels : list Z
}.

Definition Predictions_Len (obj : Predictions) : nat :=
  length (Values obj).

(** The receiver is passed by value, but its two slices alias the caller's
    arrays: the swapped contents are what the caller sees afterwards. *)
Definition Predictions_Swap (obj : Predictions) (i j : nat)
    : outcome Predictions :=
  vs <- slice_swap (Values obj) i j ;;
  ls <- slice_swap (Labels obj) i j ;;
  Return {| Values := vs; Labels := ls |}.

Definition Predictions_Less (obj : Predictions) (i j : nat) : outcome bool :=
  a <- index (Values obj) i ;;
  b <- index (Values obj) j ;;
  Return (f64_lt a b).

#[export] Instance Predictions_Interface : Interface Predictions := {
  Len := Predictions_Len;
  Less := Predictions_Less;
  Swap := Predictions_Swap
}.

(** ** Performance *)

Record Performance : Type := {
  Tr : list float;
  Tp : list Z;
  Fp : list Z;
  Tn : list Z;
  Fn : list Z;
  P : Z;
  N : Z
}.

Definition Performance_Len (obj : Performance) : nat := length (Tr obj).

(** [Performance{}]. *)
Definition Performance_zero : Performance :=
  {| Tr := []; Tp := []; Fp := []; Tn := []; Fn := []; P := 0; N := 0 |}.

(** The error value [fmt.Errorf("invalid label: %d", l)]. *)
Inductive error : Type :=
| invalid_label (l : Z).

(** ** EvalPerformance *)

(** The local variables of the counting loop. *)
Record counters : Type := {
  n_pos : Z;
  n_neg : Z;
  n_pos_map : gomap;
  n_neg_map : gomap
}.

Definition counters_init : counters :=
  {| n_pos := 0; n_neg := 0; n_pos_map := []; n_neg_map := [] |}.

(** [for i, _ := range values { ... }], from index [i], [count] rounds
    left.  The loop returns early with the error on a label that is
    neither 1 nor 0. *)
Fixpoint count_labels (values : list float) (labels : list Z)
    (i count : nat) (c : counters) : outcome (error + counters) :=
  match count with
  | O => Return (inr c)
  | S count' =>
      l <- index labels i ;;
      if (l =? 1)%Z then
        let np := int_add (n_pos c) 1 in
        v <- index values i ;;
        count_labels values labels (S i) count'
          {| n_pos := np; n_neg := n_neg c;
             n_pos_map := map_set (n_pos_map c) v np;
             n_neg_map := map_set (n_neg_map c) v (n_neg c) |}
      else if (l =? 0)%Z then
        let nn := int_add (n_neg c) 1 in
        v <- index values i ;;
        count_labels values labels (S i) count'
          {| n_pos := n_pos c; n_neg := nn;
             n_pos_map := map_set (n_pos_map c) v (n_pos c);
             n_neg_map := map_set (n_neg_map c) v nn |}
      else Return (inl (invalid_label l))
  end.

(** The sweep assembled from the counters and the sorted thresholds
    (the loop [for i, t := range tr]). *)
Definition sweep (tr : list float) (c : counters) : Performance :=
  {| Tr := tr;
     Tp := List.map (fun t => int_sub (n_pos c) (map_get (n_pos_map c) t)) tr;
     Fp := List.map (fun t => int_sub (n_neg c) (map_get (n_neg_map c) t)) tr;
     Tn := List.map (fun t => map_get (n_neg_map c) t) tr;
     Fn := List.map (fun t => map_get (n_pos_map c) t) tr;
     P := n_pos c;
     N := n_neg c |}.

(** [EvalPerformance(values, labels)].  The result pairs the final contents
    of the caller's two slices with the returned [(Performance, error)]. *)
Definition EvalPerformance (values : list float) (labels : list Z)
    : outcome (Predictions * (Performance * option error)) :=
  sorted <- sort_Sort {| Values := values; Labels := labels |} ;;
  r <- count_labels (Values sorted) (Labels sorted)
         0 (length (Values sorted)) counters_init ;;
  match r with
  | inl err => Return (sorted, (Performance_zero, Some err))
  | inr c =>
      tr <- sort_Float64s (map_keys (n_pos_map c)) ;;
      Return (sorted, (sweep tr c, None))
  end.

(** ** ComputePerformance (the variant that takes sorted predictions)

    It neither sorts nor checks the labels, and it takes its thresholds from
    [predictions.Values]. *)

Fixpoint count_labels_unchecked (values : list float) (labels : list Z)
    (i count : nat) (c : counters) : outcome counters :=
  match count with
  | O => Return c
  | S count' =>
      l1 <- index labels i ;;
      let np := if (l1 =? 1)%Z then int_add (n_pos c) 1 else n_pos c in
      l0 <- index labels i ;;
      let nn := if (l0 =? 0)%Z then int_add (n_neg c) 1 else n_neg c in
      v <- index values i ;;
      count_labels_unchecked values labels (S i) count'
        {| n_pos := np; n_neg := nn;
           n_pos_map := map_set (n_pos_map c) v np;
           n_neg_map := map_set (n_neg_map c) v nn |}
  end.

(** The seven results [tr, tp, fp, tn, fn, n_pos, n_neg] are returned as a
    [Performance] record. *)
Definition ComputePerformance (predictions : Predictions)
    : outcome Performance :=
  c <- count_labels_unchecked (Values predictions) (Labels predictions)
         0 (length (Values predictions)) counters_init ;;
  tr <- sort_Float64s (Values predictions) ;;
  Return (sweep tr c).

(** ** PrecisionRecall *)

(** One round of the first loop, on the pair [(precision, recall)]. *)
Definition PrecisionRecall_body (perf : Performance) (i : nat)
    (pr : list float * list float) : outcome (list float * list float) :=
  let (precision, recall) := pr in
  tp <- index (Tp perf) i ;;
  if (tp >? 0)%Z then
    fn <- index (Fn perf) i ;;
    recall' <- assign recall i
      (float64_of_int tp / float64_of_int (int_add tp fn))%float ;;
    fp <- index (Fp perf) i ;;
    precision' <- assign precision i
      (float64_of_int tp / float64_of_int (int_add tp fp))%float ;;
    Return (precision', recall')
  else if (0 <? i)%nat then
    prev <- index precision (i - 1) ;;
    precision' <- assign precision i prev ;;
    Return (precision', recall)
  else Return (precision, recall).

(** One round of the normalisation loop. *)
Definition normalize_body (c : float) (i : nat) (precision : list float)
    : outcome (list float) :=
  p <- index precision i ;;
  assign precision i ((p - c) / (1 - c))%float.

(** Returns [(recall, precision)]. *)
Definition PrecisionRecall (perf : Performance) (normalize : bool)
    : outcome (list float * list float) :=
  let precision := repeat 0%float (Performance_Len perf) in
  let recall := repeat 0%float (Performance_Len perf) in
  pr <- for_loop 0 (length precision) (PrecisionRecall_body perf)
          (precision, recall) ;;
  let (precision, recall) := pr in
  if normalize then
    let c := (float64_of_int (P perf)
              / float64_of_int (int_add (P perf) (N perf)))%float in
    precision' <- for_loop 0 (length precision) (normalize_body c) precision ;;
    Return (recall, precision')
  else Return (recall, precision).

(** ** AUC *)

Definition AUC_body (x y : list float) (i : nat) (result : float)
    : outcome float :=
  xi <- index x i ;;
  xp <- index x (i - 1) ;;
  let dx := abs (xi - xp) in
  yi <- index y i ;;
  yp <- index y (i - 1) ;;
  let dy := ((yi + yp) / 2)%float in
  Return (result + dx * dy)%float.

Definition AUC (x y : list float) : outcome float :=
  let n1 := length x in
  let n2 := length y in
  if negb (n1 =? n2)%nat then Panic "internal error"
  else for_loop 1 (n1 - 1) (AUC_body x y) 0%float.

(** ** Optimum *)

(** One round of the scan, on the pair [(k, v)]. *)
Definition Optimum_body (x y : list float) (i : nat) (kv : nat * float)
    : outcome (nat * float) :=
  let (k, v) := kv in
  xi <- index x i ;;
  yi <- index y i ;;
  let r := (xi * yi)%float in
  if f64_gt r v then Return (i, r) else Return (k, v).

Definition Optimum (tr x y : list float) : outcome nat :=
  kv <- for_loop 0 (length tr) (Optimum_body x y) (O, neg_infinity) ;;
  Return (fst kv).

(* ------------------------------------------------------------------ *)
(** * Auxiliary definitions for the proofs *)

(** ** An integer rank that orders binary64 values

    Finite values are ranked by sign, exponent and mantissa, the
    infinities beyond them and NaN below everything, as the order of
    [sort.Float64s] has it. *)

Definition rank_inf : Z := 36028797018963968000%Z. (* 4000 * 2^53 *)

Definition SFrank (f : spec_float) : Z :=
  match f with
  | S754_zero _ => 0
  | S754_infinity s => if s then - rank_inf else rank_inf
  | S754_nan => - (2 * rank_inf)
  | S754_finite s m e =>
      let r := ((e + 1075) * 9007199254740992 + Zpos m)%Z in
      if s then (- r)%Z else r
  end.

Definition rank (x : float) : Z := SFrank (Prim2SF x).

Definition nonnan (x : float) : Prop := isNaN x = false.

(** ** The library's insertion sort, as a function on the elements

    [insert_rev lt x r] inserts [x] into the reversed prefix [r] the way
    the inner loop does: [x] moves over the elements it is less than, from
    the right. *)

Fixpoint insert_rev {E : Type} (lt : E -> E -> bool) (x : E) (r : list E)
    : list E :=
  match r with
  | [] => [x]
  | y :: r' => if lt x y then y :: insert_rev lt x r' else x :: r
  end.

Definition isort_rev {E : Type} (lt : E -> E -> bool) (l acc : list E)
    : list E :=
  fold_left (fun acc x => insert_rev lt x acc) l acc.

Definition isort {E : Type} (lt : E -> E -> bool) (l : list E) : list E :=
  rev (isort_rev lt l []).

(** The orders the two sorts of the package use. *)
Definition pair_lt (p q : float * Z) : bool := f64_lt (fst p) (fst q).

Definition Float64s_lt (a b : float) : bool :=
  f64_lt a b || (isNaN a && negb (isNaN b)).

(** Ascending by [key], weakly and strictly. *)
Definition ascending {E : Type} (key : E -> Z) (l : list E) : Prop :=
  StronglySorted (fun a b => (key a <= key b)%Z) l.

Definition strictly_ascending {E : Type} (key : E -> Z) (l : list E) : Prop :=
  StronglySorted (fun a b => (key a < key b)%Z) l.

Definition descending {E : Type} (key : E -> Z) (l : list E) : Prop :=
  StronglySorted (fun a b => (key b <= key a)%Z) l.

(** ** Predictions as a list of (score, label) pairs *)

Definition aligned (d : Predictions) : Prop :=
  length (Values d) = length (Labels d).

Definition pairs (d : Predictions) : list (float * Z) :=
  combine (Values d) (Labels d).

(** The counting loop of [EvalPerformance], on the pairs. *)
Fixpoint count_pairs (l : list (float * Z)) (c : counters)
    : error + counters :=
  match l with
  | [] => inr c
  | (v, lab) :: l' =>
      if (lab =? 1)%Z then
        let np := int_add (n_pos c) 1 in
        count_pairs l'
          {| n_pos := np; n_neg := n_neg c;
             n_pos_map := map_set (n_pos_map c) v np;
             n_neg_map := map_set (n_neg_map c) v (n_neg c) |}
      else if (lab =? 0)%Z then
        let nn := int_add (n_neg c) 1 in
        count_pairs l'
          {| n_pos := n_pos c; n_neg := nn;
             n_pos_map := map_set (n_pos_map c) v (n_pos c);
             n_neg_map := map_set (n_neg_map c) v nn |}
      else inl (invalid_label lab)
  end.

Definition valid_label (l : Z) : Prop := l = 0%Z \/ l = 1%Z.

Definition ranks (m : gomap) : list Z := List.map rank (map_keys m).

(** The result of [EvalPerformance] on the sorted pairs. *)
Definition eval_pairs (l : list (float * Z)) : Performance * option error :=
  match count_pairs l counters_init with
  | inl err => (Performance_zero, Some err)
  | inr c => (sweep (isort Float64s_lt (map_keys (n_pos_map c))) c, None)
  end.

(** ** Invariants of the counting loop *)

(** After [k] rounds: the counters add up to [k], the two maps hold the
    same keys, and every recorded count is a past value of its counter. *)
Record counters_ok (k : Z) (c : counters) : Prop := {
  ok_pos : (0 <= n_pos c)%Z;
  ok_neg : (0 <= n_neg c)%Z;
  ok_sum : (n_pos c + n_neg c = k)%Z;
  ok_keys : map_keys (n_pos_map c) = map_keys (n_neg_map c);
  ok_get_pos : forall t, (0 <= map_get (n_pos_map c) t <= n_pos c)%Z;
  ok_get_neg : forall t, (0 <= map_get (n_neg_map c) t <= n_neg c)%Z
}.

(** The recorded counts grow with the key. *)
Definition get_monotone (m : gomap) : Prop :=
  forall k1 k2, In k2 (map_keys m) -> (rank k1 <= rank k2)%Z ->
                (map_get m k1 <= map_get m k2)%Z.

(** The score values up to [==], first occurrences dropped. *)
Fixpoint distinct (l : list float) : list float :=
  match l with
  | [] => []
  | x :: r => if existsb (f64_eq x) r then distinct r else x :: distinct r
  end.

(* ------------------------------------------------------------------ *)
(** * The properties stated of the package *)

(** A valid dataset: aligned scores and labels, at least one sample, every
    label 0 or 1. *)
Definition valid_dataset (values : list float) (labels : list Z) : Prop :=
  length values = length labels /\
  (0 < length values)%nat /\
  Forall valid_label labels.

(** The length of a Go slice is an [int]. *)
Definition slice_length_ok {A : Type} (s : list A) : Prop :=
  (Z.of_nat (length s) <= int_max)%Z.

(** [tp[i] + fn[i] = P] and [fp[i] + tn[i] = N] at every index of the
    sweep. *)
Definition sweep_identities (perf : Performance) : Prop :=
  forall i, (i < Performance_Len perf)%nat ->
  exists tp fp tn fn,
    nth_error (Tp perf) i = Some tp /\ nth_error (Fp perf) i = Some fp /\
    nth_error (Tn perf) i = Some tn /\ nth_error (Fn perf) i = Some fn /\
    (tp + fn = P perf)%Z /\ (fp + tn = N perf)%Z.

Definition non_increasing (s : list Z) : Prop :=
  forall i j a b, (i <= j)%nat ->
  nth_error s i = Some a -> nth_error s j = Some b -> (b <= a)%Z.

Definition non_decreasing (s : list Z) : Prop :=
  forall i j a b, (i <= j)%nat ->
  nth_error s i = Some a -> nth_error s j = Some b -> (a <= b)%Z.

Definition sweep_monotone (perf : Performance) : Prop :=
  non_increasing (Tp perf) /\ non_increasing (Fp perf) /\
  non_decreasing (Tn perf) /\ non_decreasing (Fn perf).

(** Strictly increasing under Go's [<]. *)
Definition strictly_increasing (s : list float) : Prop :=
  forall i j a b, (i < j)%nat ->
  nth_error s i = Some a -> nth_error s j = Some b -> f64_lt a b = true.

(** The number of entries of [s] that are [==] to [v]. *)
Definition occurrences (v : float) (s : list float) : nat :=
  length (filter (fun t => f64_eq t v) s).

(** No later score is less than an earlier one, under Go's [<]. *)
Definition non_descending (s : list float) : Prop :=
  forall i j a b, (i < j)%nat ->
  nth_error s i = Some a -> nth_error s j = Some b -> f64_lt b a = false.

(** ** The curve functions *)

(** Following the spec's words for AUC: the terms
    [|x[i] - x[i-1]| * (y[i] + y[i-1]) / 2] for i = 1 .. len-1 ... *)
Fixpoint trapezoids (x y : list float) : list float :=
  match x, y with
  | x0 :: x', y0 :: y' =>
      match x', y' with
      | x1 :: _, y1 :: _ =>
          (abs (x1 - x0) * ((y1 + y0) / 2))%float :: trapezoids x' y'
      | _, _ => []
      end
  | _, _ => []
  end.

(** ... summed up in this order, starting from 0. *)
Definition trapezoid_sum (x y : list float) : float :=
  fold_left PrimFloat.add (trapezoids x y) 0%float.

(** The products [x[i] * y[i]]. *)
Definition products (x y : list float) : list float :=
  List.map (fun p => (fst p * snd p)%float) (combine x y).

(** [k] is the smallest index at which [p] takes its maximum, under Go's
    [<=] and [<]. *)
Definition first_argmax (p : list float) (k : nat) : Prop :=
  exists v, nth_error p k = Some v /\
    (forall j w, nth_error p j = Some w -> f64_le w v = true) /\
    (forall j w, (j < k)%nat -> nth_error p j = Some w -> f64_lt w v = true).

(** The state of the scan of [Optimum] after the first [n] rounds. *)
Definition Optimum_inv (p : list float) (n : nat) (kv : nat * float) : Prop :=
  let (k, v) := kv in
  nonnan v /\
  (forall j w, (j < n)%nat -> nth_error p j = Some w -> (rank w <= rank v)%Z) /\
  ((k = 0%nat /\ rank v = (- rank_inf)%Z) \/
   ((k < n)%nat /\ nth_error p k = Some v /\
    forall j w, (j < k)%nat -> nth_error p j = Some w -> (rank w < rank v)%Z)).

(** ** PrecisionRecall *)

(** The parallel sequences of a sweep have the length of its thresholds. *)
Definition aligned_sweep (perf : Performance) : Prop :=
  length (Tp perf) = Performance_Len perf /\
  length (Fp perf) = Performance_Len perf /\
  length (Fn perf) = Performance_Len perf.

(** The two ratios the first loop assigns. *)
Definition ratio (tp other : Z) : float :=
  (float64_of_int tp / float64_of_int (int_add tp other))%float.

(** The entries of [recall], index by index. *)
Fixpoint recall_list (tps fns : list Z) : list float :=
  match tps, fns with
  | tp :: tps', fn :: fns' =>
      (if (tp >? 0)%Z then ratio tp fn else 0%float) :: recall_list tps' fns'
  | _, _ => []
  end.

(** The entries of [precision] before normalisation; [prev] is the entry
    before the first one (zero at the start). *)
Fixpoint precision_list (prev : float) (tps fps : list Z) : list float :=
  match tps, fps with
  | tp :: tps', fp :: fps' =>
      let p := if (tp >? 0)%Z then ratio tp fp else prev in
      p :: precision_list p tps' fps'
  | _, _ => []
  end.

(** The base rate [c] and the remapping of the normalisation. *)
Definition base_rate (perf : Performance) : float :=
  (float64_of_int (P perf)
   / float64_of_int (int_add (P perf) (N perf)))%float.

Definition remap (c p : float) : float := ((p - c) / (1 - c))%float.

(** The counting loop of [ComputePerformance], on the pairs: it has no
    check of the label. *)
Fixpoint count_pairs_unchecked (l : list (float * Z)) (c : counters)
    : counters :=
  match l with
  | [] => c
  | (v, lab) :: l' =>
      let np := if (lab =? 1)%Z then int_add (n_pos c) 1 else n_pos c in
      let nn := if (lab =? 0)%Z then int_add (n_neg c) 1 else n_neg c in
      count_pairs_unchecked l'
        {| n_pos := np; n_neg := nn;
           n_pos_map := map_set (n_pos_map c) v np;
           n_neg_map := map_set (n_neg_map c) v nn |}
  end.

(* ------------------------------------------------------------------ *)
(** * Further vocabulary: what the sweep counts *)

(** The number of elements of [l] that satisfy [f], as an [int]. *)
Definition count {A : Type} (f : A -> bool) (l : list A) : Z :=
  Z.of_nat (length (filter f l)).

(** The number of labels equal to [lab]. *)
Definition count_label (lab : Z) (labels : list Z) : Z :=
  count (fun l => (l =? lab)%Z) labels.

(** The samples of label [lab] whose score is [<= t], and those whose score
    is [> t], under Go's comparisons. *)
Definition samples_at_most (t : float) (lab : Z)
    (values : list float) (labels : list Z) : Z :=
  count (fun p => f64_le (fst p) t && (snd p =? lab)%Z) (combine values labels).

Definition samples_above (t : float) (lab : Z)
    (values : list float) (labels : list Z) : Z :=
  count (fun p => f64_gt (fst p) t && (snd p =? lab)%Z) (combine values labels).

(** The same counts on pairs, by rank. *)
Definition count_upto (lab r : Z) (l : list (float * Z)) : Z :=
  count (fun p => (rank (fst p) <=? r)%Z && (snd p =? lab)%Z) l.

Definition count_all (lab : Z) (l : list (float * Z)) : Z :=
  count (fun p => (snd p =? lab)%Z) l.

(** What the counters hold once the pairs [done] have gone through the
    counting loop: the totals of either label, and under every key the
    totals of the samples up to that key. *)
Record counted (done : list (float * Z)) (c : counters) : Prop := {
  counted_pos : n_pos c = count_all 1 done;
  counted_neg : n_neg c = count_all 0 done;
  counted_get : forall t, In t (map_keys (n_pos_map c)) ->
    map_get (n_pos_map c) t = count_upto 1 (rank t) done /\
    map_get (n_neg_map c) t = count_upto 0 (rank t) done
}.

(* ------------------------------------------------------------------ *)
(** * The rest of the package *)

(** ** Roc *)

(** One round of the loop, on the pair [(tpr, fpr)]. *)
Definition Roc_body (perf : Performance) (i : nat)
    (s : list float * list float) : outcome (list float * list float) :=
  let (tpr, fpr) := s in
  tp <- index (Tp perf) i ;;
  tpr' <- assign tpr i (float64_of_int tp / float64_of_int (P perf))%float ;;
  fp <- index (Fp perf) i ;;
  fpr' <- assign fpr i (float64_of_int fp / float64_of_int (N perf))%float ;;
  Return (tpr', fpr').

(** Returns [(fpr, tpr)]. *)
Definition Roc (perf : Performance) : outcome (list float * list float) :=
  let tpr := repeat 0%float (Performance_Len perf) in
  let fpr := repeat 0%float (Performance_Len perf) in
  s <- for_loop 0 (length tpr) (Roc_body perf) (tpr, fpr) ;;
  let (tpr, fpr) := s in
  Return (fpr, tpr).

(** ** The functions of the variant on sorted predictions *)

Definition ComputePrecisionRecall_body (tp fp fn : list Z) (i : nat)
    (pr : list float * list float) : outcome (list float * list float) :=
  let (precision, recall) := pr in
  tpi <- index tp i ;;
  if (tpi >? 0)%Z then
    fni <- index fn i ;;
    recall' <- assign recall i
      (float64_of_int tpi / float64_of_int (int_add tpi fni))%float ;;
    fpi <- index fp i ;;
    precision' <- assign precision i
      (float64_of_int tpi / float64_of_int (int_add tpi fpi))%float ;;
    Return (precision', recall')
  else if (0 <? i)%nat then
    prev <- index precision (i - 1) ;;
    precision' <- assign precision i prev ;;
    Return (precision', recall)
  else Return (precision, recall).

Definition ComputePrecisionRecall (tp fp fn : list Z) (n_pos n_neg : Z)
    (normalize : bool) : outcome (list float * list float) :=
  let precision := repeat 0%float (length tp) in
  let recall := repeat 0%float (length tp) in
  pr <- for_loop 0 (length precision) (ComputePrecisionRecall_body tp fp fn)
          (precision, recall) ;;
  let (precision, recall) := pr in
  if normalize then
    let c := (float64_of_int n_pos
              / float64_of_int (int_add n_pos n_neg))%float in
    precision' <- for_loop 0 (length precision) (normalize_body c) precision ;;
    Return (recall, precision')
  else Return (recall, precision).

Definition ComputeRoc_body (tp fp : list Z) (n_pos n_neg : Z) (i : nat)
    (s : list float * list float) : outcome (list float * list float) :=
  let (tpr, fpr) := s in
  tpi <- index tp i ;;
  tpr' <- assign tpr i (float64_of_int tpi / float64_of_int n_pos)%float ;;
  fpi <- index fp i ;;
  fpr' <- assign fpr i (float64_of_int fpi / float64_of_int n_neg)%float ;;
  Return (tpr', fpr').

Definition ComputeRoc (tp fp : list Z) (n_pos n_neg : Z)
    : outcome (list float * list float) :=
  let tpr := repeat 0%float (length tp) in
  let fpr := repeat 0%float (length tp) in
  s <- for_loop 0 (length tpr) (ComputeRoc_body tp fp n_pos n_neg) (tpr, fpr) ;;
  let (tpr, fpr) := s in
  Return (fpr, tpr).

(** ** ReadPredictions

    The reader is taken as the sequence of lines its [bufio.Scanner]
    yields, and the three library functions the code calls are the fields
    of [TextLibrary]: [strings.Fields], [strconv.ParseInt(s, 10, 64)] and
    [strconv.ParseFloat(s, 64)], the last two with the error they return
    in place of a value. *)

Class TextLibrary (E : Type) : Type := {
  strings_Fields : string -> list string;
  strconv_ParseInt : string -> E + Z;
  strconv_ParseFloat : string -> E + float
}.

Inductive read_error (E : Type) : Type :=
| invalid_predictions_table
| no_predictions_column
| no_labels_column
| parse_failure (e : E)
| invalid_label_observed (label : Z).

Arguments invalid_predictions_table {E}.
Arguments no_predictions_column {E}.
Arguments no_labels_column {E}.
Arguments parse_failure {E} e.
Arguments invalid_label_observed {E} label.

(** [s[i]] for an [int] index. *)
Definition index_int {A : Type} (s : list A) (i : Z) : outcome A :=
  if (i <? 0)%Z then Panic "index out of range" else index s (Z.to_nat i).

Definition is_predictions (f : string) : bool :=
  (f =? "predictions")%string || (f =? "prediction")%string.

Definition is_labels (f : string) : bool :=
  (f =? "labels")%string || (f =? "label")%string.

(** [for i := 0; i < 2; i++ { if names(fields[i]) { k = i } }], from
    [k = -1]. *)
Definition find_column (names : string -> bool) (fields : list string)
    : outcome Z :=
  for_loop 0 2
    (fun i (k : Z) =>
       f <- index fields i ;;
       Return (if names f then Z.of_nat i else k))
    (-1)%Z.

(** The loop over the data rows. *)
Fixpoint read_rows {E : Type} `{TextLibrary E} (i_predictions i_labels : Z)
    (rows : list string) (values : list float) (labels : list Z)
    : outcome (list float * list Z * option (read_error E)) :=
  match rows with
  | [] => Return (values, labels, None)
  | line :: rows' =>
      let fields := strings_Fields line in
      fl <- index_int fields i_labels ;;
      match strconv_ParseInt fl with
      | inl e => Return ([], [], Some (parse_failure e))
      | inr label =>
          fp <- index_int fields i_predictions ;;
          match strconv_ParseFloat fp with
          | inl e => Return ([], [], Some (parse_failure e))
          | inr value =>
              if negb (label =? 0)%Z && negb (label =? 1)%Z then
                Return ([], [], Some (invalid_label_observed label))
              else
                read_rows i_predictions i_labels rows'
                  (values ++ [value]) (labels ++ [label])
          end
      end
  end.

(** [ReadPredictions(reader)], and [read_predictions(config, reader)] of
    the command, which is the same code.  On an error the two slices are
    nil. *)
Definition ReadPredictions {E : Type} `{TextLibrary E} (lines : list string)
    : outcome (list float * list Z * option (read_error E)) :=
  match lines with
  | [] => read_rows (-1) (-1) [] [] []
  | header :: rows =>
      let fields := strings_Fields header in
      if negb (length fields =? 2)%nat then
        Return ([], [], Some invalid_predictions_table)
      else
        i_predictions <- find_column is_predictions fields ;;
        i_labels <- find_column is_labels fields ;;
        if (i_predictions =? -1)%Z then
          Return ([], [], Some no_predictions_column)
        else if (i_labels =? -1)%Z then
          Return ([], [], Some no_labels_column)
        else read_rows i_predictions i_labels rows [] []
  end.

(** What a table must look like for [ReadPredictions] to accept it: the
    two columns a header names, and a row that parses to a score and a
    label. *)
Definition header_columns (fields : list string) : option (Z * Z) :=
  match fields with
  | [a; b] =>
      if is_predictions a && is_labels b then Some (0, 1)%Z
      else if is_labels a && is_predictions b then Some (1, 0)%Z
      else None
  | _ => None
  end.

Definition row_parses {E : Type} `{TextLibrary E} (i_predictions i_labels : Z)
    (line : string) (sample : float * Z) : Prop :=
  exists fl fp,
    nth_error (strings_Fields line) (Z.to_nat i_labels) = Some fl /\
    strconv_ParseInt fl = inr (snd sample) /\
    nth_error (strings_Fields line) (Z.to_nat i_predictions) = Some fp /\
    strconv_ParseFloat fp = inr (fst sample).

(* ------------------------------------------------------------------ *)
(** * The command classifierPerformance *)

Record Config : Type := {
  NormalizePrecision : bool;
  PrintHeader : bool;
  PrintThresholds : bool;
  Verbose : Z
}.

(** What the command writes to the standard output, one entry for every
    line: the names of a header line, the numbers of a line of [%f]
    fields (or of a [Println]), and the named numbers of a line of
    [name=%f] fields. *)
Inductive printed : Type :=
| print_names (names : list string)
| print_values (fields : list float)
| print_named (fields : list (string * float)).

(** The calls of [log.Fatal] and [log.Fatalf] that end the command. *)
Inductive fatal : Type :=
| table_is_empty (filename : string)
| evaluation_failed (e : error)
| invalid_target (target : string).

(** [export_table2]; the lines are appended to the output [out]. *)
Definition export_table2 (config : Config) (out : list printed)
    (x y : list float) (name_x name_y : string) : outcome (list printed) :=
  let out := if PrintHeader config
             then out ++ [print_names [name_x; name_y]] else out in
  for_loop 0 (length x)
    (fun i out =>
       xi <- index x i ;;
       yi <- index y i ;;
       Return (out ++ [print_values [xi; yi]]))
    out.

Definition export_table3 (config : Config) (out : list printed)
    (x y z : list float) (name_x name_y name_z : string)
    : outcome (list printed) :=
  let out := if PrintHeader config
             then out ++ [print_names [name_x; name_y; name_z]] else out in
  for_loop 0 (length x)
    (fun i out =>
       xi <- index x i ;;
       yi <- index y i ;;
       zi <- index z i ;;
       Return (out ++ [print_values [xi; yi; zi]]))
    out.

(** The line of an optimum: the entries of [x], [y] and [tr] at [i]. *)
Definition print_optimum (config : Config) (x y tr : list float) (i : nat)
    (name_x name_y : string) : outcome (list printed) :=
  xi <- index x i ;;
  yi <- index y i ;;
  ti <- index tr i ;;
  if PrintHeader config
  then Return [print_named [(name_x, xi); (name_y, yi);
                            ("threshold"%string, ti)]]
  else Return [print_values [xi; yi; ti]].

(** The targets the usage text of the command lists. *)
Definition targets : list string :=
  ["precision-recall"; "precision-recall-auc"; "roc"; "roc-auc";
   "optimal-precision-recall"; "optimal-roc"]%string.

(* ------------------------------------------------------------------ *)
(** * The package over the library's sort

    [sort.Sort] is not code of the package.  The library runs the
    insertion sort of [sort_Sort] on at most 12 elements and partitions
    longer slices first, so that above 12 elements [sort_Sort] gives the
    library's result only up to the order of ties, and only when [Less] is
    an order: with a NaN score [Predictions.Less] is none.  The definitions
    of this module are the package's functions with [sort.Sort] on a
    [Predictions] as the parameter [Sort]; the three properties after the
    module are what is assumed of it where a theorem says so. *)

Module Library.
Section Sort.

Variable Sort : Predictions -> outcome Predictions.

(** [EvalPerformance(values, labels)].  The result pairs the final contents
    of the caller's two slices with the returned [(Performance, error)]. *)
Definition EvalPerformance (values : list float) (labels : list Z)
    : outcome (Predictions * (Performance * option error)) :=
  sorted <- Sort {| Values := values; Labels := labels |} ;;
  r <- count_labels (Values sorted) (Labels sorted)
         0 (length (Values sorted)) counters_init ;;
  match r with
  | inl err => Return (sorted, (Performance_zero, Some err))
  | inr c =>
      tr <- sort_Float64s (map_keys (n_pos_map c)) ;;
      Return (sorted, (sweep tr c, None))
  end.

(** [EvalPrecisionRecall] and [EvalRoc].  The three results [(r, p, err)]
    follow the final contents of the caller's slices; on an error the two
    sequences are nil. *)
Definition EvalPrecisionRecall (values : list float) (labels : list Z)
    (normalize : bool)
    : outcome (Predictions * (list float * list float * option error)) :=
  res <- EvalPerformance values labels ;;
  let '(d, (perf, err)) := res in
  match err with
  | Some e => Return (d, ([], [], Some e))
  | None =>
      rp <- PrecisionRecall perf normalize ;;
      let (r, p) := rp in
      Return (d, (r, p, None))
  end.

Definition EvalRoc (values : list float) (labels : list Z)
    : outcome (Predictions * (list float * list float * option error)) :=
  res <- EvalPerformance values labels ;;
  let '(d, (perf, err)) := res in
  match err with
  | Some e => Return (d, ([], [], Some e))
  | None =>
      rp <- Roc perf ;;
      let (r, p) := rp in
      Return (d, (r, p, None))
  end.

(** [classifier_performance(config, filename, target)] from the point
    where [import_predictions] has returned [(values, labels)];
    [ToLower] is [strings.ToLower].  The result is the output written, or
    the fatal error that ends the command before anything is written. *)
Definition classifier_performance (ToLower : string -> string)
    (config : Config) (values : list float) (labels : list Z)
    (filename target : string) : outcome (fatal + list printed) :=
  if (length values =? 0)%nat then Return (inl (table_is_empty filename))
  else
    res <- EvalPerformance values labels ;;
    let '(_, (perf, err)) := res in
    match err with
    | Some e => Return (inl (evaluation_failed e))
    | None =>
        let t := ToLower target in
        if (t =? "precision-recall")%string then
          rp <- PrecisionRecall perf (NormalizePrecision config) ;;
          let (recall, precision) := rp in
          out <- (if PrintThresholds config
                  then export_table3 config [] recall precision (Tr perf)
                         "recall" "precision" "threshold"
                  else export_table2 config [] recall precision
                         "recall" "precision") ;;
          Return (inr out)
        else if (t =? "precision-recall-auc")%string then
          rp <- PrecisionRecall perf (NormalizePrecision config) ;;
          let (recall, precision) := rp in
          a <- AUC recall precision ;;
          Return (inr [print_values [a]])
        else if (t =? "roc")%string then
          ft <- Roc perf ;;
          let (fpr, tpr) := ft in
          out <- (if PrintThresholds config
                  then export_table3 config [] fpr tpr (Tr perf)
                         "FPR" "TPR" "threshold"
                  else export_table2 config [] fpr tpr "FPR" "TPR") ;;
          Return (inr out)
        else if (t =? "roc-auc")%string then
          ft <- Roc perf ;;
          let (fpr, tpr) := ft in
          a <- AUC fpr tpr ;;
          Return (inr [print_values [a]])
        else if (t =? "optimal-precision-recall")%string then
          rp <- PrecisionRecall perf (NormalizePrecision config) ;;
          let (recall, precision) := rp in
          i <- Optimum (Tr perf) recall precision ;;
          out <- print_optimum config recall precision (Tr perf) i
                   "recall" "precision" ;;
          Return (inr out)
        else if (t =? "optimal-roc")%string then
          ft <- Roc perf ;;
          let (fpr, tpr) := ft in
          fpr_inv <- for_loop 0 (length fpr)
                       (fun i fpr_inv =>
                          f <- index fpr i ;;
                          assign fpr_inv i (1 - f)%float)
                       (repeat 0%float (length fpr)) ;;
          i <- Optimum (Tr perf) fpr_inv tpr ;;
          out <- print_optimum config fpr tpr (Tr perf) i "fpr" "tpr" ;;
          Return (inr out)
        else Return (inl (invalid_target target))
    end.

End Sort.
End Library.

(** What is assumed of [sort.Sort] on a [Predictions].

    Whatever [Less] answers, the library reaches the data through [Len],
    [Less] and [Swap] alone, with indices in range, and returns: on
    aligned slices it does not panic and leaves the samples permuted,
    score and label together. *)
Definition Sort_permutes (Sort : Predictions -> outcome Predictions) : Prop :=
  forall d, aligned d ->
  exists d', Sort d = Return d' /\ aligned d' /\
             Permutation (pairs d') (pairs d).

(** When no score is NaN, [Less] is an order and the scores are left in
    ascending order: no later score is less than an earlier one. *)
Definition Sort_ascending (Sort : Predictions -> outcome Predictions) : Prop :=
  forall d d', aligned d -> Forall nonnan (Values d) ->
  Sort d = Return d' -> non_descending (Values d').

(** On at most 12 elements the library runs its insertion sort. *)
Definition Sort_small (Sort : Predictions -> outcome Predictions) : Prop :=
  forall d, (Predictions_Len d <= 12)%nat -> Sort d = sort_Sort d.

(* ------------------------------------------------------------------ *)
(** * Order of binary64 values *)

Unset Implicit Arguments.

Arguments f64_lt : simpl never.
Arguments f64_eq : simpl never.
Arguments f64_gt : simpl never.
Arguments f64_le : simpl never.
Arguments isNaN : simpl never.
Arguments int_add : simpl never.
Arguments int_sub : simpl never.
Arguments float64_of_int : simpl never.

Section FloatOrder.

Local Open Scope Z_scope.

Lemma digits2_pos_upper (m : positive) :
  Zpos m < 2 ^ Zpos (digits2_pos m).
Proof.
  induction m as [p IH | p IH | ]; cbn [digits2_pos];
    rewrite ?Pos2Z.inj_succ, ?Z.pow_succ_r by lia; lia.
Qed.

Lemma digits2_pos_lower (m : positive) :
  2 ^ (Zpos (digits2_pos m) - 1) <= Zpos m.
Proof.
  induction m as [p IH | p IH | ]; cbn [digits2_pos];
    rewrite ?Pos2Z.inj_succ;
    try (replace (Z.succ (Zpos (digits2_pos p)) - 1)
           with (Z.succ (Zpos (digits2_pos p) - 1)) by lia;
         rewrite Z.pow_succ_r by lia; lia).
  cbn. lia.
Qed.

(** What [valid_binary] says of a finite binary64 value. *)
Lemma bounded_binary64 (m : positive) (e : Z) :
  bounded prec emax m e = true ->
  -1074 <= e <= 971 /\ Zpos m < 9007199254740992 /\ Zpos (digits2_pos m) <= 53.
Proof.
  unfold bounded, canonical_mantissa, fexp, SpecFloat.emin, prec, emax.
  intros Hb. apply andb_true_iff in Hb. destruct Hb as [Hc He].
  apply Z.eqb_eq in Hc. apply Z.leb_le in He.
  assert (Hd : Zpos (digits2_pos m) <= 53) by lia.
  repeat split; try lia.
  pose proof (digits2_pos_upper m) as Hu.
  assert (2 ^ Zpos (digits2_pos m) <= 2 ^ 53)
    by (apply Z.pow_le_mono_r; lia).
  change (2 ^ 53) with 9007199254740992 in *. lia.
Qed.

Lemma SFcompare_rank (x y : spec_float) :
  valid_binary x = true -> valid_binary y = true ->
  x <> S754_nan -> y <> S754_nan ->
  SFcompare x y = Some (SFrank x ?= SFrank y).
Proof.
  intros Vx Vy Nx Ny.
  destruct x as [sx | sx | | sx mx ex]; try congruence;
  destruct y as [sy | sy | | sy my ey]; try congruence;
  cbn [valid_binary] in Vx, Vy;
  try (apply bounded_binary64 in Vx; destruct Vx as (Vx1 & Vx2 & _));
  try (apply bounded_binary64 in Vy; destruct Vy as (Vy1 & Vy2 & _));
  unfold SFcompare, SFrank, rank_inf;
  repeat match goal with s : bool |- _ => destruct s end;
  try (f_equal; symmetry;
       first [ apply Z.compare_eq_iff; lia
             | apply Z.compare_lt_iff; lia
             | apply Z.compare_gt_iff; lia ]).
  all: f_equal; rewrite Pos.compare_cont_spec; cbn [Pos.switch_Eq];
    change (Pos.compare mx my) with (Z.compare (Zpos mx) (Zpos my));
    destruct (Z.compare_spec ex ey) as [He | He | He];
    destruct (Z.compare_spec (Zpos mx) (Zpos my)) as [Hm | Hm | Hm];
    cbn [CompOpp]; symmetry;
    first [ apply Z.compare_eq_iff; lia
          | apply Z.compare_lt_iff; lia
          | apply Z.compare_gt_iff; lia ].
Qed.

Lemma isNaN_spec (x : float) : isNaN x = true <-> Prim2SF x = S754_nan.
Proof.
  unfold isNaN, f64_eq. rewrite eqb_spec. unfold SFeqb.
  destruct (Prim2SF x) as [s | s | | s m e] eqn:E; cbn.
  - split; [discriminate | congruence].
  - destruct s; cbn; split; (discriminate || congruence).
  - tauto.
  - rewrite Z.compare_refl, Pos.compare_cont_refl.
    destruct s; cbn; split; (discriminate || congruence).
Qed.

Lemma nonnan_spec (x : float) : nonnan x <-> Prim2SF x <> S754_nan.
Proof.
  unfold nonnan. rewrite <- isNaN_spec. destruct (isNaN x); split; congruence.
Qed.

Lemma rank_nan (x : float) : isNaN x = true -> rank x = - (2 * rank_inf).
Proof. intros H. apply isNaN_spec in H. unfold rank. now rewrite H. Qed.

Lemma rank_nonnan (x : float) : nonnan x -> - rank_inf <= rank x <= rank_inf.
Proof.
  intros H. apply nonnan_spec in H. unfold rank.
  pose proof (Prim2SF_valid x) as V.
  destruct (Prim2SF x) as [s | s | | s m e]; try congruence;
    cbn [valid_binary] in V; unfold SFrank, rank_inf.
  - lia.
  - destruct s; lia.
  - apply bounded_binary64 in V. destruct s; lia.
Qed.

Lemma f64_lt_spec (x y : float) :
  f64_lt x y = true <-> nonnan x /\ nonnan y /\ rank x < rank y.
Proof.
  unfold f64_lt. rewrite ltb_spec. unfold SFltb.
  rewrite !nonnan_spec. unfold rank.
  destruct (Prim2SF x) as [sx | sx | | sx mx ex] eqn:Ex;
  destruct (Prim2SF y) as [sy | sy | | sy my ey] eqn:Ey;
  try solve [cbn; split; [discriminate | intros (H1 & H2 & _); congruence]];
  (rewrite SFcompare_rank;
    [ | rewrite <- ?Ex; apply Prim2SF_valid | rewrite <- ?Ey; apply Prim2SF_valid
      | discriminate | discriminate ]);
  match goal with |- context [(?a ?= ?b)] =>
    destruct (Z.compare_spec a b) as [Hc | Hc | Hc] end;
  (split; [ try discriminate; intros _; repeat split; (discriminate || lia)
          | intros (_ & _ & Hr); (reflexivity || lia) ]).
Qed.

Lemma f64_eq_spec (x y : float) :
  f64_eq x y = true <-> nonnan x /\ nonnan y /\ rank x = rank y.
Proof.
  unfold f64_eq. rewrite eqb_spec. unfold SFeqb.
  rewrite !nonnan_spec. unfold rank.
  destruct (Prim2SF x) as [sx | sx | | sx mx ex] eqn:Ex;
  destruct (Prim2SF y) as [sy | sy | | sy my ey] eqn:Ey;
  try solve [cbn; split; [discriminate | intros (H1 & H2 & _); congruence]];
  (rewrite SFcompare_rank;
    [ | rewrite <- ?Ex; apply Prim2SF_valid | rewrite <- ?Ey; apply Prim2SF_valid
      | discriminate | discriminate ]);
  match goal with |- context [(?a ?= ?b)] =>
    destruct (Z.compare_spec a b) as [Hc | Hc | Hc] end;
  (split; [ try discriminate; intros _; repeat split; (discriminate || lia)
          | intros (_ & _ & Hr); (reflexivity || lia) ]).
Qed.

Lemma f64_le_spec (x y : float) :
  f64_le x y = true <-> nonnan x /\ nonnan y /\ rank x <= rank y.
Proof.
  unfold f64_le. rewrite leb_spec. unfold SFleb.
  rewrite !nonnan_spec. unfold rank.
  destruct (Prim2SF x) as [sx | sx | | sx mx ex] eqn:Ex;
  destruct (Prim2SF y) as [sy | sy | | sy my ey] eqn:Ey;
  try solve [cbn; split; [discriminate | intros (H1 & H2 & _); congruence]];
  (rewrite SFcompare_rank;
    [ | rewrite <- ?Ex; apply Prim2SF_valid | rewrite <- ?Ey; apply Prim2SF_valid
      | discriminate | discriminate ]);
  match goal with |- context [(?a ?= ?b)] =>
    destruct (Z.compare_spec a b) as [Hc | Hc | Hc] end;
  (split; [ try discriminate; intros _; repeat split; (discriminate || lia)
          | intros (_ & _ & Hr); (reflexivity || lia) ]).
Qed.

Lemma f64_gt_spec (x y : float) :
  f64_gt x y = true <-> nonnan x /\ nonnan y /\ rank y < rank x.
Proof. unfold f64_gt. change (y <? x)%float with (f64_lt y x).
  rewrite f64_lt_spec. tauto. Qed.

Lemma f64_gt_false (x y : float) :
  nonnan x -> nonnan y -> f64_gt x y = false <-> rank x <= rank y.
Proof.
  intros Hx Hy. pose proof (f64_gt_spec x y) as S.
  destruct (f64_gt x y); split; intros H; try reflexivity; try discriminate.
  - destruct S as [S _]. specialize (S eq_refl). lia.
  - destruct (Z.lt_ge_cases (rank y) (rank x)) as [L | L]; [ | lia].
    destruct S as [_ S]. discriminate S. auto.
Qed.

Lemma f64_lt_false (x y : float) :
  nonnan x -> nonnan y -> f64_lt x y = false <-> rank y <= rank x.
Proof.
  intros Hx Hy. pose proof (f64_lt_spec x y) as S.
  destruct (f64_lt x y); split; intros H; try reflexivity; try discriminate.
  - destruct S as [S _]. specialize (S eq_refl). lia.
  - destruct (Z.lt_ge_cases (rank x) (rank y)) as [L | L]; [ | lia].
    destruct S as [_ S]. discriminate S. auto.
Qed.

Lemma f64_eq_false (x y : float) :
  nonnan x -> nonnan y -> f64_eq x y = false <-> rank x <> rank y.
Proof.
  intros Hx Hy. pose proof (f64_eq_spec x y) as S.
  destruct (f64_eq x y); split; intros H; try reflexivity; try discriminate.
  - destruct S as [S _]. specialize (S eq_refl). lia.
  - intros E. destruct S as [_ S]. discriminate S. auto.
Qed.

(** The order of [sort.Float64s] is the order of the ranks, NaN included. *)
Lemma Float64s_less_rank (a b : float) :
  f64_lt a b || (isNaN a && negb (isNaN b)) = (rank a <? rank b).
Proof.
  destruct (isNaN a) eqn:Na; destruct (isNaN b) eqn:Nb; cbn [andb negb].
  - rewrite (rank_nan _ Na), (rank_nan _ Nb), Z.ltb_irrefl, orb_false_r.
    pose proof (f64_lt_spec a b) as S. unfold nonnan in S.
    destruct (f64_lt a b); [ | reflexivity].
    destruct S as [S _]. destruct (S eq_refl). congruence.
  - rewrite orb_true_r. symmetry. apply Z.ltb_lt.
    rewrite (rank_nan _ Na). pose proof (rank_nonnan _ Nb). unfold rank_inf in *. lia.
  - rewrite orb_false_r. rewrite (rank_nan _ Nb).
    pose proof (rank_nonnan _ Na) as R.
    pose proof (f64_lt_spec a b) as S. unfold nonnan in S.
    destruct (f64_lt a b).
    + destruct S as [S _]. destruct (S eq_refl) as (_ & S1 & _). congruence.
    + symmetry. apply Z.ltb_ge. unfold rank_inf in *. lia.
  - rewrite orb_false_r.
    destruct (f64_lt a b) eqn:L.
    + apply f64_lt_spec in L. symmetry. apply Z.ltb_lt. lia.
    + apply f64_lt_false in L; try assumption. symmetry. apply Z.ltb_ge. lia.
Qed.

End FloatOrder.

(* ------------------------------------------------------------------ *)
(** * Slices and loops *)

Lemma index_Some {A : Type} (s : list A) (i : nat) (a : A) :
  nth_error s i = Some a -> index s i = Return a.
Proof. unfold index. now intros ->. Qed.

Lemma index_lt {A : Type} (s : list A) (i : nat) :
  (i < length s)%nat -> exists a, nth_error s i = Some a /\ index s i = Return a.
Proof.
  intros Hi. destruct (nth_error s i) as [a | ] eqn:E.
  - exists a. split; [reflexivity | now apply index_Some].
  - apply nth_error_None in E. lia.
Qed.

Lemma length_set_nth {A : Type} (s : list A) (i : nat) (a : A) :
  length (set_nth s i a) = length s.
Proof.
  revert i. induction s as [ | b s IH]; intros [ | i]; cbn; auto.
Qed.

Lemma set_nth_app {A : Type} (s1 s2 : list A) (k : nat) (a : A) :
  set_nth (s1 ++ s2) (length s1 + k) a = s1 ++ set_nth s2 k a.
Proof. induction s1 as [ | b s1 IH]; cbn; [reflexivity | now rewrite IH]. Qed.

Lemma assign_lt {A : Type} (s : list A) (i : nat) (a : A) :
  (i < length s)%nat -> assign s i a = Return (set_nth s i a).
Proof. unfold assign. intros Hi. apply Nat.ltb_lt in Hi. now rewrite Hi. Qed.

Lemma slice_swap_Some {A : Type} (s : list A) (i j : nat) (a b : A) :
  nth_error s i = Some a -> nth_error s j = Some b ->
  slice_swap s i j = Return (set_nth (set_nth s i b) j a).
Proof.
  intros Hi Hj. unfold slice_swap.
  rewrite (index_Some _ _ _ Hi), (index_Some _ _ _ Hj). cbn [bind].
  assert (Li : (i < length s)%nat) by (apply nth_error_Some; congruence).
  assert (Lj : (j < length s)%nat) by (apply nth_error_Some; congruence).
  rewrite assign_lt by assumption. cbn [bind].
  apply assign_lt. now rewrite length_set_nth.
Qed.

Lemma set_nth_combine {A B : Type} (s : list A) (t : list B) (i : nat) a b :
  combine (set_nth s i a) (set_nth t i b) = set_nth (combine s t) i (a, b).
Proof.
  revert t i. induction s as [ | x s IH]; intros [ | y t] [ | i]; cbn;
    try reflexivity. now rewrite IH.
Qed.

Lemma nth_error_combine {A B : Type} (s : list A) (t : list B) (i : nat) a b :
  nth_error (combine s t) i = Some (a, b) <->
  nth_error s i = Some a /\ nth_error t i = Some b.
Proof.
  revert t i. induction s as [ | x s IH]; intros [ | y t] [ | i]; cbn;
    try (split; [discriminate | intros [? ?]; discriminate]).
  - split; [intros [= -> ->]; auto | intros [[= ->] [= ->]]; auto].
  - apply IH.
Qed.

(* ------------------------------------------------------------------ *)
(** * The insertion sort *)

Section InsertionSort.

Context {T E : Type} `{Interface T}.
Variable elems : T -> list E.
Variable lt : E -> E -> bool.
Variable Inv : T -> Prop.

Hypothesis Len_elems : forall d, Inv d -> Len d = length (elems d).
Hypothesis Less_elems : forall d i j a b,
  Inv d -> nth_error (elems d) i = Some a -> nth_error (elems d) j = Some b ->
  Less d i j = Return (lt a b).
Hypothesis Swap_elems : forall d i j a b,
  Inv d -> nth_error (elems d) i = Some a -> nth_error (elems d) j = Some b ->
  exists d', Swap d i j = Return d' /\ Inv d' /\
             elems d' = set_nth (set_nth (elems d) i b) j a.

Lemma sift_down_elems (r : list E) :
  forall (d : T) (x : E) (post : list E),
  Inv d -> elems d = rev r ++ x :: post ->
  exists d', sift_down d (length r) = Return d' /\ Inv d' /\
             elems d' = rev (insert_rev lt x r) ++ post.
Proof.
  induction r as [ | y r IH]; intros d x post Hinv Hd.
  - exists d. cbn in *. auto.
  - cbn [length sift_down insert_rev].
    cbn [rev] in Hd. rewrite <- app_assoc in Hd. cbn [app] in Hd.
    assert (Hy : nth_error (elems d) (length r) = Some y).
    { rewrite Hd, nth_error_app2; rewrite length_rev; [ | lia].
      now rewrite Nat.sub_diag. }
    assert (Hx : nth_error (elems d) (S (length r)) = Some x).
    { rewrite Hd, nth_error_app2; rewrite length_rev; [ | lia].
      replace (S (length r) - length r)%nat with 1%nat by lia. reflexivity. }
    rewrite (Less_elems _ _ _ _ _ Hinv Hx Hy). cbn [bind].
    destruct (lt x y).
    + destruct (Swap_elems _ _ _ _ _ Hinv Hx Hy) as (d1 & Hs & Hinv1 & Hd1).
      rewrite Hs. cbn [bind].
      assert (Hd1' : elems d1 = rev r ++ x :: y :: post).
      { rewrite Hd1, Hd.
        replace (S (length r)) with (length (rev r) + 1)%nat
          by (rewrite length_rev; lia).
        rewrite set_nth_app. cbn [set_nth].
        replace (length r) with (length (rev r) + 0)%nat
          by (rewrite length_rev; lia).
        now rewrite set_nth_app. }
      destruct (IH d1 x (y :: post) Hinv1 Hd1') as (d' & Hr & Hinv' & Hd').
      exists d'. repeat split; try assumption.
      rewrite Hd'. cbn [rev]. rewrite <- app_assoc. reflexivity.
    + exists d. repeat split; try assumption.
      rewrite Hd. cbn [rev]. rewrite <- !app_assoc. reflexivity.
Qed.

Lemma insertion_loop_elems (rest : list E) :
  forall (acc : list E) (d : T),
  Inv d -> elems d = rev acc ++ rest ->
  exists d', for_loop (length acc) (length rest) (fun i d => sift_down d i) d
               = Return d' /\ Inv d' /\
             elems d' = rev (isort_rev lt rest acc).
Proof.
  induction rest as [ | x rest IH]; intros acc d Hinv Hd.
  - exists d. cbn. rewrite app_nil_r in Hd. auto.
  - cbn [length for_loop isort_rev fold_left].
    destruct (sift_down_elems acc d x rest Hinv Hd) as (d1 & Hs & Hinv1 & Hd1).
    rewrite Hs. cbn [bind].
    assert (Hl : S (length acc) = length (insert_rev lt x acc)).
    { clear. induction acc as [ | y acc IHa]; cbn; [reflexivity | ].
      destruct (lt x y); cbn; congruence. }
    rewrite Hl. apply IH; assumption.
Qed.

(** On data that satisfies the invariant, [sort.Sort] returns without a
    panic and leaves the elements in the order [isort] computes. *)
Lemma sort_Sort_elems (d : T) :
  Inv d ->
  exists d', sort_Sort d = Return d' /\ Inv d' /\
             elems d' = isort lt (elems d).
Proof.
  intros Hinv. unfold sort_Sort, insertionSort, isort.
  rewrite (Len_elems _ Hinv).
  destruct (elems d) as [ | x rest] eqn:Hd.
  - exists d. cbn. rewrite Hd. auto.
  - cbn [length]. rewrite Nat.sub_succ, Nat.sub_0_r.
    apply (insertion_loop_elems rest [x] d Hinv). exact Hd.
Qed.

End InsertionSort.

(** ** The two instances *)

Lemma sort_Float64s_isort (x : list float) :
  sort_Float64s x = Return (isort Float64s_lt x).
Proof.
  unfold sort_Float64s.
  destruct (@sort_Sort_elems Float64Slice float _ (fun d => d) Float64s_lt
              (fun _ => True)) with (d := x) as (d' & Hs & _ & Hd).
  - reflexivity.
  - intros d i j a b _ Hi Hj. cbn. unfold Float64Slice_Less.
    now rewrite (index_Some _ _ _ Hi), (index_Some _ _ _ Hj).
  - intros d i j a b _ Hi Hj. exists (set_nth (set_nth d i b) j a).
    repeat split. cbn. now apply slice_swap_Some.
  - exact I.
  - rewrite Hs. now f_equal.
Qed.

Lemma sort_Sort_Predictions (d : Predictions) :
  aligned d ->
  exists d', sort_Sort d = Return d' /\ aligned d' /\
             pairs d' = isort pair_lt (pairs d).
Proof.
  apply (@sort_Sort_elems Predictions (float * Z) _ pairs pair_lt aligned).
  - intros d0 H0. cbn. unfold Predictions_Len, pairs, aligned in *.
    rewrite length_combine. lia.
  - intros d0 i j [va la] [vb lb] _ Hi Hj. cbn. unfold Predictions_Less.
    apply nth_error_combine in Hi, Hj. destruct Hi as [Hi _], Hj as [Hj _].
    now rewrite (index_Some _ _ _ Hi), (index_Some _ _ _ Hj).
  - intros d0 i j [va la] [vb lb] H0 Hi Hj.
    apply nth_error_combine in Hi, Hj.
    destruct Hi as [Hvi Hli], Hj as [Hvj Hlj].
    exists {| Values := set_nth (set_nth (Values d0) i vb) j va;
              Labels := set_nth (set_nth (Labels d0) i lb) j la |}.
    split; [ | split].
    + cbn. unfold Predictions_Swap.
      rewrite (slice_swap_Some _ _ _ _ _ Hvi Hvj). cbn [bind].
      rewrite (slice_swap_Some _ _ _ _ _ Hli Hlj). reflexivity.
    + unfold aligned in *. cbn. now rewrite !length_set_nth.
    + unfold pairs. cbn. now rewrite !set_nth_combine.
Qed.

(** ** What the insertion sort achieves *)

Section IsortProps.

Context {E : Type}.
Variable lt : E -> E -> bool.

Lemma insert_rev_perm (x : E) (r : list E) :
  Permutation (insert_rev lt x r) (x :: r).
Proof.
  induction r as [ | y r IH]; cbn; [reflexivity | ].
  destruct (lt x y); [ | reflexivity].
  rewrite IH. apply perm_swap.
Qed.

Lemma isort_rev_perm (l acc : list E) :
  Permutation (isort_rev lt l acc) (l ++ acc).
Proof.
  revert acc. induction l as [ | x l IH]; intros acc; cbn; [reflexivity | ].
  unfold isort_rev in IH. rewrite IH, insert_rev_perm.
  symmetry. apply Permutation_middle.
Qed.

Lemma isort_perm (l : list E) : Permutation (isort lt l) l.
Proof.
  unfold isort. rewrite <- Permutation_rev, isort_rev_perm.
  now rewrite app_nil_r.
Qed.

Variable key : E -> Z.
Variable good : E -> Prop.
Hypothesis lt_key : forall a b, good a -> good b -> lt a b = (key a <? key b)%Z.

Lemma insert_rev_descending (x : E) (r : list E) :
  good x -> Forall good r -> descending key r ->
  descending key (insert_rev lt x r).
Proof.
  unfold descending. intros Gx.
  induction r as [ | y r IH]; intros Gr Sr; cbn.
  - constructor; constructor.
  - inversion Gr as [ | ? ? Gy Gr']; subst.
    inversion Sr as [ | ? ? Sr' Fy]; subst.
    rewrite (lt_key _ _ Gx Gy).
    destruct (Z.ltb_spec (key x) (key y)) as [L | L].
    + constructor; [now apply IH | ].
      rewrite (insert_rev_perm x r). constructor; [lia | exact Fy].
    + constructor; [exact Sr | ].
      constructor; [exact L | ].
      eapply Forall_impl; [ | exact Fy]. cbn. intros; lia.
Qed.

Lemma isort_rev_descending (l acc : list E) :
  Forall good l -> Forall good acc -> descending key acc ->
  descending key (isort_rev lt l acc).
Proof.
  revert acc. induction l as [ | x l IH]; intros acc Gl Ga Sa; cbn;
    [exact Sa | ].
  inversion Gl; subst. apply IH; try assumption.
  - rewrite (insert_rev_perm x acc). now constructor.
  - now apply insert_rev_descending.
Qed.

Lemma StronglySorted_snoc (R : E -> E -> Prop) (l : list E) (x : E) :
  StronglySorted R l -> Forall (fun a => R a x) l ->
  StronglySorted R (l ++ [x]).
Proof.
  induction l as [ | y l IH]; intros Sl Fl; cbn.
  - constructor; constructor.
  - inversion Sl; subst. inversion Fl; subst.
    constructor; [now apply IH | ].
    apply Forall_app. split; [assumption | now constructor].
Qed.

Lemma descending_rev (l : list E) : descending key l -> ascending key (rev l).
Proof.
  unfold descending, ascending.
  induction 1 as [ | x l Sl IH Fx]; cbn; [constructor | ].
  apply StronglySorted_snoc; [exact IH | ].
  apply Forall_rev. exact Fx.
Qed.

Lemma isort_ascending (l : list E) :
  Forall good l -> ascending key (isort lt l).
Proof.
  intros Gl. apply descending_rev, isort_rev_descending; try assumption;
    constructor.
Qed.

(** Elements already in strictly ascending order stay where they are. *)
Lemma isort_rev_strictly_ascending (l acc : list E) :
  Forall good l -> Forall good acc ->
  strictly_ascending key l ->
  Forall (fun x => Forall (fun a => (key a < key x)%Z) acc) l ->
  isort_rev lt l acc = rev l ++ acc.
Proof.
  unfold strictly_ascending.
  revert acc. induction l as [ | x l IH]; intros acc Gl Ga Sl Fl; cbn;
    [reflexivity | ].
  inversion Gl as [ | ? ? Gx Gl']; subst.
  inversion Sl as [ | ? ? Sl' Fx]; subst.
  inversion Fl as [ | ? ? Fa Fl']; subst.
  assert (Hi : insert_rev lt x acc = x :: acc).
  { destruct acc as [ | y acc]; cbn; [reflexivity | ].
    inversion Ga; subst. inversion Fa; subst.
    rewrite (lt_key _ _ Gx) by assumption.
    destruct (Z.ltb_spec (key x) (key y)); [lia | reflexivity]. }
  rewrite Hi. unfold isort_rev in IH. rewrite IH; try assumption.
  - now rewrite <- app_assoc.
  - now constructor.
  - rewrite Forall_forall in *. intros z Hz. constructor.
    + now apply Fx.
    + now apply Fl'.
Qed.

Lemma isort_strictly_ascending (l : list E) :
  Forall good l -> strictly_ascending key l -> isort lt l = l.
Proof.
  intros Gl Sl. unfold isort.
  rewrite isort_rev_strictly_ascending; try assumption.
  - now rewrite app_nil_r, rev_involutive.
  - constructor.
  - apply Forall_forall. intros; constructor.
Qed.

End IsortProps.

(* ------------------------------------------------------------------ *)
(** * EvalPerformance as a function of the pairs *)

Lemma skipn_nth_error {A : Type} (l : list A) (i : nat) (a : A) :
  nth_error l i = Some a -> skipn i l = a :: skipn (S i) l.
Proof.
  revert i. induction l as [ | b l IH]; intros [ | i] Hi; cbn in *;
    try discriminate.
  - now injection Hi as ->.
  - now apply IH.
Qed.

Lemma count_labels_pairs (count : nat) :
  forall (vs : list float) (ls : list Z) (i : nat) (c : counters),
  length vs = length ls -> (i + count = length vs)%nat ->
  count_labels vs ls i count c
  = Return (count_pairs (skipn i (combine vs ls)) c).
Proof.
  induction count as [ | count IH]; intros vs ls i c Hal Hi.
  - cbn. rewrite skipn_all2; [reflexivity | ].
    rewrite length_combine. lia.
  - destruct (index_lt vs i) as (v & Hv & Iv); [lia | ].
    destruct (index_lt ls i) as (l & Hl & Il); [lia | ].
    assert (Hp : nth_error (combine vs ls) i = Some (v, l))
      by now apply nth_error_combine.
    rewrite (skipn_nth_error _ _ _ Hp).
    cbn [count_labels count_pairs]. rewrite Il, Iv. cbn [bind].
    destruct (l =? 1)%Z; [apply IH; lia | ].
    destruct (l =? 0)%Z; [apply IH; lia | reflexivity].
Qed.

Lemma EvalPerformance_pairs (values : list float) (labels : list Z) :
  length values = length labels ->
  exists d, EvalPerformance values labels = Return (d, eval_pairs (pairs d))
            /\ aligned d
            /\ pairs d = isort pair_lt (combine values labels).
Proof.
  intros Hal. unfold EvalPerformance.
  destruct (sort_Sort_Predictions {| Values := values; Labels := labels |} Hal)
    as (d & Hs & Hd & Hp).
  exists d. rewrite Hs. cbn [bind]. repeat split; try assumption.
  rewrite (count_labels_pairs _ _ _ _ _ Hd) by lia.
  cbn [skipn bind]. unfold eval_pairs, pairs.
  destruct (count_pairs _ _) as [err | c]; [reflexivity | ].
  now rewrite sort_Float64s_isort.
Qed.

(* ------------------------------------------------------------------ *)
(** * map[float64]int *)

Lemma f64_eq_sym (a b : float) : f64_eq a b = f64_eq b a.
Proof.
  pose proof (f64_eq_spec a b) as S1. pose proof (f64_eq_spec b a) as S2.
  destruct (f64_eq a b), (f64_eq b a); try reflexivity.
  - destruct S1 as [S1 _]. destruct (S1 eq_refl) as (? & ? & ?).
    destruct S2 as [_ S2]. symmetry. apply S2. auto.
  - destruct S2 as [S2 _]. destruct (S2 eq_refl) as (? & ? & ?).
    destruct S1 as [_ S1]. apply S1. auto.
Qed.

Lemma f64_eq_trans (a b c : float) :
  f64_eq a b = true -> f64_eq b c = true -> f64_eq a c = true.
Proof.
  rewrite !f64_eq_spec. intros (? & ? & ?) (? & ? & ?).
  repeat split; try assumption. congruence.
Qed.

Lemma map_get_set (m : gomap) (v k : float) (n : Z) :
  map_get (map_set m v n) k = if f64_eq v k then n else map_get m k.
Proof.
  induction m as [ | [k' v'] m IH]; cbn; [reflexivity | ].
  destruct (f64_eq k' v) eqn:E1; cbn.
  - destruct (f64_eq v k) eqn:E2; [reflexivity | ].
    destruct (f64_eq k' k) eqn:E3; [ | reflexivity].
    rewrite f64_eq_sym in E1.
    rewrite (f64_eq_trans _ _ _ E1 E3) in E2. discriminate.
  - rewrite IH.
    destruct (f64_eq k' k) eqn:E3; [ | reflexivity].
    destruct (f64_eq v k) eqn:E2; [ | reflexivity].
    rewrite f64_eq_sym in E2.
    rewrite (f64_eq_trans _ _ _ E3 E2) in E1. discriminate.
Qed.

Lemma map_keys_set (m1 m2 : gomap) (v : float) (a b : Z) :
  map_keys m1 = map_keys m2 ->
  map_keys (map_set m1 v a) = map_keys (map_set m2 v b).
Proof.
  revert m2. induction m1 as [ | [k1 v1] m1 IH]; intros [ | [k2 v2] m2];
    cbn; try discriminate; [reflexivity | ].
  intros [= -> Hk]. destruct (f64_eq k2 v); cbn.
  - now f_equal.
  - f_equal. now apply IH.
Qed.

(** Where the key of an assignment lands among the keys. *)
Lemma map_set_keys (m : gomap) (v : float) (n : Z) :
  (exists ks1 k ks2, map_keys m = ks1 ++ k :: ks2 /\ f64_eq k v = true /\
                     map_keys (map_set m v n) = ks1 ++ v :: ks2)
  \/ (Forall (fun k => f64_eq k v = false) (map_keys m) /\
      map_keys (map_set m v n) = map_keys m ++ [v]).
Proof.
  induction m as [ | [k' v'] m IH]; cbn.
  - right. split; [constructor | reflexivity].
  - destruct (f64_eq k' v) eqn:E; cbn.
    + left. exists [], k', (map_keys m). auto.
    + destruct IH as [(ks1 & k & ks2 & H1 & H2 & H3) | (H1 & H2)].
      * left. exists (k' :: ks1), k, ks2. cbn.
        unfold map_keys in *. rewrite H1, H3. auto.
      * right. unfold map_keys in *. rewrite H2. split; [ | reflexivity].
        now constructor.
Qed.

Lemma map_set_In (m : gomap) (v : float) (n : Z) (k : float) :
  In k (map_keys (map_set m v n)) -> k = v \/ In k (map_keys m).
Proof.
  destruct (map_set_keys m v n) as [(ks1 & k0 & ks2 & H1 & H2 & H3) | (H1 & H2)].
  - rewrite H3, H1, !in_app_iff. cbn. intuition auto.
  - rewrite H2, in_app_iff. cbn. intuition auto.
Qed.

Lemma map_set_ranks (m : gomap) (v : float) (n : Z) :
  nonnan v -> Forall nonnan (map_keys m) ->
  (In (rank v) (ranks m) /\ ranks (map_set m v n) = ranks m)
  \/ (~ In (rank v) (ranks m) /\ ranks (map_set m v n) = ranks m ++ [rank v]).
Proof.
  intros Nv Nm. unfold ranks.
  destruct (map_set_keys m v n) as [(ks1 & k & ks2 & H1 & H2 & H3) | (H1 & H2)].
  - left. apply f64_eq_spec in H2. destruct H2 as (_ & _ & H2).
    rewrite H3, H1, !map_app. cbn. rewrite H2. split; [ | reflexivity].
    apply in_app_iff. right. now left.
  - right. rewrite H2, map_app. split; [ | reflexivity].
    rewrite in_map_iff. intros (k & Hk & Hin).
    rewrite Forall_forall in H1, Nm.
    specialize (H1 k Hin). apply f64_eq_false in H1; auto.
Qed.

(* ------------------------------------------------------------------ *)
(** * The counting loop *)

Lemma wrap64_id (z : Z) : is_int z -> wrap64 z = z.
Proof.
  unfold is_int, int_min, int_max, wrap64. intros Hz.
  rewrite Z.mod_small; lia.
Qed.

Lemma int_add_id (a b : Z) : is_int (a + b) -> int_add a b = (a + b)%Z.
Proof. apply wrap64_id. Qed.

Lemma int_sub_id (a b : Z) : is_int (a - b) -> int_sub a b = (a - b)%Z.
Proof. apply wrap64_id. Qed.

Lemma counters_init_ok : counters_ok 0 counters_init.
Proof. constructor; cbn; intros; try reflexivity; lia. Qed.

Lemma count_pairs_ok (l : list (float * Z)) :
  forall (c : counters) (k : Z),
  counters_ok k c ->
  Forall valid_label (map snd l) ->
  (k + Z.of_nat (length l) <= int_max)%Z ->
  exists c', count_pairs l c = inr c' /\
             counters_ok (k + Z.of_nat (length l)) c'.
Proof.
  induction l as [ | [v lab] l IH]; intros c k Hok Hl Hk.
  - exists c. cbn. rewrite Z.add_0_r. auto.
  - cbn [map snd] in Hl. inversion Hl as [ | ? ? Hlab Hl']; subst.
    cbn [length] in Hk. rewrite Nat2Z.inj_succ in Hk.
    destruct Hok as [Hp Hn Hs Hkeys Hgp Hgn].
    cbn [count_pairs length]. rewrite Nat2Z.inj_succ.
    replace (k + Z.succ (Z.of_nat (length l)))%Z
      with ((k + 1) + Z.of_nat (length l))%Z by lia.
    unfold int_max in Hk.
    destruct Hlab as [-> | ->]; cbn [Z.eqb].
    + rewrite int_add_id by (unfold is_int, int_min, int_max; lia).
      apply IH; [ | assumption | unfold int_max; lia].
      constructor; cbn; try lia.
      * now apply map_keys_set.
      * intros t. specialize (Hgp t). rewrite map_get_set.
        destruct (f64_eq v t); lia.
      * intros t. specialize (Hgn t). rewrite map_get_set.
        destruct (f64_eq v t); lia.
    + rewrite int_add_id by (unfold is_int, int_min, int_max; lia).
      apply IH; [ | assumption | unfold int_max; lia].
      constructor; cbn; try lia.
      * now apply map_keys_set.
      * intros t. specialize (Hgp t). rewrite map_get_set.
        destruct (f64_eq v t); lia.
      * intros t. specialize (Hgn t). rewrite map_get_set.
        destruct (f64_eq v t); lia.
Qed.

(** An invalid label stops the loop with the error, a valid list of labels
    never does; wrap-around plays no role here. *)
Lemma count_pairs_error (l : list (float * Z)) (c : counters) :
  (exists err, count_pairs l c = inl err) <->
  Exists (fun lab => ~ valid_label lab) (map snd l).
Proof.
  revert c. induction l as [ | [v lab] l IH]; intros c; cbn [count_pairs map snd].
  - split; [intros (err & H); discriminate | intros H; inversion H].
  - destruct (Z.eqb_spec lab 1) as [E1 | E1].
    { rewrite IH. split; [now right | ].
      intros H. inversion H as [? ? H1 | ]; subst; [ | assumption].
      exfalso. apply H1. now right. }
    destruct (Z.eqb_spec lab 0) as [E0 | E0].
    { rewrite IH. split; [now right | ].
      intros H. inversion H as [? ? H1 | ]; subst; [ | assumption].
      exfalso. apply H1. now left. }
    split; [ | intros _; eauto].
    intros _. left. unfold valid_label. lia.
Qed.

(** ** On pairs in ascending score order *)

Lemma get_monotone_set (m : gomap) (v : float) (n : Z) :
  nonnan v ->
  Forall nonnan (map_keys m) ->
  Forall (fun k => rank k <= rank v)%Z (map_keys m) ->
  (forall t, map_get m t <= n)%Z ->
  get_monotone m ->
  get_monotone (map_set m v n).
Proof.
  intros Nv Nm Bm Hn Hm k1 k2 Hin Hr.
  rewrite !map_get_set.
  destruct (f64_eq v k2) eqn:E2.
  - destruct (f64_eq v k1); [lia | apply Hn].
  - apply map_set_In in Hin. destruct Hin as [-> | Hin].
    + unfold nonnan, isNaN in Nv. rewrite E2 in Nv. discriminate.
    + rewrite Forall_forall in Nm, Bm.
      pose proof (Nm _ Hin) as N2. pose proof (Bm _ Hin) as B2.
      apply f64_eq_false in E2; try assumption.
      destruct (f64_eq v k1) eqn:E1.
      * apply f64_eq_spec in E1. destruct E1 as (_ & _ & E1). lia.
      * now apply Hm.
Qed.

Lemma count_pairs_monotone (l : list (float * Z)) :
  forall (c c' : counters) (k : Z),
  counters_ok k c ->
  Forall valid_label (map snd l) ->
  (k + Z.of_nat (length l) <= int_max)%Z ->
  Forall nonnan (map fst l) ->
  ascending (fun p => rank (fst p)) l ->
  Forall nonnan (map_keys (n_pos_map c)) ->
  Forall (fun k => Forall (fun p => rank k <= rank (fst p))%Z l)
         (map_keys (n_pos_map c)) ->
  get_monotone (n_pos_map c) -> get_monotone (n_neg_map c) ->
  count_pairs l c = inr c' ->
  get_monotone (n_pos_map c') /\ get_monotone (n_neg_map c').
Proof.
  unfold ascending.
  induction l as [ | [v lab] l IH];
    intros c c' k Hok Hl Hk Nl Sl Nc Bc Mp Mn Hc.
  - cbn in Hc. injection Hc as <-. auto.
  - cbn [map snd fst] in Hl, Nl.
    inversion Hl as [ | ? ? Hlab Hl']; subst.
    inversion Nl as [ | ? ? Nv Nl']; subst.
    inversion Sl as [ | ? ? Sl' Fv]; subst. cbn [fst] in Fv.
    cbn [length] in Hk. rewrite Nat2Z.inj_succ in Hk.
    pose proof Hok as [Hp Hn Hs Hkeys Hgp Hgn].
    assert (Bv : Forall (fun k0 => rank k0 <= rank v)%Z
                   (map_keys (n_pos_map c))).
    { eapply Forall_impl; [ | exact Bc]. cbn. intros a Ha.
      now inversion Ha. }
    assert (Bl : forall m' n, map_keys m' = map_keys (n_pos_map c) ->
              Forall (fun k0 => Forall (fun p => rank k0 <= rank (fst p))%Z l)
                     (map_keys (map_set m' v n))).
    { intros m' n Hm'. apply Forall_forall. intros k0 Hk0.
      apply map_set_In in Hk0. destruct Hk0 as [-> | Hk0].
      - exact Fv.
      - rewrite Hm' in Hk0. rewrite Forall_forall in Bc.
        specialize (Bc _ Hk0). now inversion Bc. }
    assert (Nl2 : forall m' n, map_keys m' = map_keys (n_pos_map c) ->
              Forall nonnan (map_keys (map_set m' v n))).
    { intros m' n Hm'. apply Forall_forall. intros k0 Hk0.
      apply map_set_In in Hk0. destruct Hk0 as [-> | Hk0]; [assumption | ].
      rewrite Hm' in Hk0. rewrite Forall_forall in Nc. now apply Nc. }
    cbn [count_pairs] in Hc.
    unfold int_max in Hk.
    destruct Hlab as [-> | ->]; cbn [Z.eqb] in Hc;
      rewrite int_add_id in Hc by (unfold is_int, int_min, int_max; lia);
      (eapply (IH _ c' (k + 1)%Z); [ | exact Hl' | unfold int_max; lia
         | exact Nl' | exact Sl' | | | | | exact Hc ]); cbn.
    all: try (apply Nl2; reflexivity).
    all: try (apply Bl; reflexivity).
    all: try (apply get_monotone_set; try assumption;
              try (rewrite <- Hkeys; assumption);
              intros t; first [specialize (Hgp t) | idtac];
              first [specialize (Hgn t) | idtac]; lia).
    all: constructor; cbn; try lia; try (now apply map_keys_set);
      intros t; specialize (Hgp t); specialize (Hgn t);
      rewrite map_get_set; destruct (f64_eq v t); lia.
Qed.

(** ** The keys the loop records *)

Lemma count_pairs_keys (l : list (float * Z)) :
  forall (c c' : counters),
  count_pairs l c = inr c' ->
  Forall nonnan (map fst l) ->
  Forall nonnan (map_keys (n_pos_map c)) ->
  NoDup (ranks (n_pos_map c)) ->
  Forall nonnan (map_keys (n_pos_map c')) /\
  NoDup (ranks (n_pos_map c')) /\
  forall z, In z (ranks (n_pos_map c')) <->
            In z (ranks (n_pos_map c)) \/ In z (map rank (map fst l)).
Proof.
  induction l as [ | [v lab] l IH]; intros c c' Hc Nl Nc Dc.
  - cbn in Hc. injection Hc as <-. cbn. intuition auto.
  - cbn [map fst] in Nl. inversion Nl as [ | ? ? Nv Nl']; subst.
    assert (Step : forall n,
      Forall nonnan (map_keys (map_set (n_pos_map c) v n)) /\
      NoDup (ranks (map_set (n_pos_map c) v n)) /\
      forall z, In z (ranks (map_set (n_pos_map c) v n)) <->
                In z (ranks (n_pos_map c)) \/ z = rank v).
    { intros n. split; [ | split].
      - apply Forall_forall. intros k0 Hk0.
        apply map_set_In in Hk0. destruct Hk0 as [-> | Hk0]; [assumption | ].
        rewrite Forall_forall in Nc. now apply Nc.
      - destruct (map_set_ranks (n_pos_map c) v n Nv Nc) as [[_ ->] | [Hn ->]];
          [assumption | ].
        apply NoDup_app; [assumption | repeat constructor; cbn; tauto | ].
        intros z Hz [<- | []]. contradiction.
      - intros z.
        destruct (map_set_ranks (n_pos_map c) v n Nv Nc) as [[Hi ->] | [_ ->]].
        + split; [tauto | intros [? | ->]; assumption].
        + rewrite in_app_iff. cbn. intuition auto. }
    cbn [count_pairs] in Hc.
    destruct (lab =? 1)%Z.
    + destruct (Step (int_add (n_pos c) 1)) as (S1 & S2 & S3).
      destruct (IH _ _ Hc Nl' S1 S2) as (R1 & R2 & R3).
      repeat split; try assumption.
      * intros Hz. apply R3 in Hz. cbn in Hz |- *. rewrite S3 in Hz.
        intuition auto.
      * intros Hz. apply R3. cbn in Hz |- *. rewrite S3. intuition auto.
    + destruct (lab =? 0)%Z; [ | discriminate].
      destruct (Step (n_pos c)) as (S1 & S2 & S3).
      destruct (IH _ _ Hc Nl' S1 S2) as (R1 & R2 & R3).
      repeat split; try assumption.
      * intros Hz. apply R3 in Hz. cbn in Hz |- *. rewrite S3 in Hz.
        intuition auto.
      * intros Hz. apply R3. cbn in Hz |- *. rewrite S3. intuition auto.
Qed.

(** ** Sorted lists *)

Lemma StronglySorted_nth_error {A : Type} (R : A -> A -> Prop) (l : list A) :
  StronglySorted R l ->
  forall i j a b, (i < j)%nat ->
  nth_error l i = Some a -> nth_error l j = Some b -> R a b.
Proof.
  induction 1 as [ | x l Sl IH Fx]; intros i j a b Hij Hi Hj.
  - destruct i; discriminate.
  - destruct j as [ | j]; [lia | ]. cbn in Hj.
    destruct i as [ | i]; cbn in Hi.
    + injection Hi as <-. rewrite Forall_forall in Fx.
      apply Fx. eapply nth_error_In; eassumption.
    + eapply IH; [ | eassumption | eassumption]. lia.
Qed.

Lemma ascending_NoDup_strict {E : Type} (key : E -> Z) (l : list E) :
  ascending key l -> NoDup (map key l) -> strictly_ascending key l.
Proof.
  unfold ascending, strictly_ascending.
  induction 1 as [ | x l Sl IH Fx]; intros Hd; [constructor | ].
  cbn in Hd. inversion Hd as [ | ? ? Hx Hd']; subst.
  constructor; [now apply IH | ].
  rewrite Forall_forall in *. intros y Hy.
  specialize (Fx y Hy).
  assert (key y <> key x)%Z; [ | lia].
  intros Heq. apply Hx. rewrite <- Heq. now apply in_map.
Qed.

Lemma Float64s_ascending (x : list float) :
  ascending rank (isort Float64s_lt x).
Proof.
  apply (isort_ascending Float64s_lt rank (fun _ => True)).
  - intros a b _ _. apply Float64s_less_rank.
  - apply Forall_forall. intros; exact I.
Qed.

Lemma pairs_ascending (l : list (float * Z)) :
  Forall nonnan (map fst l) ->
  ascending (fun p => rank (fst p)) (isort pair_lt l).
Proof.
  intros Nl.
  apply (isort_ascending pair_lt (fun p => rank (fst p))
           (fun p => nonnan (fst p))).
  - intros a b Na Nb. unfold pair_lt.
    destruct (Z.ltb_spec (rank (fst a)) (rank (fst b))) as [L | L].
    + apply f64_lt_spec. auto.
    + now apply f64_lt_false.
  - rewrite Forall_map in Nl. exact Nl.
Qed.

Lemma map_fst_combine {A B : Type} (s : list A) (t : list B) :
  length s = length t -> map fst (combine s t) = s.
Proof.
  revert t. induction s as [ | a s IH]; intros [ | b t] H; cbn in *;
    try discriminate; [reflexivity | ]. f_equal. apply IH. lia.
Qed.

Lemma map_snd_combine {A B : Type} (s : list A) (t : list B) :
  length s = length t -> map snd (combine s t) = t.
Proof.
  revert t. induction s as [ | a s IH]; intros [ | b t] H; cbn in *;
    try discriminate; [reflexivity | ]. f_equal. apply IH. lia.
Qed.

(* ------------------------------------------------------------------ *)
(** * The sweep of a valid dataset *)

Lemma EvalPerformance_valid (values : list float) (labels : list Z) :
  valid_dataset values labels ->
  slice_length_ok values ->
  exists d c,
    EvalPerformance values labels
    = Return (d, (sweep (isort Float64s_lt (map_keys (n_pos_map c))) c, None))
    /\ aligned d
    /\ pairs d = isort pair_lt (combine values labels)
    /\ count_pairs (pairs d) counters_init = inr c
    /\ counters_ok (Z.of_nat (length values)) c.
Proof.
  intros (Hal & Hne & Hl) Hlen.
  destruct (EvalPerformance_pairs values labels Hal) as (d & He & Hd & Hp).
  assert (Hperm : Permutation (pairs d) (combine values labels))
    by (rewrite Hp; apply isort_perm).
  assert (Hlen' : length (pairs d) = length values).
  { rewrite (Permutation_length Hperm), length_combine. lia. }
  destruct (count_pairs_ok (pairs d) counters_init 0 counters_init_ok)
    as (c & Hc & Hok).
  - eapply Permutation_Forall; [ | exact Hl].
    rewrite <- (map_snd_combine values labels Hal).
    symmetry. now apply Permutation_map.
  - rewrite Hlen'. exact Hlen.
  - exists d, c. rewrite He. unfold eval_pairs. rewrite Hc.
    rewrite Hlen' in Hok. auto.
Qed.

Lemma sweep_identities_ok (tr : list float) (c : counters) (k : Z) :
  counters_ok k c -> (k <= int_max)%Z -> sweep_identities (sweep tr c).
Proof.
  intros [Hp Hn Hs Hkeys Hgp Hgn] Hk i Hi. unfold int_max in Hk.
  unfold Performance_Len in Hi. cbn in Hi |- *.
  destruct (nth_error tr i) as [t | ] eqn:Ht;
    [ | apply nth_error_None in Ht; lia].
  exists (int_sub (n_pos c) (map_get (n_pos_map c) t)),
         (int_sub (n_neg c) (map_get (n_neg_map c) t)),
         (map_get (n_neg_map c) t), (map_get (n_pos_map c) t).
  rewrite !nth_error_map, Ht. cbn.
  specialize (Hgp t). specialize (Hgn t).
  rewrite !int_sub_id by (unfold is_int, int_min, int_max; lia).
  repeat split; lia.
Qed.

Lemma sweep_monotone_ok (tr : list float) (c : counters) (k : Z) :
  counters_ok k c -> (k <= int_max)%Z ->
  ascending rank tr ->
  Forall (fun t => In t (map_keys (n_pos_map c))) tr ->
  get_monotone (n_pos_map c) -> get_monotone (n_neg_map c) ->
  sweep_monotone (sweep tr c).
Proof.
  intros [Hp Hn Hs Hkeys Hgp Hgn] Hk Str Hin Mp Mn. unfold int_max in Hk.
  assert (Hle : forall i j a b, (i <= j)%nat ->
            nth_error tr i = Some a -> nth_error tr j = Some b ->
            In b (map_keys (n_pos_map c)) /\ (rank a <= rank b)%Z).
  { intros i j a b Hij Ha Hb. split.
    - rewrite Forall_forall in Hin. apply Hin.
      eapply nth_error_In; eassumption.
    - destruct (Nat.eq_dec i j) as [-> | Hne].
      + rewrite Ha in Hb. injection Hb as ->. lia.
      + eapply (StronglySorted_nth_error _ _ Str i j); try eassumption. lia. }
  unfold sweep_monotone, non_increasing, non_decreasing. cbn.
  repeat split; intros i j a b Hij Ha Hb;
    rewrite nth_error_map in Ha, Hb;
    destruct (nth_error tr i) as [ti | ] eqn:Hti; try discriminate;
    destruct (nth_error tr j) as [tj | ] eqn:Htj; try discriminate;
    cbn in Ha, Hb; injection Ha as <-; injection Hb as <-;
    destruct (Hle i j ti tj Hij Hti Htj) as (Hk2 & Hr);
    pose proof (Mp ti tj Hk2 Hr);
    pose proof (Mn ti tj ltac:(rewrite <- Hkeys; exact Hk2) Hr);
    pose proof (Hgp ti); pose proof (Hgp tj);
    pose proof (Hgn ti); pose proof (Hgn tj);
    rewrite ?int_sub_id by (unfold is_int, int_min, int_max; lia); lia.
Qed.

Ltac valid_dataset_now :=
  unfold valid_dataset, valid_label; cbn;
  repeat split; try lia;
  repeat (apply Forall_cons; [lia | ]); apply Forall_nil.

(** C1, counterexample: with a NaN score the library's sort leaves the
    scores 2, NaN, 1 in place, the counts recorded for 1 exceed those
    recorded for 2, and [Fp] comes out as 2, 0, 2. *)
Lemma EvalPerformance_monotone_counterexample :
  valid_dataset [2; nan; 1]%float [1; 0; 0]%Z /\
  exists d perf,
    EvalPerformance [2; nan; 1]%float [1; 0; 0]%Z = Return (d, (perf, None)) /\
    Fp perf = [2; 0; 2]%Z /\
    ~ sweep_monotone perf.
Proof.
  split.
  - valid_dataset_now.
  - eexists. eexists. split; [vm_compute; reflexivity | ].
    split; [reflexivity | ].
    intros (_ & Hfp & _). cbn in Hfp.
    specialize (Hfp 1%nat 2%nat 0%Z 2%Z). cbn in Hfp.
    assert (2 <= 0)%Z by (apply Hfp; auto). lia.
Qed.

(* ------------------------------------------------------------------ *)
(** * Validation *)

(** C3, counterexample: the empty dataset is accepted; the function
    returns the empty sweep and no error. *)
Lemma EvalPerformance_empty_counterexample :
  EvalPerformance [] []
  = Return ({| Values := []; Labels := [] |}, (Performance_zero, None)).
Proof. reflexivity. Qed.

(* ------------------------------------------------------------------ *)
(** * Thresholds *)

Lemma existsb_f64_eq_rank (x : float) (r : list float) :
  nonnan x -> Forall nonnan r ->
  existsb (f64_eq x) r = true <-> In (rank x) (map rank r).
Proof.
  intros Nx Nr. rewrite existsb_exists, in_map_iff.
  rewrite Forall_forall in Nr.
  split; intros (y & H1 & H2).
  - exists y. apply f64_eq_spec in H2. destruct H2 as (_ & _ & H2). auto.
  - exists y. split; [assumption | ]. apply f64_eq_spec. auto.
Qed.

Lemma distinct_ranks (l : list float) :
  Forall nonnan l ->
  NoDup (map rank (distinct l)) /\
  forall z, In z (map rank (distinct l)) <-> In z (map rank l).
Proof.
  induction 1 as [ | x l Nx Nl (IH1 & IH2)]; cbn.
  - split; [constructor | tauto].
  - destruct (existsb (f64_eq x) l) eqn:Ex.
    + apply existsb_f64_eq_rank in Ex; try assumption.
      split; [assumption | ]. intros z. rewrite IH2.
      split; [tauto | intros [<- | ?]; assumption].
    + cbn. split.
      * constructor; [ | assumption]. rewrite IH2.
        intros Hin. apply existsb_f64_eq_rank in Hin; try assumption.
        congruence.
      * intros z. rewrite IH2. tauto.
Qed.

Lemma distinct_length (l : list float) :
  (length (distinct l) <= length l)%nat.
Proof.
  induction l as [ | x l IH]; cbn; [lia | ].
  destruct (existsb (f64_eq x) l); cbn; lia.
Qed.

Lemma occurrences_count_occ (v : float) (s : list float) :
  nonnan v -> Forall nonnan s ->
  occurrences v s = count_occ Z.eq_dec (map rank s) (rank v).
Proof.
  intros Nv. unfold occurrences.
  induction 1 as [ | t s Nt Ns IH]; cbn; [reflexivity | ].
  destruct (f64_eq t v) eqn:Et.
  - apply f64_eq_spec in Et. destruct Et as (_ & _ & Et).
    destruct (Z.eq_dec (rank t) (rank v)); [cbn; congruence | contradiction].
  - apply f64_eq_false in Et; try assumption.
    destruct (Z.eq_dec (rank t) (rank v)); [contradiction | assumption].
Qed.

(** C4 (amended): on a valid dataset without NaN scores the thresholds
    are strictly increasing, every score of the input is [==] to exactly one
    threshold and every threshold to some score, so their number is the
    number of distinct scores, at most the number of samples. *)
Theorem EvalPerformance_thresholds (values : list float) (labels : list Z) :
  valid_dataset values labels ->
  Forall nonnan values ->
  exists d perf,
    EvalPerformance values labels = Return (d, (perf, None)) /\
    strictly_increasing (Tr perf) /\
    (forall v, In v values -> occurrences v (Tr perf) = 1%nat) /\
    (forall t, In t (Tr perf) -> exists v, In v values /\ f64_eq t v = true) /\
    length (Tr perf) = length (distinct values) /\
    (length (Tr perf) <= length values)%nat.
Proof.
  intros (Hal & Hne & Hl) Nv.
  destruct (EvalPerformance_pairs values labels Hal) as (d & He & Hd & Hp).
  assert (Hperm : Permutation (pairs d) (combine values labels))
    by (rewrite Hp; apply isort_perm).
  assert (Hpv : Permutation (map fst (pairs d)) values).
  { rewrite <- (map_fst_combine values labels Hal). now apply Permutation_map. }
  assert (Hpl : Permutation (map snd (pairs d)) labels).
  { rewrite <- (map_snd_combine values labels Hal). now apply Permutation_map. }
  unfold eval_pairs in He.
  destruct (count_pairs (pairs d) counters_init) as [err | c] eqn:Hc.
  { exfalso.
    assert (Hex : Exists (fun lab => ~ valid_label lab) (map snd (pairs d)))
      by (apply (count_pairs_error (pairs d) counters_init); eauto).
    apply (Permutation_Exists Hpl) in Hex.
    apply Exists_exists in Hex. destruct Hex as (lab & Hin & Hbad).
    rewrite Forall_forall in Hl. auto. }
  destruct (count_pairs_keys (pairs d) counters_init c Hc) as (Nk & Dk & Ik).
  { eapply Permutation_Forall; [symmetry; exact Hpv | exact Nv]. }
  { constructor. }
  { constructor. }
  set (tr := isort Float64s_lt (map_keys (n_pos_map c))) in *.
  assert (Ptr : Permutation tr (map_keys (n_pos_map c))) by apply isort_perm.
  assert (Ntr : Forall nonnan tr)
    by (eapply Permutation_Forall; [symmetry; exact Ptr | exact Nk]).
  assert (Dtr : NoDup (map rank tr)).
  { eapply Permutation_NoDup; [ | exact Dk].
    symmetry. apply Permutation_map. exact Ptr. }
  assert (Itr : forall z, In z (map rank tr) <-> In z (map rank values)).
  { intros z. transitivity (In z (ranks (n_pos_map c))).
    - split; apply Permutation_in; [ | symmetry]; apply Permutation_map, Ptr.
    - rewrite Ik. cbn.
      split; [intros [[] | Hz] | intros Hz; right];
        revert Hz; apply Permutation_in; [ | symmetry];
        apply Permutation_map, Hpv. }
  assert (Str : strictly_ascending rank tr)
    by (apply ascending_NoDup_strict; [apply Float64s_ascending | exact Dtr]).
  destruct (distinct_ranks values Nv) as (Dd & Id).
  assert (Hlen : length tr = length (distinct values)).
  { rewrite <- (length_map rank tr), <- (length_map rank (distinct values)).
    apply Permutation_length, NoDup_Permutation; try assumption.
    intros z. now rewrite Itr, Id. }
  exists d, (sweep tr c). split; [exact He | ]. cbn [Tr sweep].
  repeat split.
  - intros i j a b Hij Ha Hb.
    rewrite Forall_forall in Ntr. apply f64_lt_spec.
    repeat split; try (apply Ntr; eapply nth_error_In; eassumption).
    eapply (StronglySorted_nth_error _ _ Str i j); eassumption.
  - intros v Hv. rewrite Forall_forall in Nv.
    rewrite occurrences_count_occ by auto.
    apply NoDup_count_occ'; [exact Dtr | ].
    apply Itr. now apply in_map.
  - intros t Ht.
    assert (Hz : In (rank t) (map rank values)) by (apply Itr; now apply in_map).
    apply in_map_iff in Hz. destruct Hz as (v & Hr & Hv).
    exists v. split; [assumption | ].
    rewrite Forall_forall in Nv, Ntr. apply f64_eq_spec. auto.
  - exact Hlen.
  - rewrite Hlen. apply distinct_length.
Qed.

(** C4, witness: five samples on three distinct scores. *)
Lemma EvalPerformance_thresholds_witness :
  exists d perf,
    EvalPerformance [0.5; 0.25; 0.5; 0.25; 0.75]%float [0; 0; 1; 1; 1]%Z
    = Return (d, (perf, None)) /\
    strictly_increasing (Tr perf) /\
    length (Tr perf) = 3%nat.
Proof.
  destruct (EvalPerformance_thresholds
              [0.5; 0.25; 0.5; 0.25; 0.75]%float [0; 0; 1; 1; 1]%Z)
    as (d & perf & He & Hs & _ & _ & Hlen & _).
  - valid_dataset_now.
  - repeat constructor.
  - exists d, perf. auto.
Defined.

(** C4, counterexample: two NaN scores make two map entries, and the
    thresholds NaN, NaN are not strictly increasing. *)
Lemma EvalPerformance_thresholds_counterexample :
  valid_dataset [nan; nan]%float [0; 1]%Z /\
  exists d perf,
    EvalPerformance [nan; nan]%float [0; 1]%Z = Return (d, (perf, None)) /\
    Tr perf = [nan; nan]%float /\
    ~ strictly_increasing (Tr perf).
Proof.
  split; [valid_dataset_now | ].
  eexists. eexists. split; [vm_compute; reflexivity | ].
  split; [reflexivity | ].
  intros Hs. specialize (Hs 0%nat 1%nat nan nan). cbn in Hs.
  assert (f64_lt nan nan = true) by (apply Hs; auto). discriminate.
Qed.

(* ------------------------------------------------------------------ *)
(** * The effect on the caller's slices *)

Lemma StronglySorted_map {A B : Type} (f : A -> B) (R : B -> B -> Prop)
    (l : list A) :
  StronglySorted R (map f l) <-> StronglySorted (fun a b => R (f a) (f b)) l.
Proof.
  induction l as [ | x l IH]; cbn.
  - split; constructor.
  - split; intros H; inversion H as [ | ? ? Sl Fx]; subst;
      (constructor; [now apply IH | ]).
    + rewrite Forall_map in Fx. exact Fx.
    + rewrite Forall_map. exact Fx.
Qed.

Lemma nth_error_StronglySorted {A : Type} (R : A -> A -> Prop) (l : list A) :
  (forall i j a b, (i < j)%nat ->
     nth_error l i = Some a -> nth_error l j = Some b -> R a b) ->
  StronglySorted R l.
Proof.
  induction l as [ | x l IH]; intros H; constructor.
  - apply IH. intros i j a b Hij Ha Hb.
    apply (H (S i) (S j)); [lia | exact Ha | exact Hb].
  - apply Forall_forall. intros y Hy.
    apply In_nth_error in Hy. destruct Hy as (n & Hn).
    apply (H 0%nat (S n)); [lia | reflexivity | exact Hn].
Qed.

Lemma strictly_increasing_nonnan (s : list float) :
  (2 <= length s)%nat -> strictly_increasing s -> Forall nonnan s.
Proof.
  intros Hlen Hs. apply Forall_forall. intros x Hx.
  apply In_nth_error in Hx. destruct Hx as (n & Hn).
  assert (Ln : (n < length s)%nat) by (apply nth_error_Some; congruence).
  destruct n as [ | n].
  - destruct (nth_error s 1) as [y | ] eqn:Hy;
      [ | apply nth_error_None in Hy; lia].
    assert (L : f64_lt x y = true) by (apply (Hs 0%nat 1%nat); auto).
    apply f64_lt_spec in L. tauto.
  - destruct (nth_error s 0) as [y | ] eqn:Hy;
      [ | apply nth_error_None in Hy; lia].
    assert (L : f64_lt y x = true) by (apply (Hs 0%nat (S n)); auto; lia).
    apply f64_lt_spec in L. tauto.
Qed.

Lemma isort_pairs_strictly_increasing (values : list float) (labels : list Z) :
  length values = length labels ->
  strictly_increasing values ->
  isort pair_lt (combine values labels) = combine values labels.
Proof.
  intros Hal Hs.
  destruct values as [ | x [ | y values]].
  - reflexivity.
  - destruct labels as [ | l [ | ? ?]]; try discriminate. reflexivity.
  - assert (Nv : Forall nonnan (x :: y :: values))
      by (apply strictly_increasing_nonnan; [cbn; lia | exact Hs]).
    remember (x :: y :: values) as vs eqn:Evs. clear Evs x y values.
    apply (isort_strictly_ascending pair_lt (fun p => rank (fst p))
             (fun p => nonnan (fst p))).
    + intros a b Na Nb. unfold pair_lt.
      destruct (Z.ltb_spec (rank (fst a)) (rank (fst b))) as [L | L].
      * apply f64_lt_spec. auto.
      * now apply f64_lt_false.
    + rewrite <- Forall_map, map_fst_combine; assumption.
    + unfold strictly_ascending.
      apply (StronglySorted_map fst (fun a b => (rank a < rank b)%Z)).
      rewrite map_fst_combine by assumption.
      apply nth_error_StronglySorted. intros i j a b Hij Ha Hb.
      apply (f64_lt_spec a b). eapply Hs; eassumption.
Qed.

Lemma combine_aligned_inj {A B : Type} (s s' : list A) (t t' : list B) :
  length s = length t -> length s' = length t' ->
  combine s t = combine s' t' -> s = s' /\ t = t'.
Proof.
  intros H H' E. split.
  - rewrite <- (map_fst_combine s t H), <- (map_fst_combine s' t' H').
    now rewrite E.
  - rewrite <- (map_snd_combine s t H), <- (map_snd_combine s' t' H').
    now rewrite E.
Qed.


(* ------------------------------------------------------------------ *)
(** * The older variant *)

(** C6, at the failing input: two samples of score 1.  [ComputePerformance]
    takes its thresholds from the samples and returns two rows;
    [EvalPerformance] takes them from the map keys and returns one. *)
Lemma ComputePerformance_duplicate_thresholds :
  ComputePerformance {| Values := [1; 1]%float; Labels := [0; 1]%Z |}
  = Return {| Tr := [1; 1]%float; Tp := [0; 0]%Z; Fp := [0; 0]%Z;
              Tn := [1; 1]%Z; Fn := [1; 1]%Z; P := 1; N := 1 |}
  /\
  EvalPerformance [1; 1]%float [0; 1]%Z
  = Return ({| Values := [1; 1]%float; Labels := [0; 1]%Z |},
            ({| Tr := [1]%float; Tp := [0]%Z; Fp := [0]%Z;
                Tn := [1]%Z; Fn := [1]%Z; P := 1; N := 1 |}, None)).
Proof. split; vm_compute; reflexivity. Qed.

(** Where the two variants agree: on valid labels the counting loops
    coincide, and on strictly increasing scores every sample adds its own
    key, so the keys of the map are the samples. *)

Lemma count_labels_unchecked_pairs (count : nat) :
  forall (vs : list float) (ls : list Z) (i : nat) (c : counters),
  length vs = length ls -> (i + count = length vs)%nat ->
  count_labels_unchecked vs ls i count c
  = Return (count_pairs_unchecked (skipn i (combine vs ls)) c).
Proof.
  induction count as [ | count IH]; intros vs ls i c Hal Hi.
  - cbn. rewrite skipn_all2; [reflexivity | ].
    rewrite length_combine. lia.
  - destruct (index_lt vs i) as (v & Hv & Iv); [lia | ].
    destruct (index_lt ls i) as (l & Hl & Il); [lia | ].
    assert (Hp : nth_error (combine vs ls) i = Some (v, l))
      by now apply nth_error_combine.
    rewrite (skipn_nth_error _ _ _ Hp).
    cbn [count_labels_unchecked count_pairs_unchecked].
    rewrite Il, Iv. cbn [bind]. apply IH; lia.
Qed.

Lemma count_pairs_unchecked_valid (l : list (float * Z)) :
  forall c, Forall valid_label (map snd l) ->
  count_pairs l c = inr (count_pairs_unchecked l c).
Proof.
  induction l as [ | [v lab] l IH]; intros c Hl; [reflexivity | ].
  cbn [map snd] in Hl. inversion Hl as [ | ? ? Hlab Hl']; subst.
  cbn [count_pairs count_pairs_unchecked].
  destruct Hlab as [-> | ->]; cbn [Z.eqb]; now apply IH.
Qed.

Lemma count_pairs_unchecked_keys (l : list (float * Z)) :
  forall c,
  Forall nonnan (map fst l) ->
  strictly_ascending (fun p => rank (fst p)) l ->
  Forall (fun k => Forall (fun p => f64_eq k (fst p) = false) l)
         (map_keys (n_pos_map c)) ->
  map_keys (n_pos_map (count_pairs_unchecked l c))
  = map_keys (n_pos_map c) ++ map fst l.
Proof.
  unfold strictly_ascending.
  induction l as [ | [v lab] l IH]; intros c Nl Sl Hk.
  - cbn. now rewrite app_nil_r.
  - cbn [map fst] in Nl. inversion Nl as [ | ? ? Nv Nl']; subst.
    inversion Sl as [ | ? ? Sl' Fv]; subst. cbn [fst] in Fv.
    cbn [count_pairs_unchecked map fst].
    set (np := if (lab =? 1)%Z then int_add (n_pos c) 1 else n_pos c).
    assert (Hset : map_keys (map_set (n_pos_map c) v np)
                   = map_keys (n_pos_map c) ++ [v]).
    { destruct (map_set_keys (n_pos_map c) v np)
        as [(ks1 & k & ks2 & H1 & H2 & _) | (_ & H2)]; [ | exact H2].
      exfalso. rewrite Forall_forall in Hk.
      assert (Hin : In k (map_keys (n_pos_map c)))
        by (rewrite H1; apply in_app_iff; right; now left).
      specialize (Hk k Hin). inversion Hk as [ | ? ? Hkv _]; subst.
      cbn [fst] in Hkv. congruence. }
    rewrite IH; try assumption.
    + cbn [n_pos_map]. rewrite Hset, <- app_assoc. reflexivity.
    + cbn [n_pos_map]. rewrite Hset. apply Forall_app. split.
      * eapply Forall_impl; [ | exact Hk]. cbn. intros k Hk0.
        now inversion Hk0.
      * constructor; [ | constructor].
        rewrite Forall_forall in Fv, Nl'. apply Forall_forall.
        intros p Hp. apply f64_eq_false; try assumption.
        -- apply Nl'. now apply in_map.
        -- specialize (Fv p Hp). lia.
Qed.

Lemma ComputePerformance_agrees_on_distinct
    (values : list float) (labels : list Z) :
  valid_dataset values labels ->
  strictly_increasing values ->
  exists perf,
    EvalPerformance values labels
    = Return ({| Values := values; Labels := labels |}, (perf, None)) /\
    ComputePerformance {| Values := values; Labels := labels |} = Return perf.
Proof.
  intros (Hal & Hne & Hl) Hs.
  destruct values as [ | x [ | y vs]].
  - cbn in Hne. lia.
  - (* a single sample is its own threshold in both variants *)
    destruct labels as [ | l [ | ? ?]]; try discriminate.
    inversion Hl as [ | ? ? Hlab _]; subst.
    destruct Hlab as [-> | ->]; eexists; split; reflexivity.
  - remember (x :: y :: vs) as values eqn:Evs.
    assert (Nv : Forall nonnan values)
      by (apply strictly_increasing_nonnan; [subst; cbn; lia | exact Hs]).
    clear Evs Hne x y vs.
    destruct (EvalPerformance_pairs values labels Hal) as (d & He & Hd & Hp).
    rewrite isort_pairs_strictly_increasing in Hp by assumption.
    destruct (combine_aligned_inj _ _ _ _ Hd Hal Hp) as (Ev & El).
    assert (Ed : d = {| Values := values; Labels := labels |})
      by (destruct d; cbn in Ev, El; now subst).
    subst d. unfold pairs in He. cbn [Values Labels] in He.
    unfold eval_pairs in He.
    rewrite (count_pairs_unchecked_valid (combine values labels) counters_init)
      in He by (now rewrite map_snd_combine).
    eexists. split; [exact He | ].
    unfold ComputePerformance. cbn [Values Labels].
    rewrite (count_labels_unchecked_pairs _ _ _ _ _ Hal) by lia.
    cbn [skipn bind]. rewrite sort_Float64s_isort. cbn [bind].
    rewrite count_pairs_unchecked_keys.
    + cbn [counters_init n_pos_map app]. now rewrite map_fst_combine.
    + now rewrite map_fst_combine.
    + unfold strictly_ascending.
      apply (StronglySorted_map fst (fun a b => (rank a < rank b)%Z)).
      rewrite map_fst_combine by assumption.
      apply nth_error_StronglySorted. intros i j a b Hij Ha Hb.
      apply (f64_lt_spec a b). eapply Hs; eassumption.
    + constructor.
Qed.

(* ------------------------------------------------------------------ *)
(** * AUC *)

Lemma for_loop_Return {St : Type} (body : nat -> St -> outcome St)
    (count : nat) :
  forall (start : nat) (s : St),
  (forall i s0, (start <= i < start + count)%nat ->
                exists s1, body i s0 = Return s1) ->
  exists s', for_loop start count body s = Return s'.
Proof.
  induction count as [ | count IH]; intros start s Hb.
  - exists s. reflexivity.
  - cbn [for_loop]. destruct (Hb start s) as (s1 & H1); [lia | ].
    rewrite H1. cbn [bind]. apply IH. intros i s0 Hi. apply Hb. lia.
Qed.

(** C9: [AUC] panics exactly when its two arguments differ in length. *)
Theorem AUC_panics_iff (x y : list float) :
  (exists msg, AUC x y = Panic msg) <-> length x <> length y.
Proof.
  unfold AUC. destruct (Nat.eqb_spec (length x) (length y)) as [E | E]; cbn [negb].
  - split; [ | contradiction]. intros (msg & Hm). exfalso.
    destruct (for_loop_Return (AUC_body x y) (length x - 1) 1 0%float)
      as (r & Hr).
    + intros i s0 Hi. unfold AUC_body.
      destruct (index_lt x i) as (xi & _ & ->); [lia | ].
      destruct (index_lt x (i - 1)) as (xp & _ & ->); [lia | ].
      destruct (index_lt y i) as (yi & _ & ->); [lia | ].
      destruct (index_lt y (i - 1)) as (yp & _ & ->); [lia | ].
      cbn [bind]. eauto.
    + rewrite Hr in Hm. discriminate.
  - split; [intros _; exact E | intros _; eauto].
Qed.

Lemma AUC_loop (rx : list float) :
  forall (ry px py : list float) (x0 y0 acc : float),
  length px = length py -> length rx = length ry ->
  for_loop (S (length px)) (length rx)
    (AUC_body (px ++ x0 :: rx) (py ++ y0 :: ry)) acc
  = Return (fold_left PrimFloat.add (trapezoids (x0 :: rx) (y0 :: ry)) acc).
Proof.
  induction rx as [ | x1 rx IH]; intros [ | y1 ry] px py x0 y0 acc Hp Hr;
    try discriminate; [reflexivity | ].
  cbn [length for_loop]. unfold AUC_body at 1.
  assert (Hx1 : nth_error (px ++ x0 :: x1 :: rx) (S (length px)) = Some x1).
  { rewrite nth_error_app2 by lia.
    replace (S (length px) - length px)%nat with 1%nat by lia. reflexivity. }
  assert (Hx0 : nth_error (px ++ x0 :: x1 :: rx) (S (length px) - 1) = Some x0).
  { rewrite nth_error_app2 by lia.
    replace (S (length px) - 1 - length px)%nat with 0%nat by lia. reflexivity. }
  assert (Hy1 : nth_error (py ++ y0 :: y1 :: ry) (S (length px)) = Some y1).
  { rewrite nth_error_app2 by lia.
    replace (S (length px) - length py)%nat with 1%nat by lia. reflexivity. }
  assert (Hy0 : nth_error (py ++ y0 :: y1 :: ry) (S (length px) - 1) = Some y0).
  { rewrite nth_error_app2 by lia.
    replace (S (length px) - 1 - length py)%nat with 0%nat by lia. reflexivity. }
  rewrite (index_Some _ _ _ Hx1), (index_Some _ _ _ Hx0),
          (index_Some _ _ _ Hy1), (index_Some _ _ _ Hy0). cbn [bind].
  specialize (IH ry (px ++ [x0]) (py ++ [y0]) x1 y1).
  rewrite <- !app_assoc in IH. cbn [app] in IH.
  rewrite !length_app in IH. cbn [length] in IH.
  replace (length px + 1)%nat with (S (length px)) in IH by lia.
  rewrite IH by (cbn in Hr; lia). reflexivity.
Qed.

Lemma AUC_trapezoid_sum (x y : list float) :
  length x = length y -> AUC x y = Return (trapezoid_sum x y).
Proof.
  intros Hl. unfold AUC. apply Nat.eqb_eq in Hl as Hb. rewrite Hb. cbn [negb].
  destruct x as [ | x0 rx]; destruct y as [ | y0 ry]; try discriminate;
    [reflexivity | ].
  cbn [length]. rewrite Nat.sub_succ, Nat.sub_0_r.
  apply (AUC_loop rx ry [] [] x0 y0 0%float); [reflexivity | ].
  cbn in Hl. lia.
Qed.

(** C5 (amended): on sequences of equal length [AUC] returns the sum, for
    i = 1 .. len-1 in this order, of [|x[i] - x[i-1]| * (y[i] + y[i-1]) / 2];
    it returns exactly 1 on x = [0, 1], y = [1, 1] and exactly 0.25 on
    x = [0, 0.5, 1], y = [0, 0, 1]. *)
Theorem AUC_trapezoidal_rule :
  (forall x y, length x = length y -> AUC x y = Return (trapezoid_sum x y)) /\
  AUC [0; 1]%float [1; 1]%float = Return 1%float /\
  AUC [0; 0.5; 1]%float [0; 0; 1]%float = Return 0.25%float.
Proof.
  split; [exact AUC_trapezoid_sum | ]. split; reflexivity.
Qed.

(** C5, counterexample: on x = [0, 0.5, 1], y = [0, 0, 1] the first
    segment has height 0 and the second has width 0.5 and height 0.5: the
    result is 0.25, not 0.5. *)
Lemma AUC_half_counterexample :
  AUC [0; 0.5; 1]%float [0; 0; 1]%float = Return 0.25%float /\
  AUC [0; 0.5; 1]%float [0; 0; 1]%float <> Return 0.5%float.
Proof.
  split; [reflexivity | ].
  intros H.
  apply (f_equal (fun r => match r with
                           | Return v => f64_eq v 0.5
                           | Panic _ => false
                           end)) in H.
  vm_compute in H. discriminate.
Qed.

(* ------------------------------------------------------------------ *)
(** * Optimum *)

Lemma nth_error_products (x y : list float) (i : nat) (w : float) :
  nth_error (products x y) i = Some w <->
  exists xi yi, nth_error x i = Some xi /\ nth_error y i = Some yi /\
                w = (xi * yi)%float.
Proof.
  unfold products. rewrite nth_error_map.
  destruct (nth_error (combine x y) i) as [[xi yi] | ] eqn:E; cbn.
  - apply nth_error_combine in E. destruct E as [Ex Ey].
    split.
    + intros [= <-]. eauto.
    + intros (xi' & yi' & Hx & Hy & ->). congruence.
  - split; [discriminate | ].
    intros (xi & yi & Hx & Hy & _).
    assert (E' : nth_error (combine x y) i = Some (xi, yi))
      by now apply nth_error_combine.
    congruence.
Qed.

Lemma rank_neg_infinity : rank neg_infinity = (- rank_inf)%Z.
Proof. reflexivity. Qed.

Lemma Optimum_loop (x y : list float) (count : nat) :
  forall (n : nat) (kv : nat * float),
  (n + count = length (products x y))%nat ->
  Forall nonnan (products x y) ->
  Optimum_inv (products x y) n kv ->
  exists kv', for_loop n count (Optimum_body x y) kv = Return kv' /\
              Optimum_inv (products x y) (n + count) kv'.
Proof.
  induction count as [ | count IH]; intros n [k v] Hlen Np Hinv.
  - exists (k, v). rewrite Nat.add_0_r. auto.
  - cbn [for_loop]. unfold Optimum_body at 1.
    destruct (nth_error (products x y) n) as [r | ] eqn:Hr;
      [ | apply nth_error_None in Hr; lia].
    pose proof Hr as Hr'.
    apply nth_error_products in Hr'. destruct Hr' as (xi & yi & Hx & Hy & Er).
    rewrite (index_Some _ _ _ Hx), (index_Some _ _ _ Hy). cbn [bind].
    rewrite <- Er.
    assert (Nr : nonnan r).
    { rewrite Forall_forall in Np. apply Np.
      eapply nth_error_In; eassumption. }
    destruct Hinv as (Nv & Hle & Hk).
    replace (n + S count)%nat with (S n + count)%nat by lia.
    destruct (f64_gt r v) eqn:G.
    + apply f64_gt_spec in G. destruct G as (_ & _ & G).
      apply IH; [lia | assumption | ].
      split; [assumption | ]. split.
      * intros j w Hj Hw. destruct (Nat.eq_dec j n) as [-> | Hne].
        -- rewrite Hr in Hw. injection Hw as <-. lia.
        -- specialize (Hle j w ltac:(lia) Hw). lia.
      * right. split; [lia | ]. split; [exact Hr | ].
        intros j w Hj Hw. specialize (Hle j w Hj Hw). lia.
    + apply f64_gt_false in G; try assumption.
      apply IH; [lia | assumption | ].
      split; [assumption | ]. split.
      * intros j w Hj Hw. destruct (Nat.eq_dec j n) as [-> | Hne].
        -- rewrite Hr in Hw. injection Hw as <-. lia.
        -- apply Hle with (j := j); [lia | assumption].
      * destruct Hk as [Hk | (Hk1 & Hk2 & Hk3)]; [now left | right].
        split; [lia | auto].
Qed.

(** C7 (amended): when [tr], [x] and [y] have the same non-zero length
    and no product [x[i] * y[i]] is NaN, [Optimum] returns the smallest
    index at which the product is maximal. *)
Theorem Optimum_first_argmax (tr x y : list float) :
  length tr = length x -> length x = length y -> x <> [] ->
  Forall nonnan (products x y) ->
  exists k, Optimum tr x y = Return k /\ first_argmax (products x y) k.
Proof.
  intros Htr Hxy Hne Np.
  assert (Hlen : length (products x y) = length tr).
  { unfold products. rewrite length_map, length_combine. lia. }
  destruct (Optimum_loop x y (length tr) 0 (0%nat, neg_infinity))
    as ([k v] & Hloop & Nv & Hle & Hk); [lia | assumption | | ].
  { split; [reflexivity | ]. split; [intros; lia | ].
    left. split; [reflexivity | apply rank_neg_infinity]. }
  exists k. unfold Optimum. rewrite Hloop. cbn [bind fst].
  split; [reflexivity | ].
  rewrite Forall_forall in Np.
  assert (Hall : forall j w, nth_error (products x y) j = Some w ->
                             nonnan w /\ (rank w <= rank v)%Z).
  { intros j w Hw. split.
    - apply Np. eapply nth_error_In; eassumption.
    - apply (Hle j); [ | assumption].
      cbn [Nat.add]. rewrite <- Hlen. apply nth_error_Some. congruence. }
  destruct Hk as [(-> & Hv) | (Hk1 & Hk2 & Hk3)].
  - destruct (nth_error (products x y) 0) as [v0 | ] eqn:H0.
    2: { apply nth_error_None in H0. destruct x; [contradiction | ].
         cbn in Htr. lia. }
    destruct (Hall _ _ H0) as (N0 & R0).
    pose proof (rank_nonnan _ N0) as B0.
    exists v0. split; [exact H0 | ]. split; [ | intros; lia].
    intros j w Hw. destruct (Hall _ _ Hw) as (Nw & Rw).
    apply f64_le_spec. repeat split; try assumption. lia.
  - exists v. split; [exact Hk2 | ]. split.
    + intros j w Hw. destruct (Hall _ _ Hw) as (Nw & Rw).
      apply f64_le_spec. auto.
    + intros j w Hj Hw. destruct (Hall _ _ Hw) as (Nw & _).
      apply f64_lt_spec. repeat split; try assumption.
      now apply (Hk3 j).
Qed.

(** The example of the specification, for any three thresholds. *)
Lemma Optimum_example (t0 t1 t2 : float) :
  Optimum [t0; t1; t2] [0.1; 0.9; 0.5]%float [0.2; 0.8; 0.9]%float
  = Return 1%nat.
Proof. reflexivity. Qed.

(** C7, witness: the example of the specification, index 1 with product
    0.72. *)
Lemma Optimum_first_argmax_witness :
  Optimum [0.25; 0.5; 0.75]%float [0.1; 0.9; 0.5]%float [0.2; 0.8; 0.9]%float
  = Return 1%nat /\
  first_argmax (products [0.1; 0.9; 0.5]%float [0.2; 0.8; 0.9]%float) 1.
Proof.
  destruct (Optimum_first_argmax [0.25; 0.5; 0.75]%float
              [0.1; 0.9; 0.5]%float [0.2; 0.8; 0.9]%float)
    as (k & Hk & Hmax).
  - reflexivity.
  - reflexivity.
  - discriminate.
  - repeat constructor.
  - assert (E : k = 1%nat).
    { vm_compute in Hk. now injection Hk as <-. }
    rewrite E in Hmax. split; [reflexivity | exact Hmax].
Defined.

(** C7, counterexample.  The scan runs over [len(tr)] indices: with an
    empty [tr] the example of the specification yields index 0, which is
    not where the product is maximal.  And a NaN product is never selected
    nor compared away: on products NaN, 1 the result 1 is not an index of
    a maximum under [<=]. *)
Lemma Optimum_counterexample :
  (Optimum [] [0.1; 0.9; 0.5]%float [0.2; 0.8; 0.9]%float = Return 0%nat /\
   ~ first_argmax (products [0.1; 0.9; 0.5]%float [0.2; 0.8; 0.9]%float) 0) /\
  (Optimum [0; 0]%float [nan; 1]%float [1; 1]%float = Return 1%nat /\
   ~ first_argmax (products [nan; 1]%float [1; 1]%float) 1).
Proof.
  split; (split; [reflexivity | ]).
  - intros (v & Hv & Hle & _). cbn in Hv. injection Hv as <-.
    specialize (Hle 1%nat _ eq_refl). vm_compute in Hle. discriminate.
  - intros (v & Hv & Hle & _). cbn in Hv. injection Hv as <-.
    specialize (Hle 0%nat _ eq_refl). vm_compute in Hle. discriminate.
Qed.

(* ------------------------------------------------------------------ *)
(** * Rounding: conversions of integers and quotients are never NaN *)

Section Rounding.

Local Open Scope Z_scope.

Lemma Zdigits2_bounds (m : Z) :
  0 < m -> 2 ^ (Zdigits2 m - 1) <= m < 2 ^ Zdigits2 m.
Proof.
  destruct m as [ | p | p]; try lia. intros _. cbn [Zdigits2].
  split; [apply digits2_pos_lower | apply digits2_pos_upper].
Qed.

Lemma Zdigits2_unique (m k : Z) :
  0 < m -> 2 ^ (k - 1) <= m < 2 ^ k -> Zdigits2 m = k.
Proof.
  intros Hm Hk. pose proof (Zdigits2_bounds m Hm) as Hd.
  destruct (Z.lt_trichotomy (Zdigits2 m) k) as [L | [E | L]]; [ | exact E | ].
  - assert (2 ^ Zdigits2 m <= 2 ^ (k - 1)) by (apply Z.pow_le_mono_r; lia). lia.
  - assert (2 ^ k <= 2 ^ (Zdigits2 m - 1)) by (apply Z.pow_le_mono_r; lia). lia.
Qed.

Lemma shr_1_m (r : shr_record) :
  0 <= shr_m r -> shr_m (shr_1 r) = shr_m r / 2.
Proof.
  destruct r as [m rr s]. cbn [shr_m]. intros Hm.
  rewrite <- Z.div2_div.
  destruct m as [ | [p | p | ] | p]; try lia; reflexivity.
Qed.

Lemma iter_pos_shr_1 (k : positive) :
  forall r, 0 <= shr_m r ->
  shr_m (iter_pos shr_1 k r) = shr_m r / 2 ^ Zpos k.
Proof.
  induction k as [k IH | k IH | ]; intros r Hr; cbn [iter_pos].
  - assert (H1 : 0 <= shr_m (shr_1 r))
      by (rewrite shr_1_m by assumption; apply Z.div_pos; lia).
    assert (H2 : 0 <= shr_m (iter_pos shr_1 k (shr_1 r)))
      by (rewrite IH by assumption; apply Z.div_pos; lia).
    rewrite IH, IH, shr_1_m by assumption.
    assert (Hp : 0 < 2 ^ Zpos k) by (apply Z.pow_pos_nonneg; lia).
    rewrite !Z.div_div by lia. f_equal.
    replace (Zpos k~1) with (Zpos k + Zpos k + 1) by lia.
    rewrite !Z.pow_add_r by lia. change (2 ^ 1) with 2. lia.
  - assert (H2 : 0 <= shr_m (iter_pos shr_1 k r))
      by (rewrite IH by assumption; apply Z.div_pos; lia).
    rewrite IH, IH by assumption.
    assert (Hp : 0 < 2 ^ Zpos k) by (apply Z.pow_pos_nonneg; lia).
    rewrite !Z.div_div by lia. f_equal.
    replace (Zpos k~0) with (Zpos k + Zpos k) by lia.
    rewrite !Z.pow_add_r by lia. lia.
  - rewrite shr_1_m by assumption. reflexivity.
Qed.

Lemma shr_nonneg (mrs : shr_record) (e n : Z) :
  0 <= shr_m mrs -> 0 <= shr_m (fst (shr mrs e n)).
Proof.
  intros Hm. unfold shr. destruct n as [ | p | p]; cbn [fst]; try assumption.
  rewrite iter_pos_shr_1 by assumption. apply Z.div_pos; lia.
Qed.

Lemma shr_spec (mrs : shr_record) (e n : Z) :
  0 <= n -> 0 <= shr_m mrs ->
  exists mrs', shr mrs e n = (mrs', e + n) /\
               shr_m mrs' = shr_m mrs / 2 ^ n.
Proof.
  intros Hn Hm. unfold shr. destruct n as [ | p | p]; try lia.
  - exists mrs. rewrite Z.add_0_r, Z.div_1_r. auto.
  - eexists. split; [reflexivity | ]. now apply iter_pos_shr_1.
Qed.

Lemma shr_m_of_loc (m : Z) (l : location) :
  shr_m (shr_record_of_loc m l) = m.
Proof. destruct l as [ | [ | | ]]; reflexivity. Qed.

Lemma shr_fexp_nonneg (m e : Z) (l : location) :
  0 <= m -> 0 <= shr_m (fst (shr_fexp prec emax m e l)).
Proof.
  intros Hm. unfold shr_fexp. apply shr_nonneg. now rewrite shr_m_of_loc.
Qed.

Lemma shr_fexp_spec (m e : Z) (l : location) :
  0 < m -> -1074 <= e -> 53 <= Zdigits2 m ->
  exists mrs', shr_fexp prec emax m e l = (mrs', e + (Zdigits2 m - 53)) /\
               2 ^ 52 <= shr_m mrs' < 2 ^ 53.
Proof.
  intros Hm He Hd. unfold shr_fexp, fexp, SpecFloat.emin, prec, emax.
  replace (Z.max (Zdigits2 m + e - 53) (3 - 1024 - 53) - e)
    with (Zdigits2 m - 53) by lia.
  destruct (shr_spec (shr_record_of_loc m l) e (Zdigits2 m - 53))
    as (mrs' & Hs & Hv); [lia | rewrite shr_m_of_loc; lia | ].
  exists mrs'. split; [exact Hs | ]. rewrite Hv, shr_m_of_loc.
  pose proof (Zdigits2_bounds m Hm) as [Hlo Hhi].
  assert (Hp : 0 < 2 ^ (Zdigits2 m - 53)) by (apply Z.pow_pos_nonneg; lia).
  split.
  - apply Z.div_le_lower_bound; [exact Hp | ].
    rewrite Z.mul_comm, <- Z.pow_add_r by lia.
    replace (52 + (Zdigits2 m - 53)) with (Zdigits2 m - 1) by lia. exact Hlo.
  - apply Z.div_lt_upper_bound; [exact Hp | ].
    rewrite <- Z.pow_add_r by lia.
    replace (Zdigits2 m - 53 + 53) with (Zdigits2 m) by lia. exact Hhi.
Qed.

Lemma round_nearest_even_bounds (m : Z) (l : location) :
  m <= round_nearest_even m l <= m + 1.
Proof.
  unfold round_nearest_even. destruct l as [ | [ | | ]]; try lia.
  destruct (Z.even m); lia.
Qed.

(** A positive significand of at least 53 digits, well inside the exponent
    range, rounds to a finite value. *)
Lemma binary_round_aux_finite (sx : bool) (mx ex : Z) (lx : location) :
  0 < mx -> -1074 <= ex -> 53 <= Zdigits2 mx -> Zdigits2 mx + ex <= 1023 ->
  exists m e, binary_round_aux prec emax sx mx ex lx = S754_finite sx m e.
Proof.
  intros Hm He Hd Hmax. unfold binary_round_aux.
  destruct (shr_fexp_spec mx ex lx Hm He Hd) as (mrs1 & E1 & B1).
  rewrite E1.
  pose proof (round_nearest_even_bounds (shr_m mrs1) (loc_of_shr_record mrs1))
    as B2.
  set (m2 := round_nearest_even (shr_m mrs1) (loc_of_shr_record mrs1)) in *.
  change (2 ^ 52) with 4503599627370496 in B1.
  change (2 ^ 53) with 9007199254740992 in B1.
  assert (Hm2 : 0 < m2) by lia.
  pose proof (Zdigits2_bounds m2 Hm2) as [Lo2 Hi2].
  assert (D2 : 53 <= Zdigits2 m2 <= 54).
  { split.
    - destruct (Z.lt_ge_cases (Zdigits2 m2) 53) as [L | L]; [ | lia].
      assert (2 ^ Zdigits2 m2 <= 2 ^ 52) by (apply Z.pow_le_mono_r; lia).
      change (2 ^ 52) with 4503599627370496 in *. lia.
    - destruct (Z.lt_ge_cases 54 (Zdigits2 m2)) as [L | L]; [ | lia].
      assert (2 ^ 54 <= 2 ^ (Zdigits2 m2 - 1)) by (apply Z.pow_le_mono_r; lia).
      change (2 ^ 54) with 18014398509481984 in *. lia. }
  destruct (shr_fexp_spec m2 (ex + (Zdigits2 mx - 53)) loc_Exact)
    as (mrs2 & E2 & B3); try lia.
  rewrite E2.
  change (2 ^ 52) with 4503599627370496 in B3.
  destruct (shr_m mrs2) as [ | p | p]; try lia.
  unfold emax, prec.
  destruct (Z.leb_spec (ex + (Zdigits2 mx - 53) + (Zdigits2 m2 - 53))
              (1024 - 53)) as [L | L]; [eauto | lia].
Qed.

(** Rounding a non-negative significand never yields NaN. *)
Lemma binary_round_aux_nonnan (sx : bool) (mx ex : Z) (lx : location) :
  0 <= mx -> binary_round_aux prec emax sx mx ex lx <> S754_nan.
Proof.
  intros Hm. unfold binary_round_aux.
  pose proof (shr_fexp_nonneg mx ex lx Hm) as H1.
  destruct (shr_fexp prec emax mx ex lx) as [mrs1 e1]. cbn [fst] in H1.
  pose proof (round_nearest_even_bounds (shr_m mrs1) (loc_of_shr_record mrs1))
    as B2.
  set (m2 := round_nearest_even (shr_m mrs1) (loc_of_shr_record mrs1)) in *.
  pose proof (shr_fexp_nonneg m2 e1 loc_Exact ltac:(lia)) as H2.
  destruct (shr_fexp prec emax m2 e1 loc_Exact) as [mrs2 e2]. cbn [fst] in H2.
  destruct (shr_m mrs2) as [ | p | p]; try lia; try discriminate.
  destruct (Z.leb e2 (emax - prec)); discriminate.
Qed.

Lemma iter_xO (p k : positive) :
  Zpos (Pos.iter xO p k) = Zpos p * 2 ^ Zpos k.
Proof.
  induction k as [ | k IH] using Pos.peano_ind.
  - cbn [Pos.iter]. lia.
  - rewrite Pos.iter_succ, Pos2Z.inj_xO, IH, Pos2Z.inj_succ, Z.pow_succ_r by lia.
    lia.
Qed.

Lemma of_uint63_finite (n : Uint63.int) :
  0 < Uint63.to_Z n ->
  exists m e, Prim2SF (of_uint63 n) = S754_finite false m e.
Proof.
  intros Hn. rewrite of_uint63_spec.
  pose proof (Uint63.to_Z_bounded n) as Hb.
  change Uint63.wB with (2 ^ 63) in Hb.
  destruct (Uint63.to_Z n) as [ | p | p]; try lia.
  cbn [binary_normalize]. unfold binary_round.
  pose proof (Zdigits2_bounds (Zpos p) ltac:(lia)) as [Lo Hi].
  cbn [Zdigits2] in Lo, Hi.
  assert (D : 1 <= Zpos (digits2_pos p) <= 63).
  { split; [lia | ].
    destruct (Z.lt_ge_cases 63 (Zpos (digits2_pos p))) as [L | L]; [ | lia].
    assert (2 ^ 63 <= 2 ^ (Zpos (digits2_pos p) - 1))
      by (apply Z.pow_le_mono_r; lia). lia. }
  unfold shl_align, fexp, SpecFloat.emin, prec, emax.
  replace (Z.max (Zpos (digits2_pos p) + 0 - 53) (3 - 1024 - 53) - 0)
    with (Zpos (digits2_pos p) - 53) by lia.
  replace (Z.max (Zpos (digits2_pos p) + 0 - 53) (3 - 1024 - 53))
    with (Zpos (digits2_pos p) - 53) by lia.
  destruct (Zpos (digits2_pos p) - 53) as [ | k | k] eqn:Ek.
  - apply binary_round_aux_finite; cbn [Zdigits2]; lia.
  - apply binary_round_aux_finite; cbn [Zdigits2]; lia.
  - assert (Hk : Zpos k = 53 - Zpos (digits2_pos p)) by lia.
    assert (Hdig : Zdigits2 (Zpos (Pos.iter xO p k)) = 53).
    { apply Zdigits2_unique; [lia | ]. rewrite iter_xO.
      assert (Hp : 0 < 2 ^ Zpos k) by (apply Z.pow_pos_nonneg; lia).
      assert (E1 : 2 ^ (53 - 1)
                   = 2 ^ (Zpos (digits2_pos p) - 1) * 2 ^ Zpos k)
        by (rewrite <- Z.pow_add_r by lia; f_equal; lia).
      assert (E2 : 2 ^ 53 = 2 ^ Zpos (digits2_pos p) * 2 ^ Zpos k)
        by (rewrite <- Z.pow_add_r by lia; f_equal; lia).
      rewrite E1, E2. split; nia. }
    change (Zneg k) with (- Zpos k).
    apply binary_round_aux_finite; rewrite ?Hdig; lia.
Qed.

Lemma wrap64_is_int (z : Z) : is_int (wrap64 z).
Proof.
  unfold is_int, int_min, int_max, wrap64.
  pose proof (Z.mod_pos_bound (z + 2 ^ 63) (2 ^ 64) ltac:(lia)). lia.
Qed.

(** [float64(z)] is zero for z = 0 and a finite non-zero value otherwise. *)
Lemma float64_of_int_finite (z : Z) :
  is_int z ->
  (z = 0 /\ exists s, Prim2SF (float64_of_int z) = S754_zero s) \/
  (z <> 0 /\ exists s m e, Prim2SF (float64_of_int z) = S754_finite s m e).
Proof.
  unfold is_int, int_min, int_max. intros Hz. unfold float64_of_int.
  destruct (Z.ltb_spec z 0) as [Hneg | Hpos].
  - right. split; [lia | ].
    destruct (Z.eqb_spec z int_min) as [E | E].
    + exists true. vm_compute. eauto.
    + unfold int_min in E. rewrite opp_spec.
      destruct (of_uint63_finite (Uint63.of_Z (- z))) as (m & e & H).
      * rewrite Uint63.of_Z_spec. change Uint63.wB with (2 ^ 63).
        rewrite Z.mod_small; lia.
      * rewrite H. cbn. eauto.
  - destruct (Z.eq_dec z 0) as [-> | Hne].
    + left. split; [reflexivity | ]. exists false. reflexivity.
    + right. split; [assumption | ]. exists false.
      apply of_uint63_finite.
      rewrite Uint63.of_Z_spec. change Uint63.wB with (2 ^ 63).
      rewrite Z.mod_small; lia.
Qed.

Lemma SFdiv_finite_nonnan (sx : bool) (mx : positive) (ex : Z) (y : spec_float) :
  y <> S754_nan -> (forall s, y <> S754_infinity s) ->
  SF64div (S754_finite sx mx ex) y <> S754_nan.
Proof.
  intros Ny Iy. unfold SF64div, SFdiv.
  destruct y as [sy | sy | | sy my ey]; try congruence; try discriminate.
  unfold SFdiv_core_binary.
  set (s := _ - _ - Z.min _ _).
  set (m' := match s with Z0 => Zpos mx | Zpos _ => Z.shiftl (Zpos mx) s
             | Zneg _ => 0 end).
  assert (Hm' : 0 <= m').
  { subst m'. destruct s; try lia. apply Z.shiftl_nonneg. lia. }
  pose proof (Z.div_pos m' (Zpos my) Hm' ltac:(lia)) as Hq.
  unfold Z.div in Hq.
  destruct (Z.div_eucl m' (Zpos my)) as [q r]. cbn [fst] in Hq.
  now apply binary_round_aux_nonnan.
Qed.

(** A quotient of two converted integers is not NaN unless the numerator is
    zero. *)
Lemma float64_of_int_div_nonnan (a b : Z) :
  is_int a -> is_int b -> a <> 0 ->
  nonnan (float64_of_int a / float64_of_int b)%float.
Proof.
  intros Ha Hb Hne. apply nonnan_spec. rewrite div_spec.
  destruct (float64_of_int_finite a Ha) as [[-> _] | (_ & s & m & e & ->)];
    [contradiction | ].
  apply SFdiv_finite_nonnan.
  - destruct (float64_of_int_finite b Hb) as [(_ & s' & ->) | (_ & s' & m' & e' & ->)];
      discriminate.
  - intros s0.
    destruct (float64_of_int_finite b Hb) as [(_ & s' & ->) | (_ & s' & m' & e' & ->)];
      discriminate.
Qed.

End Rounding.

(* ------------------------------------------------------------------ *)
(** * PrecisionRecall *)

Lemma set_nth_middle {A : Type} (s1 s2 : list A) (a b : A) :
  set_nth (s1 ++ a :: s2) (length s1) b = s1 ++ b :: s2.
Proof.
  rewrite <- (Nat.add_0_r (length s1)) at 1. now rewrite set_nth_app.
Qed.

Lemma nth_error_middle {A : Type} (s1 s2 : list A) (a : A) :
  nth_error (s1 ++ a :: s2) (length s1) = Some a.
Proof. rewrite nth_error_app2, Nat.sub_diag by lia. reflexivity. Qed.

Lemma assign_middle {A : Type} (s1 s2 : list A) (a b : A) :
  assign (s1 ++ a :: s2) (length s1) b = Return (s1 ++ b :: s2).
Proof.
  rewrite assign_lt by (rewrite length_app; cbn; lia).
  now rewrite set_nth_middle.
Qed.

(** The first loop, from the round at which the entries [dp], [dr] are
    final and [prev] is the last entry of [dp]. *)
Lemma PrecisionRecall_loop (perf : Performance) (tps : list Z) :
  forall (fps fns dtp dfp dfn : list Z) (dp dr : list float) (prev : float),
  Tp perf = dtp ++ tps -> Fp perf = dfp ++ fps -> Fn perf = dfn ++ fns ->
  length fps = length tps -> length fns = length tps ->
  length dtp = length dp -> length dfp = length dp ->
  length dfn = length dp -> length dr = length dp ->
  (dp = [] /\ prev = 0%float \/ exists dp', dp = dp' ++ [prev]) ->
  for_loop (length dp) (length tps) (PrecisionRecall_body perf)
    (dp ++ repeat 0%float (length tps), dr ++ repeat 0%float (length tps))
  = Return (dp ++ precision_list prev tps fps, dr ++ recall_list tps fns).
Proof.
  induction tps as [ | tp tps IH];
    intros [ | fp fps] [ | fn fns] dtp dfp dfn dp dr prev
      Htp Hfp Hfn Lfp Lfn Ldtp Ldfp Ldfn Ldr Hprev; try discriminate.
  - reflexivity.
  - cbn [length] in Lfp, Lfn.
    cbn [length for_loop repeat precision_list recall_list].
    unfold PrecisionRecall_body at 1.
    assert (Itp : index (Tp perf) (length dp) = Return tp).
    { apply index_Some. rewrite Htp, <- Ldtp. apply nth_error_middle. }
    assert (Ifp : index (Fp perf) (length dp) = Return fp).
    { apply index_Some. rewrite Hfp, <- Ldfp. apply nth_error_middle. }
    assert (Ifn : index (Fn perf) (length dp) = Return fn).
    { apply index_Some. rewrite Hfn, <- Ldfn. apply nth_error_middle. }
    rewrite Itp. cbn [bind].
    assert (Next : forall p r,
      for_loop (S (length dp)) (length tps) (PrecisionRecall_body perf)
        (dp ++ p :: repeat 0%float (length tps),
         dr ++ r :: repeat 0%float (length tps))
      = Return (dp ++ p :: precision_list p tps fps,
                dr ++ r :: recall_list tps fns)).
    { intros p r.
      specialize (IH fps fns (dtp ++ [tp]) (dfp ++ [fp]) (dfn ++ [fn])
                    (dp ++ [p]) (dr ++ [r]) p).
      rewrite <- !app_assoc in IH. cbn [app] in IH.
      rewrite !length_app in IH. cbn [length] in IH.
      replace (length dp + 1)%nat with (S (length dp)) in IH by lia.
      apply IH; try assumption; try lia.
      right. exists dp. reflexivity. }
    destruct (tp >? 0)%Z.
    + rewrite Ifn. cbn [bind].
      rewrite <- Ldr at 1. rewrite assign_middle. cbn [bind].
      rewrite Ifp. cbn [bind].
      rewrite assign_middle. cbn [bind].
      apply Next.
    + destruct dp as [ | d0 dp0] eqn:Edp.
      * cbn [length Nat.ltb Nat.leb].
        destruct Hprev as [[_ ->] | (dp' & Hdp')];
          [ | destruct dp'; discriminate].
        apply (Next 0%float 0%float).
      * rewrite <- Edp in *.
        assert (Hpos : (0 <? length dp)%nat = true)
          by (apply Nat.ltb_lt; rewrite Edp; cbn; lia).
        rewrite Hpos.
        destruct Hprev as [[Hnil _] | (dp' & Hdp')];
          [rewrite Edp in Hnil; discriminate | ].
        assert (Iprev : index (dp ++ 0%float :: repeat 0%float (length tps))
                          (length dp - 1) = Return prev).
        { apply index_Some. rewrite Hdp', <- app_assoc. cbn [app].
          rewrite length_app. cbn [length].
          replace (length dp' + 1 - 1)%nat with (length dp') by lia.
          apply nth_error_middle. }
        rewrite Iprev. cbn [bind].
        rewrite assign_middle. cbn [bind].
        apply (Next prev 0%float).
Qed.

Lemma normalize_loop (c : float) (rest : list float) :
  forall done : list float,
  for_loop (length done) (length rest) (normalize_body c) (done ++ rest)
  = Return (done ++ map (remap c) rest).
Proof.
  induction rest as [ | p rest IH]; intros done; [reflexivity | ].
  cbn [length for_loop map]. unfold normalize_body at 1.
  rewrite (index_Some _ _ _ (nth_error_middle done rest p)). cbn [bind].
  rewrite assign_middle. cbn [bind].
  specialize (IH (done ++ [remap c p])).
  rewrite <- !app_assoc, length_app in IH. cbn [app length] in IH.
  replace (length done + 1)%nat with (S (length done)) in IH by lia.
  exact IH.
Qed.

(** [PrecisionRecall] as a function of the sweep. *)
Lemma PrecisionRecall_lists (perf : Performance) (normalize : bool) :
  aligned_sweep perf ->
  PrecisionRecall perf normalize
  = Return (recall_list (Tp perf) (Fn perf),
            if normalize
            then map (remap (base_rate perf))
                     (precision_list 0%float (Tp perf) (Fp perf))
            else precision_list 0%float (Tp perf) (Fp perf)).
Proof.
  intros (Ltp & Lfp & Lfn). unfold PrecisionRecall.
  rewrite repeat_length, <- Ltp.
  pose proof (PrecisionRecall_loop perf (Tp perf) (Fp perf) (Fn perf)
                [] [] [] [] [] 0%float) as Hloop.
  cbn [app length] in Hloop. rewrite Hloop; try reflexivity; try lia; auto.
  cbn [bind].
  destruct normalize; [ | reflexivity].
  pose proof (normalize_loop (base_rate perf)
                (precision_list 0%float (Tp perf) (Fp perf)) []) as Hn.
  cbn [app length] in Hn. unfold base_rate in Hn |- *.
  rewrite Hn. reflexivity.
Qed.

Lemma nth_error_recall_list (tps fns : list Z) :
  forall i tp fn,
  nth_error tps i = Some tp -> nth_error fns i = Some fn ->
  nth_error (recall_list tps fns) i
  = Some (if (tp >? 0)%Z then ratio tp fn else 0%float).
Proof.
  revert fns. induction tps as [ | t tps IH]; intros [ | f fns] [ | i] tp fn Ht Hf;
    cbn in *; try discriminate.
  - now injection Ht as ->; injection Hf as ->.
  - now apply IH.
Qed.

Lemma nth_error_precision_list (tps fps : list Z) :
  forall prev i tp fp,
  nth_error tps i = Some tp -> nth_error fps i = Some fp ->
  nth_error (precision_list prev tps fps) i
  = if (tp >? 0)%Z then Some (ratio tp fp)
    else match i with
         | O => Some prev
         | S i' => nth_error (precision_list prev tps fps) i'
         end.
Proof.
  revert fps. induction tps as [ | t tps IH];
    intros [ | f fps] prev [ | i] tp fp Ht Hf; cbn in Ht, Hf; try discriminate.
  - injection Ht as ->; injection Hf as ->. cbn.
    destruct (tp >? 0)%Z; reflexivity.
  - cbn [precision_list nth_error].
    rewrite (IH fps _ i tp fp Ht Hf).
    destruct (tp >? 0)%Z; [reflexivity | ].
    destruct i as [ | i']; [ | reflexivity].
    cbn. destruct tps, fps; cbn in Ht, Hf; try discriminate. reflexivity.
Qed.

(** C2: on a sweep whose sequences are aligned, [PrecisionRecall] returns
    [recall[i] = Tp[i] / (Tp[i] + Fn[i])] and
    [precision[i] = Tp[i] / (Tp[i] + Fp[i])] where [Tp[i] > 0]; where
    [Tp[i] <= 0] (in particular [Tp[i] = 0]) the precision is the one at
    [i - 1], or 0 at [i = 0]; with [normalize] set every precision entry
    [p] is then replaced by [(p - c) / (1 - c)], [c = P / (P + N)]. *)
Theorem PrecisionRecall_spec (perf : Performance) (normalize : bool) :
  aligned_sweep perf ->
  exists recall raw precision,
    PrecisionRecall perf false = Return (recall, raw) /\
    PrecisionRecall perf normalize = Return (recall, precision) /\
    (forall i tp fn fp,
       nth_error (Tp perf) i = Some tp ->
       nth_error (Fn perf) i = Some fn ->
       nth_error (Fp perf) i = Some fp ->
       ((tp > 0)%Z ->
          nth_error recall i
          = Some (float64_of_int tp / float64_of_int (int_add tp fn))%float /\
          nth_error raw i
          = Some (float64_of_int tp / float64_of_int (int_add tp fp))%float) /\
       ((tp <= 0)%Z ->
          nth_error raw i = match i with
                            | O => Some 0%float
                            | S i' => nth_error raw i'
                            end)) /\
    precision =
      if normalize
      then map (fun p => ((p - base_rate perf) / (1 - base_rate perf))%float) raw
      else raw.
Proof.
  intros Hal.
  exists (recall_list (Tp perf) (Fn perf)),
         (precision_list 0%float (Tp perf) (Fp perf)).
  eexists. split; [now apply PrecisionRecall_lists | ].
  split; [now apply PrecisionRecall_lists | ].
  split; [ | reflexivity].
  intros i tp fn fp Htp Hfn Hfp.
  rewrite (nth_error_recall_list _ _ _ _ _ Htp Hfn).
  rewrite (nth_error_precision_list _ _ _ _ _ _ Htp Hfp).
  split; intros Ht.
  - apply Z.gt_lt, Z.gtb_lt in Ht. rewrite Ht. split; reflexivity.
  - destruct (Z.gtb_spec tp 0) as [G | G]; [lia | reflexivity].
Qed.

(** C2, witness: the sweep of scores 0.25, 0.25, 0.5, 0.5, 0.75 with
    labels 0, 1, 0, 1, 1, normalised. *)
Lemma PrecisionRecall_spec_witness :
  let perf := {| Tr := [0.25; 0.5; 0.75]%float;
                 Tp := [2; 1; 0]%Z; Fp := [1; 0; 0]%Z;
                 Tn := [1; 2; 2]%Z; Fn := [1; 2; 3]%Z;
                 P := 3; N := 2 |} in
  exists recall raw precision,
    PrecisionRecall perf false = Return (recall, raw) /\
    PrecisionRecall perf true = Return (recall, precision) /\
    nth_error raw 2 = nth_error raw 1 /\
    precision
    = map (fun p => ((p - base_rate perf) / (1 - base_rate perf))%float) raw.
Proof.
  intros perf.
  destruct (PrecisionRecall_spec perf true) as (recall & raw & precision & H1 & H2 & H3 & H4).
  - repeat split.
  - exists recall, raw, precision. repeat split; try assumption.
    destruct (H3 2%nat 0%Z 3%Z 0%Z eq_refl eq_refl eq_refl) as [_ Hz].
    apply Hz. lia.
Defined.

(* ------------------------------------------------------------------ *)
(** * Recall is never NaN *)

Lemma recall_list_nonnan (tps fns : list Z) :
  Forall is_int tps -> Forall nonnan (recall_list tps fns).
Proof.
  revert fns. induction tps as [ | tp tps IH]; intros [ | fn fns] Hint; cbn;
    try constructor.
  - inversion Hint as [ | ? ? Htp Hint']; subst.
    destruct (Z.gtb_spec tp 0) as [G | G]; [ | reflexivity].
    apply float64_of_int_div_nonnan; [assumption | apply wrap64_is_int | lia].
  - inversion Hint; subst. now apply IH.
Qed.

(** C10: without normalisation [recall[i]] is exactly 0 wherever
    [Tp[i] = 0], and no entry of [recall] is NaN, whatever the counts are
    (an all-negative dataset, [P = 0], included). *)
Theorem PrecisionRecall_recall_no_NaN (perf : Performance) :
  aligned_sweep perf ->
  Forall is_int (Tp perf) ->
  exists recall precision,
    PrecisionRecall perf false = Return (recall, precision) /\
    (forall i, nth_error (Tp perf) i = Some 0%Z ->
               nth_error recall i = Some 0%float) /\
    Forall nonnan recall.
Proof.
  intros Hal Hint.
  exists (recall_list (Tp perf) (Fn perf)),
         (precision_list 0%float (Tp perf) (Fp perf)).
  split; [now apply (PrecisionRecall_lists perf false) | ]. split.
  - intros i Htp. destruct Hal as (Ltp & _ & Lfn).
    destruct (nth_error (Fn perf) i) as [fn | ] eqn:Hfn.
    + now rewrite (nth_error_recall_list _ _ _ _ _ Htp Hfn).
    + apply nth_error_None in Hfn.
      assert ((i < length (Tp perf))%nat) by (apply nth_error_Some; congruence).
      lia.
  - now apply recall_list_nonnan.
Qed.

(** C10, witness: the sweep of an all-negative dataset. *)
Lemma PrecisionRecall_recall_no_NaN_witness :
  let perf := {| Tr := [0.25; 0.5]%float;
                 Tp := [0; 0]%Z; Fp := [1; 0]%Z;
                 Tn := [1; 2]%Z; Fn := [0; 0]%Z;
                 P := 0; N := 2 |} in
  exists recall precision,
    PrecisionRecall perf false = Return (recall, precision) /\
    nth_error recall 0 = Some 0%float /\
    nth_error recall 1 = Some 0%float /\
    Forall nonnan recall.
Proof.
  intros perf.
  destruct (PrecisionRecall_recall_no_NaN perf) as (recall & precision & H1 & H2 & H3).
  - repeat split.
  - unfold is_int, int_min, int_max. repeat constructor; lia.
  - exists recall, precision. repeat split; try assumption;
      apply H2; reflexivity.
Defined.

(** ** On the sweeps [EvalPerformance] returns *)

Lemma sweep_aligned (tr : list float) (c : counters) :
  aligned_sweep (sweep tr c) /\ Forall is_int (Tp (sweep tr c)).
Proof.
  unfold aligned_sweep, Performance_Len. cbn. rewrite !length_map.
  repeat split. apply Forall_map, Forall_forall. intros t _.
  apply wrap64_is_int.
Qed.


(* ------------------------------------------------------------------ *)
(** * What the sweep counts *)

Lemma count_app {A : Type} (f : A -> bool) (l1 l2 : list A) :
  count f (l1 ++ l2) = (count f l1 + count f l2)%Z.
Proof. unfold count. rewrite filter_app, length_app. lia. Qed.

Lemma count_one {A : Type} (f : A -> bool) (a : A) :
  count f [a] = if f a then 1%Z else 0%Z.
Proof. unfold count. cbn. destruct (f a); reflexivity. Qed.

Lemma count_nonneg {A : Type} (f : A -> bool) (l : list A) :
  (0 <= count f l <= Z.of_nat (length l))%Z.
Proof.
  unfold count. pose proof (filter_length_le f l). lia.
Qed.

Lemma count_Permutation {A : Type} (f : A -> bool) (l1 l2 : list A) :
  Permutation l1 l2 -> count f l1 = count f l2.
Proof.
  unfold count. induction 1 as [ | x l1 l2 Hp IH | x y l | l1 l2 l3 H1 IH1 H2 IH2];
    cbn.
  - reflexivity.
  - destruct (f x); cbn; lia.
  - destruct (f x), (f y); cbn; lia.
  - lia.
Qed.

Lemma count_ext_in {A : Type} (f g : A -> bool) (l : list A) :
  (forall a, In a l -> f a = g a) -> count f l = count g l.
Proof. intros H. unfold count. now rewrite (filter_ext_in f g l H). Qed.

Lemma count_split {A : Type} (f g : A -> bool) (l : list A) :
  count g l = (count (fun a => f a && g a) l
               + count (fun a => negb (f a) && g a) l)%Z.
Proof.
  unfold count.
  assert (H : length (filter g l)
              = (length (filter (fun a => f a && g a) l)
                 + length (filter (fun a => negb (f a) && g a) l))%nat).
  { induction l as [ | a l IH]; cbn [filter]; [reflexivity | ].
    destruct (f a), (g a); cbn [andb negb length]; lia. }
  lia.
Qed.

Lemma count_all_upto (lab r : Z) (l : list (float * Z)) :
  Forall (fun p => rank (fst p) <= r)%Z l ->
  count_upto lab r l = count_all lab l.
Proof.
  intros H. apply count_ext_in. intros p Hp.
  rewrite Forall_forall in H. specialize (H p Hp).
  destruct (Z.leb_spec (rank (fst p)) r); [reflexivity | lia].
Qed.

(** One round of the loop on the next pair of an ascending list. *)
Lemma counted_step (done : list (float * Z)) (c : counters)
    (v : float) (lab np nn : Z) :
  counted done c ->
  nonnan v ->
  Forall nonnan (map_keys (n_pos_map c)) ->
  Forall (fun t => rank t <= rank v)%Z (map_keys (n_pos_map c)) ->
  Forall (fun p => rank (fst p) <= rank v)%Z done ->
  np = count_all 1 (done ++ [(v, lab)]) ->
  nn = count_all 0 (done ++ [(v, lab)]) ->
  counted (done ++ [(v, lab)])
    {| n_pos := np; n_neg := nn;
       n_pos_map := map_set (n_pos_map c) v np;
       n_neg_map := map_set (n_neg_map c) v nn |}.
Proof.
  intros [Hp Hn Hg] Nv Nk Bk Bd Enp Enn.
  constructor; cbn [n_pos n_neg n_pos_map n_neg_map]; try assumption.
  intros t Ht. rewrite !map_get_set.
  destruct (f64_eq v t) eqn:E.
  - apply f64_eq_spec in E. destruct E as (_ & _ & E). rewrite <- E.
    rewrite !count_all_upto; [auto | | ].
    + apply Forall_app. split; [exact Bd | ]. constructor; [cbn; lia | constructor].
    + apply Forall_app. split; [exact Bd | ]. constructor; [cbn; lia | constructor].
  - apply map_set_In in Ht. destruct Ht as [-> | Ht].
    + unfold nonnan, isNaN in Nv. rewrite E in Nv. discriminate.
    + rewrite Forall_forall in Nk, Bk.
      pose proof (Nk _ Ht) as Nt. pose proof (Bk _ Ht) as Bt.
      apply f64_eq_false in E; try assumption.
      destruct (Hg t Ht) as (G1 & G2). rewrite G1, G2.
      unfold count_upto. rewrite !count_app, !count_one. cbn [fst snd].
      destruct (Z.leb_spec (rank v) (rank t)); [lia | ]. cbn [andb]. lia.
Qed.

Lemma count_all_snoc (lab : Z) (done : list (float * Z)) (v : float) (l : Z) :
  count_all lab (done ++ [(v, l)])
  = (count_all lab done + if (l =? lab)%Z then 1 else 0)%Z.
Proof.
  unfold count_all. now rewrite count_app, count_one.
Qed.

Lemma count_pairs_counted (l : list (float * Z)) :
  forall (done : list (float * Z)) (c c' : counters),
  counters_ok (Z.of_nat (length done)) c ->
  counted done c ->
  Forall valid_label (map snd l) ->
  (Z.of_nat (length (done ++ l)) <= int_max)%Z ->
  Forall nonnan (map fst l) ->
  ascending (fun p => rank (fst p)) (done ++ l) ->
  Forall nonnan (map_keys (n_pos_map c)) ->
  Forall (fun t => Forall (fun p => rank t <= rank (fst p))%Z l)
         (map_keys (n_pos_map c)) ->
  count_pairs l c = inr c' ->
  counted (done ++ l) c'.
Proof.
  induction l as [ | [v lab] l IH];
    intros done c c' Hok Hcd Hl Hlen Nl Sl Nk Bk Hc.
  - cbn in Hc. injection Hc as <-. now rewrite app_nil_r.
  - cbn [map snd fst] in Hl, Nl.
    inversion Hl as [ | ? ? Hlab Hl']; subst.
    inversion Nl as [ | ? ? Nv Nl']; subst.
    assert (Eapp : done ++ (v, lab) :: l = (done ++ [(v, lab)]) ++ l)
      by (rewrite <- app_assoc; reflexivity).
    rewrite Eapp in Sl, Hlen |- *.
    assert (Bd : Forall (fun p => rank (fst p) <= rank v)%Z done).
    { unfold ascending in Sl. rewrite <- Eapp in Sl.
      apply Forall_forall. intros p Hp.
      apply In_nth_error in Hp. destruct Hp as (n & Hn).
      assert (Ln : (n < length done)%nat) by (apply nth_error_Some; congruence).
      apply (StronglySorted_nth_error _ _ Sl n (length done) p (v, lab)).
      - exact Ln.
      - rewrite nth_error_app1 by exact Ln. exact Hn.
      - rewrite nth_error_app2, Nat.sub_diag by lia. reflexivity. }
    assert (Bv : Forall (fun t => rank t <= rank v)%Z (map_keys (n_pos_map c))).
    { eapply Forall_impl; [ | exact Bk]. cbn. intros a Ha. now inversion Ha. }
    assert (Fv : Forall (fun p => rank v <= rank (fst p))%Z l).
    { unfold ascending in Sl. rewrite <- Eapp in Sl.
      apply Forall_forall. intros p Hp.
      apply In_nth_error in Hp. destruct Hp as (n & Hn).
      apply (StronglySorted_nth_error _ _ Sl (length done) (length done + S n)
               (v, lab) p).
      - lia.
      - rewrite nth_error_app2, Nat.sub_diag by lia. reflexivity.
      - rewrite nth_error_app2 by lia.
        replace (length done + S n - length done)%nat with (S n) by lia.
        exact Hn. }
    pose proof Hok as [Hp Hn Hs Hkeys Hgp Hgn].
    rewrite length_app in Hlen. cbn [length] in Hlen.
    rewrite length_app in Hlen. cbn [length] in Hlen.
    unfold int_max in Hlen.
    pose proof (count_nonneg (fun p : float * Z => (snd p =? 1)%Z) done) as C1.
    pose proof (count_nonneg (fun p : float * Z => (snd p =? 0)%Z) done) as C0.
    destruct Hcd as [Ep En Eg].
    assert (Hcd : counted done c) by (constructor; assumption).
    fold (count_all 1 done) in C1. fold (count_all 0 done) in C0.
    assert (Knext : forall m' n, map_keys m' = map_keys (n_pos_map c) ->
              Forall nonnan (map_keys (map_set m' v n)) /\
              Forall (fun t => Forall (fun p => rank t <= rank (fst p))%Z l)
                     (map_keys (map_set m' v n))).
    { intros m' n Hm'. split; apply Forall_forall; intros k0 Hk0;
        apply map_set_In in Hk0; destruct Hk0 as [-> | Hk0];
        try assumption; rewrite Hm' in Hk0.
      - rewrite Forall_forall in Nk. now apply Nk.
      - rewrite Forall_forall in Bk. specialize (Bk _ Hk0). now inversion Bk. }
    cbn [count_pairs] in Hc.
    destruct Hlab as [-> | ->]; cbn [Z.eqb] in Hc;
      rewrite int_add_id in Hc by (unfold is_int, int_min, int_max; lia).
    + eapply (IH (done ++ [(v, 0%Z)])); [ | | exact Hl' | | exact Nl' | exact Sl
                                         | | | exact Hc].
      * rewrite length_app. cbn [length].
        replace (Z.of_nat (length done + 1)) with (Z.of_nat (length done) + 1)%Z
          by lia.
        constructor; cbn; try lia; try (now apply map_keys_set);
          intros t; specialize (Hgp t); specialize (Hgn t);
          rewrite map_get_set; destruct (f64_eq v t); lia.
      * apply (counted_step done c v 0%Z);
          try assumption; rewrite count_all_snoc; cbn; lia.
      * rewrite !length_app. cbn [length]. unfold int_max. lia.
      * apply (Knext (n_pos_map c)). reflexivity.
      * apply (Knext (n_pos_map c)). reflexivity.
    + eapply (IH (done ++ [(v, 1%Z)])); [ | | exact Hl' | | exact Nl' | exact Sl
                                         | | | exact Hc].
      * rewrite length_app. cbn [length].
        replace (Z.of_nat (length done + 1)) with (Z.of_nat (length done) + 1)%Z
          by lia.
        constructor; cbn; try lia; try (now apply map_keys_set);
          intros t; specialize (Hgp t); specialize (Hgn t);
          rewrite map_get_set; destruct (f64_eq v t); lia.
      * apply (counted_step done c v 1%Z);
          try assumption; rewrite count_all_snoc; cbn; lia.
      * rewrite !length_app. cbn [length]. unfold int_max. lia.
      * apply (Knext (n_pos_map c)). reflexivity.
      * apply (Knext (n_pos_map c)). reflexivity.
Qed.

(** ** The sweep in closed form *)

Lemma count_map {A B : Type} (g : A -> B) (f : B -> bool) (l : list A) :
  count (fun a => f (g a)) l = count f (map g l).
Proof.
  unfold count. f_equal.
  induction l as [ | a l IH]; cbn; [reflexivity | ].
  destruct (f (g a)); cbn; now rewrite IH.
Qed.

Lemma count_all_labels (lab : Z) (values : list float) (labels : list Z) :
  length values = length labels ->
  count_all lab (combine values labels) = count_label lab labels.
Proof.
  intros Hal. unfold count_all, count_label.
  rewrite (count_map snd (fun l => (l =? lab)%Z)).
  now rewrite map_snd_combine.
Qed.

Lemma strictly_sorted_unique (l1 : list Z) :
  forall l2,
  StronglySorted Z.lt l1 -> StronglySorted Z.lt l2 ->
  (forall z, In z l1 <-> In z l2) -> l1 = l2.
Proof.
  induction l1 as [ | x l1 IH]; intros [ | y l2] S1 S2 Hin.
  - reflexivity.
  - exfalso. apply (proj2 (Hin y)). now left.
  - exfalso. apply (proj1 (Hin x)). now left.
  - inversion S1 as [ | ? ? S1' F1]; subst.
    inversion S2 as [ | ? ? S2' F2]; subst.
    rewrite Forall_forall in F1, F2.
    assert (Exy : x = y).
    { destruct (proj1 (Hin x) (or_introl eq_refl)) as [E | Hx]; [now symmetry | ].
      destruct (proj2 (Hin y) (or_introl eq_refl)) as [E | Hy]; [exact E | ].
      specialize (F1 _ Hy). specialize (F2 _ Hx). lia. }
    subst y. f_equal. apply IH; try assumption.
    intros z. split; intros Hz.
    + destruct (proj1 (Hin z) (or_intror Hz)) as [E | Hz']; [ | exact Hz'].
      specialize (F1 _ Hz). lia.
    + destruct (proj2 (Hin z) (or_intror Hz)) as [E | Hz']; [ | exact Hz'].
      specialize (F2 _ Hz). lia.
Qed.

(** The sweep of a valid dataset without NaN, with its thresholds and
    counts spelled out. *)
Lemma EvalPerformance_characterised (values : list float) (labels : list Z) :
  valid_dataset values labels ->
  slice_length_ok values ->
  Forall nonnan values ->
  exists d tr c,
    EvalPerformance values labels = Return (d, (sweep tr c, None)) /\
    counters_ok (Z.of_nat (length values)) c /\
    Forall nonnan tr /\
    strictly_ascending rank tr /\
    (forall z, In z (map rank tr) <-> In z (map rank values)) /\
    n_pos c = count_all 1 (combine values labels) /\
    n_neg c = count_all 0 (combine values labels) /\
    (forall t, In t tr ->
       map_get (n_pos_map c) t = count_upto 1 (rank t) (combine values labels) /\
       map_get (n_neg_map c) t = count_upto 0 (rank t) (combine values labels)).
Proof.
  intros Hv Hlen Nv.
  destruct (EvalPerformance_valid values labels Hv Hlen)
    as (d & c & He & Hd & Hp & Hc & Hok).
  destruct Hv as (Hal & Hne & Hl).
  assert (Hperm : Permutation (pairs d) (combine values labels))
    by (rewrite Hp; apply isort_perm).
  assert (Hpv : Permutation (map fst (pairs d)) values).
  { rewrite <- (map_fst_combine values labels Hal). now apply Permutation_map. }
  assert (Hpl : Permutation (map snd (pairs d)) labels).
  { rewrite <- (map_snd_combine values labels Hal). now apply Permutation_map. }
  assert (Nd : Forall nonnan (map fst (pairs d)))
    by (eapply Permutation_Forall; [symmetry; exact Hpv | exact Nv]).
  assert (Ld : length (pairs d) = length values).
  { rewrite (Permutation_length Hperm), length_combine. lia. }
  destruct (count_pairs_keys (pairs d) counters_init c Hc Nd)
    as (Nk & Dk & Ik); try constructor.
  assert (Hcd : counted (pairs d) c).
  { assert (H2 : counted [] counters_init)
      by (constructor; [reflexivity | reflexivity | intros t []]).
    assert (H3 : Forall valid_label (map snd (pairs d)))
      by (eapply Permutation_Forall; [symmetry; exact Hpl | exact Hl]).
    assert (H4 : (Z.of_nat (length ([] ++ pairs d)) <= int_max)%Z)
      by (cbn [app]; rewrite Ld; exact Hlen).
    assert (H6 : ascending (fun p => rank (fst p)) ([] ++ pairs d)).
    { cbn [app]. rewrite Hp. apply pairs_ascending.
      now rewrite map_fst_combine. }
    exact (count_pairs_counted (pairs d) [] counters_init c
             counters_init_ok H2 H3 H4 Nd H6 (Forall_nil _) (Forall_nil _) Hc). }
  destruct Hcd as [Ep En Eg].
  set (tr := isort Float64s_lt (map_keys (n_pos_map c))) in *.
  assert (Ptr : Permutation tr (map_keys (n_pos_map c))) by apply isort_perm.
  assert (Dtr : NoDup (map rank tr)).
  { eapply Permutation_NoDup; [ | exact Dk].
    symmetry. apply Permutation_map. exact Ptr. }
  exists d, tr, c. split; [exact He | ]. split; [exact Hok | ].
  split; [eapply Permutation_Forall; [symmetry; exact Ptr | exact Nk] | ].
  split; [apply ascending_NoDup_strict;
          [apply Float64s_ascending | exact Dtr] | ].
  split.
  { intros z. transitivity (In z (ranks (n_pos_map c))).
    - split; apply Permutation_in; [ | symmetry]; apply Permutation_map, Ptr.
    - rewrite Ik. cbn.
      split; [intros [[] | Hz] | intros Hz; right];
        revert Hz; apply Permutation_in; [ | symmetry];
        apply Permutation_map, Hpv. }
  unfold count_all, count_upto in *.
  rewrite <- !(count_Permutation _ _ _ Hperm).
  split; [exact Ep | ]. split; [exact En | ].
  intros t Ht.
  rewrite <- !(count_Permutation _ _ _ Hperm).
  apply Eg. eapply Permutation_in; [exact Ptr | exact Ht].
Qed.

Lemma count_cons {A : Type} (f : A -> bool) (a : A) (l : list A) :
  count f (a :: l) = ((if f a then 1 else 0) + count f l)%Z.
Proof. change (a :: l) with ([a] ++ l). now rewrite count_app, count_one. Qed.

Lemma count_pairs_totals (l : list (float * Z)) :
  forall (c c' : counters) (k : Z),
  counters_ok k c ->
  Forall valid_label (map snd l) ->
  (k + Z.of_nat (length l) <= int_max)%Z ->
  count_pairs l c = inr c' ->
  n_pos c' = (n_pos c + count_all 1 l)%Z /\
  n_neg c' = (n_neg c + count_all 0 l)%Z.
Proof.
  induction l as [ | [v lab] l IH]; intros c c' k Hok Hl Hk Hc.
  - cbn in Hc. injection Hc as <-. unfold count_all, count. cbn. lia.
  - cbn [map snd] in Hl. inversion Hl as [ | ? ? Hlab Hl']; subst.
    cbn [length] in Hk. rewrite Nat2Z.inj_succ in Hk. unfold int_max in Hk.
    pose proof Hok as [Hp Hn Hs Hkeys Hgp Hgn].
    unfold count_all. rewrite !count_cons. cbn [snd]. fold (count_all 1 l).
    fold (count_all 0 l).
    cbn [count_pairs] in Hc.
    destruct Hlab as [-> | ->]; cbn [Z.eqb] in Hc;
      rewrite int_add_id in Hc by (unfold is_int, int_min, int_max; lia).
    + eapply IH with (k := (k + 1)%Z) in Hc.
      * destruct Hc as (I1 & I2). cbn [n_pos n_neg] in I1, I2.
        change (0 =? 1)%Z with false. change (0 =? 0)%Z with true.
        cbv beta iota. lia.
      * constructor; cbn; try lia; try (now apply map_keys_set);
          intros t; specialize (Hgp t); specialize (Hgn t);
          rewrite map_get_set; destruct (f64_eq v t); lia.
      * exact Hl'.
      * unfold int_max. lia.
    + eapply IH with (k := (k + 1)%Z) in Hc.
      * destruct Hc as (I1 & I2). cbn [n_pos n_neg] in I1, I2.
        change (1 =? 1)%Z with true. change (1 =? 0)%Z with false.
        cbv beta iota. lia.
      * constructor; cbn; try lia; try (now apply map_keys_set);
          intros t; specialize (Hgp t); specialize (Hgn t);
          rewrite map_get_set; destruct (f64_eq v t); lia.
      * exact Hl'.
      * unfold int_max. lia.
Qed.

Lemma samples_at_most_rank (t : float) (lab : Z)
    (values : list float) (labels : list Z) :
  length values = length labels -> Forall nonnan values -> nonnan t ->
  samples_at_most t lab values labels
  = count_upto lab (rank t) (combine values labels).
Proof.
  intros Hal Nv Nt. apply count_ext_in. intros [v l] Hin. cbn [fst snd].
  f_equal. apply in_combine_l in Hin. rewrite Forall_forall in Nv.
  specialize (Nv v Hin).
  destruct (Z.leb_spec (rank v) (rank t)) as [L | L].
  - apply f64_le_spec. auto.
  - pose proof (f64_le_spec v t) as S.
    destruct (f64_le v t); [ | reflexivity].
    destruct S as [S _]. specialize (S eq_refl). lia.
Qed.

Lemma samples_above_rank (t : float) (lab : Z)
    (values : list float) (labels : list Z) :
  length values = length labels -> Forall nonnan values -> nonnan t ->
  samples_above t lab values labels
  = (count_all lab (combine values labels)
     - count_upto lab (rank t) (combine values labels))%Z.
Proof.
  intros Hal Nv Nt. unfold count_all, count_upto.
  rewrite (count_split (fun p => (rank (fst p) <=? rank t)%Z)
             (fun p : float * Z => (snd p =? lab)%Z)).
  match goal with |- _ = (?a + ?b - ?a)%Z => replace (a + b - a)%Z with b by lia end.
  apply count_ext_in. intros [v l] Hin. cbn [fst snd].
  f_equal. apply in_combine_l in Hin. rewrite Forall_forall in Nv.
  specialize (Nv v Hin).
  destruct (Z.leb_spec (rank v) (rank t)) as [L | L]; cbn [negb].
  - now apply f64_gt_false.
  - apply f64_gt_spec. auto.
Qed.

(** X2: on a valid dataset without NaN scores, the row of the sweep at
    threshold [t] is the confusion matrix of the rule "positive when the
    score is greater than t": [Tp] and [Fp] count the samples of label 1
    and 0 with a score [> t], [Fn] and [Tn] those with a score [<= t]. *)
Theorem EvalPerformance_confusion_matrix
    (values : list float) (labels : list Z) :
  valid_dataset values labels ->
  slice_length_ok values ->
  Forall nonnan values ->
  exists d perf,
    EvalPerformance values labels = Return (d, (perf, None)) /\
    forall i t, nth_error (Tr perf) i = Some t ->
      nth_error (Tp perf) i = Some (samples_above t 1 values labels) /\
      nth_error (Fp perf) i = Some (samples_above t 0 values labels) /\
      nth_error (Tn perf) i = Some (samples_at_most t 0 values labels) /\
      nth_error (Fn perf) i = Some (samples_at_most t 1 values labels).
Proof.
  intros Hv Hlen Nv.
  destruct (EvalPerformance_characterised values labels Hv Hlen Nv)
    as (d & tr & c & He & Hok & Ntr & Str & Itr & Ep & En & Eg).
  destruct Hv as (Hal & Hne & Hl).
  exists d, (sweep tr c). split; [exact He | ].
  intros i t Ht. cbn [Tr Tp Fp Tn Fn sweep] in *.
  rewrite !nth_error_map, Ht. cbn [option_map].
  assert (Hin : In t tr) by (eapply nth_error_In; eassumption).
  rewrite Forall_forall in Ntr. pose proof (Ntr t Hin) as Nt.
  destruct (Eg t Hin) as (G1 & G2).
  destruct Hok as [Hp Hn Hs _ Hgp Hgn].
  specialize (Hgp t). specialize (Hgn t).
  unfold slice_length_ok, int_max in Hlen.
  rewrite !int_sub_id by (unfold is_int, int_min, int_max; lia).
  rewrite !samples_above_rank, !samples_at_most_rank by assumption.
  rewrite G1, G2, Ep, En. auto.
Qed.

(** X2, witness: scores 0.25, 0.5, 0.5, 0.75; at threshold 0.5 one positive
    is above and two samples of either label are at most 0.5. *)
Lemma EvalPerformance_confusion_matrix_witness :
  exists d perf,
    EvalPerformance [0.5; 0.25; 0.5; 0.75]%float [1; 0; 0; 1]%Z
    = Return (d, (perf, None)) /\
    (forall i, nth_error (Tr perf) i = Some 0.5%float ->
       nth_error (Tp perf) i = Some 1%Z /\ nth_error (Fn perf) i = Some 1%Z).
Proof.
  destruct (EvalPerformance_confusion_matrix
              [0.5; 0.25; 0.5; 0.75]%float [1; 0; 0; 1]%Z)
    as (d & perf & He & Hrow).
  - valid_dataset_now.
  - unfold slice_length_ok, int_max. cbn. lia.
  - repeat constructor.
  - exists d, perf. split; [exact He | ]. intros i Hi.
    destruct (Hrow i _ Hi) as (H1 & _ & _ & H4). split; assumption.
Defined.

Lemma count_positive {A : Type} (f : A -> bool) (l : list A) (a : A) :
  In a l -> f a = true -> (1 <= count f l)%Z.
Proof.
  intros Hin Hf. unfold count.
  assert (Hin' : In a (filter f l)) by (apply filter_In; auto).
  destruct (filter f l); [destruct Hin' | cbn; lia].
Qed.

Lemma In_combine_l_aligned {A B : Type} (s : list A) (t : list B) (a : A) :
  length s = length t -> In a s -> exists b, In (a, b) (combine s t).
Proof.
  intros Hal Hin. apply In_nth_error in Hin. destruct Hin as (n & Hn).
  assert (Ln : (n < length s)%nat) by (apply nth_error_Some; congruence).
  destruct (nth_error t n) as [b | ] eqn:Hb;
    [ | apply nth_error_None in Hb; lia].
  exists b. apply (nth_error_In _ n). now apply nth_error_combine.
Qed.

(** X3: on a valid dataset without NaN scores the sweep has at least one
    row, every row counts at least one sample as predicted negative
    ([Tn[i] + Fn[i] >= 1]: no row predicts every sample positive), and the
    last row predicts no sample positive ([Tp] and [Fp] are 0 there). *)
Theorem EvalPerformance_rows (values : list float) (labels : list Z) :
  valid_dataset values labels ->
  slice_length_ok values ->
  Forall nonnan values ->
  exists d perf,
    EvalPerformance values labels = Return (d, (perf, None)) /\
    (1 <= Performance_Len perf)%nat /\
    (forall i tn fn,
       nth_error (Tn perf) i = Some tn -> nth_error (Fn perf) i = Some fn ->
       (1 <= tn + fn)%Z) /\
    nth_error (Tp perf) (Performance_Len perf - 1) = Some 0%Z /\
    nth_error (Fp perf) (Performance_Len perf - 1) = Some 0%Z.
Proof.
  intros Hv Hlen Nv.
  destruct (EvalPerformance_characterised values labels Hv Hlen Nv)
    as (d & tr & c & He & Hok & Ntr & Str & Itr & Ep & En & Eg).
  destruct Hv as (Hal & Hne & Hl).
  exists d, (sweep tr c). split; [exact He | ].
  unfold Performance_Len. cbn [Tr Tp Fp Tn Fn sweep].
  assert (Hlen1 : (1 <= length tr)%nat).
  { destruct values as [ | v values]; [cbn in Hne; lia | ].
    assert (Hz : In (rank v) (map rank tr)) by (apply Itr; now left).
    destruct tr; [destruct Hz | cbn; lia]. }
  split; [exact Hlen1 | ]. split.
  - intros i tn fn Htn Hfn. rewrite nth_error_map in Htn, Hfn.
    destruct (nth_error tr i) as [t | ] eqn:Ht; try discriminate.
    cbn in Htn, Hfn. injection Htn as <-. injection Hfn as <-.
    assert (Hin : In t tr) by (eapply nth_error_In; eassumption).
    destruct (Eg t Hin) as (G1 & G2). rewrite G1, G2.
    assert (Hz : In (rank t) (map rank values)) by (apply Itr; now apply in_map).
    apply in_map_iff in Hz. destruct Hz as (v & Hr & Hv).
    destruct (In_combine_l_aligned values labels v Hal Hv) as (l & Hvl).
    assert (Hlab : valid_label l).
    { rewrite Forall_forall in Hl. apply Hl.
      eapply in_combine_r; eassumption. }
    pose proof (count_nonneg
      (fun p : float * Z => (rank (fst p) <=? rank t)%Z && (snd p =? 0)%Z)
      (combine values labels)) as C0.
    pose proof (count_nonneg
      (fun p : float * Z => (rank (fst p) <=? rank t)%Z && (snd p =? 1)%Z)
      (combine values labels)) as C1.
    unfold count_upto.
    destruct Hlab as [-> | ->].
    + assert (1 <= count (fun p : float * Z =>
                (rank (fst p) <=? rank t)%Z && (snd p =? 0)%Z)
                (combine values labels))%Z; [ | lia].
      apply (count_positive _ _ _ Hvl). cbn [fst snd].
      rewrite Hr, Z.leb_refl. reflexivity.
    + assert (1 <= count (fun p : float * Z =>
                (rank (fst p) <=? rank t)%Z && (snd p =? 1)%Z)
                (combine values labels))%Z; [ | lia].
      apply (count_positive _ _ _ Hvl). cbn [fst snd].
      rewrite Hr, Z.leb_refl. reflexivity.
  - destruct (nth_error tr (length tr - 1)) as [t | ] eqn:Ht;
      [ | apply nth_error_None in Ht; lia].
    assert (Hin : In t tr) by (eapply nth_error_In; eassumption).
    assert (Hmax : Forall (fun p => rank (fst p) <= rank t)%Z
                     (combine values labels)).
    { apply Forall_forall. intros [v l] Hvl. cbn [fst].
      assert (Hz : In (rank v) (map rank tr)).
      { apply Itr. apply in_map. eapply in_combine_l; eassumption. }
      apply in_map_iff in Hz. destruct Hz as (t' & Hr & Ht').
      apply In_nth_error in Ht'. destruct Ht' as (n & Hn).
      assert (Ln : (n < length tr)%nat) by (apply nth_error_Some; congruence).
      rewrite <- Hr.
      destruct (Nat.eq_dec n (length tr - 1)) as [-> | Hne'].
      - rewrite Ht in Hn. injection Hn as ->. lia.
      - assert (rank t' < rank t)%Z; [ | lia].
        apply (StronglySorted_nth_error _ _ Str n (length tr - 1)); try assumption.
        lia. }
    destruct (Eg t Hin) as (G1 & G2).
    rewrite !nth_error_map, Ht. cbn [option_map].
    rewrite G1, G2, !count_all_upto, <- Ep, <- En by assumption.
    unfold int_sub. rewrite !Z.sub_diag. split; reflexivity.
Qed.

(** X3, witness. *)
Lemma EvalPerformance_rows_witness :
  exists d perf,
    EvalPerformance [0.5; 0.25; 0.5; 0.75]%float [1; 0; 0; 1]%Z
    = Return (d, (perf, None)) /\
    (1 <= Performance_Len perf)%nat /\
    nth_error (Tp perf) (Performance_Len perf - 1) = Some 0%Z.
Proof.
  destruct (EvalPerformance_rows [0.5; 0.25; 0.5; 0.75]%float [1; 0; 0; 1]%Z)
    as (d & perf & He & H1 & _ & H3 & _).
  - valid_dataset_now.
  - unfold slice_length_ok, int_max. cbn. lia.
  - repeat constructor.
  - exists d, perf. auto.
Defined.

Lemma map_rank_Forall2 (s s' : list float) :
  Forall nonnan s -> Forall nonnan s' -> map rank s = map rank s' ->
  Forall2 (fun t t' => f64_eq t t' = true) s s'.
Proof.
  revert s'. induction s as [ | t s IH]; intros [ | t' s'] Ns Ns' E;
    cbn in E; try discriminate; constructor.
  - inversion Ns; inversion Ns'; subst. injection E as E1 _.
    apply f64_eq_spec. auto.
  - inversion Ns; inversion Ns'; subst. injection E as _ E2. now apply IH.
Qed.

(** X4: the sweep does not depend on the order of the input rows.  Two
    valid datasets without NaN that hold the same (score, label) pairs in
    any order give the same counts, row by row, and thresholds that are
    pairwise [==]. *)
Theorem EvalPerformance_order_independent
    (values values' : list float) (labels labels' : list Z) :
  valid_dataset values labels ->
  length values' = length labels' ->
  slice_length_ok values ->
  Forall nonnan values ->
  Permutation (combine values labels) (combine values' labels') ->
  exists d d' perf perf',
    EvalPerformance values labels = Return (d, (perf, None)) /\
    EvalPerformance values' labels' = Return (d', (perf', None)) /\
    Forall2 (fun t t' => f64_eq t t' = true) (Tr perf) (Tr perf') /\
    Tp perf = Tp perf' /\ Fp perf = Fp perf' /\
    Tn perf = Tn perf' /\ Fn perf = Fn perf' /\
    P perf = P perf' /\ N perf = N perf'.
Proof.
  intros Hv Hal' Hlen Nv Hperm.
  pose proof Hv as (Hal & Hne & Hl).
  assert (Hpv : Permutation values values').
  { rewrite <- (map_fst_combine values labels Hal),
            <- (map_fst_combine values' labels' Hal').
    now apply Permutation_map. }
  assert (Hpl : Permutation labels labels').
  { rewrite <- (map_snd_combine values labels Hal),
            <- (map_snd_combine values' labels' Hal').
    now apply Permutation_map. }
  assert (Hv' : valid_dataset values' labels').
  { split; [exact Hal' | ]. split.
    - rewrite <- (Permutation_length Hpv). exact Hne.
    - eapply Permutation_Forall; eassumption. }
  assert (Hlen' : slice_length_ok values').
  { unfold slice_length_ok in *. now rewrite <- (Permutation_length Hpv). }
  assert (Nv' : Forall nonnan values')
    by (eapply Permutation_Forall; eassumption).
  destruct (EvalPerformance_characterised values labels Hv Hlen Nv)
    as (d & tr & c & He & Hok & Ntr & Str & Itr & Ep & En & Eg).
  destruct (EvalPerformance_characterised values' labels' Hv' Hlen' Nv')
    as (d' & tr' & c' & He' & Hok' & Ntr' & Str' & Itr' & Ep' & En' & Eg').
  exists d, d', (sweep tr c), (sweep tr' c').
  split; [exact He | ]. split; [exact He' | ].
  unfold count_all, count_upto in *.
  rewrite <- (count_Permutation _ _ _ Hperm) in Ep'.
  rewrite <- (count_Permutation _ _ _ Hperm) in En'.
  assert (Er : map rank tr = map rank tr').
  { apply strictly_sorted_unique.
    - apply (StronglySorted_map rank Z.lt). exact Str.
    - apply (StronglySorted_map rank Z.lt). exact Str'.
    - intros z. rewrite Itr, Itr'.
      split; apply Permutation_in; [ | symmetry]; now apply Permutation_map. }
  assert (Epos : n_pos c = n_pos c') by congruence.
  assert (Eneg : n_neg c = n_neg c') by congruence.
  assert (Hrows : forall (f : counters -> float -> Z) (g : Z -> Z),
            (forall t, In t tr -> f c t = g (rank t)) ->
            (forall t, In t tr' -> f c' t = g (rank t)) ->
            map (f c) tr = map (f c') tr').
  { intros f g H1 H2.
    rewrite (map_ext_in _ (fun t => g (rank t)) tr H1).
    rewrite (map_ext_in _ (fun t => g (rank t)) tr' H2).
    rewrite <- !(map_map rank g). now rewrite Er. }
  cbn [Tr Tp Fp Tn Fn P N sweep].
  split; [now apply map_rank_Forall2 | ].
  repeat split; try assumption.
  - apply (Hrows (fun c t => int_sub (n_pos c) (map_get (n_pos_map c) t))
             (fun z => int_sub (n_pos c)
                (count (fun p : float * Z => (rank (fst p) <=? z)%Z
                                             && (snd p =? 1)%Z)
                       (combine values labels)))).
    + intros t Ht. now rewrite (proj1 (Eg t Ht)).
    + intros t Ht. rewrite (proj1 (Eg' t Ht)), <- Epos.
      now rewrite <- (count_Permutation _ _ _ Hperm).
  - apply (Hrows (fun c t => int_sub (n_neg c) (map_get (n_neg_map c) t))
             (fun z => int_sub (n_neg c)
                (count (fun p : float * Z => (rank (fst p) <=? z)%Z
                                             && (snd p =? 0)%Z)
                       (combine values labels)))).
    + intros t Ht. now rewrite (proj2 (Eg t Ht)).
    + intros t Ht. rewrite (proj2 (Eg' t Ht)), <- Eneg.
      now rewrite <- (count_Permutation _ _ _ Hperm).
  - apply (Hrows (fun c t => map_get (n_neg_map c) t)
             (fun z => count (fun p : float * Z => (rank (fst p) <=? z)%Z
                                                  && (snd p =? 0)%Z)
                         (combine values labels))).
    + intros t Ht. now rewrite (proj2 (Eg t Ht)).
    + intros t Ht. rewrite (proj2 (Eg' t Ht)).
      now rewrite <- (count_Permutation _ _ _ Hperm).
  - apply (Hrows (fun c t => map_get (n_pos_map c) t)
             (fun z => count (fun p : float * Z => (rank (fst p) <=? z)%Z
                                                  && (snd p =? 1)%Z)
                         (combine values labels))).
    + intros t Ht. now rewrite (proj1 (Eg t Ht)).
    + intros t Ht. rewrite (proj1 (Eg' t Ht)).
      now rewrite <- (count_Permutation _ _ _ Hperm).
Qed.

(** X4, witness: the same four rows in two orders. *)
Lemma EvalPerformance_order_independent_witness :
  exists d d' perf perf',
    EvalPerformance [0.5; 0.25; 0.5; 0.75]%float [1; 0; 0; 1]%Z
    = Return (d, (perf, None)) /\
    EvalPerformance [0.75; 0.5; 0.5; 0.25]%float [1; 0; 1; 0]%Z
    = Return (d', (perf', None)) /\
    Tp perf = Tp perf' /\ Fp perf = Fp perf'.
Proof.
  destruct (EvalPerformance_order_independent
              [0.5; 0.25; 0.5; 0.75]%float [0.75; 0.5; 0.5; 0.25]%float
              [1; 0; 0; 1]%Z [1; 0; 1; 0]%Z)
    as (d & d' & perf & perf' & He & He' & _ & H1 & H2 & _).
  - valid_dataset_now.
  - reflexivity.
  - unfold slice_length_ok, int_max. cbn. lia.
  - repeat constructor.
  - cbn [combine].
    (* rows 1 2 3 4 against rows 4 3 1 2 *)
    eapply perm_trans; [apply Permutation_rev | ].
    cbn [rev app]. do 2 apply perm_skip. apply perm_swap.
  - exists d, d', perf, perf'. auto.
Defined.

(* ------------------------------------------------------------------ *)
(** * The error of EvalPerformance *)

Lemma count_pairs_error_value (l : list (float * Z)) :
  forall c e, count_pairs l c = inl e ->
  exists lab, e = invalid_label lab /\ In lab (map snd l) /\ ~ valid_label lab.
Proof.
  induction l as [ | [v lab] l IH]; intros c e Hc; cbn [count_pairs] in Hc.
  - discriminate.
  - destruct (Z.eqb_spec lab 1) as [E1 | E1].
    { destruct (IH _ _ Hc) as (lab' & H1 & H2 & H3).
      exists lab'. cbn. auto. }
    destruct (Z.eqb_spec lab 0) as [E0 | E0].
    { destruct (IH _ _ Hc) as (lab' & H1 & H2 & H3).
      exists lab'. cbn. auto. }
    injection Hc as <-. exists lab. cbn. repeat split; auto.
    unfold valid_label. lia.
Qed.

(* ------------------------------------------------------------------ *)
(** * Roc *)

Lemma Roc_loop (perf : Performance) (tps : list Z) :
  forall (fps dtp dfp : list Z) (dt df : list float),
  Tp perf = dtp ++ tps -> Fp perf = dfp ++ fps ->
  length fps = length tps ->
  length dtp = length dt -> length dfp = length dt -> length df = length dt ->
  for_loop (length dt) (length tps) (Roc_body perf)
    (dt ++ repeat 0%float (length tps), df ++ repeat 0%float (length tps))
  = Return
      (dt ++ map (fun tp => (float64_of_int tp / float64_of_int (P perf))%float)
                 tps,
       df ++ map (fun fp => (float64_of_int fp / float64_of_int (N perf))%float)
                 fps).
Proof.
  induction tps as [ | tp tps IH];
    intros [ | fp fps] dtp dfp dt df Htp Hfp Lfp Ldtp Ldfp Ldf;
    try discriminate; [reflexivity | ].
  cbn [length] in Lfp.
  cbn [length for_loop repeat map]. unfold Roc_body at 1.
  assert (Itp : index (Tp perf) (length dt) = Return tp).
  { apply index_Some. rewrite Htp, <- Ldtp. apply nth_error_middle. }
  assert (Ifp : index (Fp perf) (length dt) = Return fp).
  { apply index_Some. rewrite Hfp, <- Ldfp. apply nth_error_middle. }
  rewrite Itp. cbn [bind]. rewrite assign_middle. cbn [bind].
  rewrite Ifp. cbn [bind].
  rewrite <- Ldf at 1. rewrite assign_middle. cbn [bind].
  specialize (IH fps (dtp ++ [tp]) (dfp ++ [fp])
                (dt ++ [(float64_of_int tp / float64_of_int (P perf))%float])
                (df ++ [(float64_of_int fp / float64_of_int (N perf))%float])).
  rewrite <- !app_assoc in IH. cbn [app] in IH.
  rewrite !length_app in IH. cbn [length] in IH.
  replace (length dt + 1)%nat with (S (length dt)) in IH by lia.
  apply IH; try assumption; lia.
Qed.

(** [Roc] as a function of the sweep. *)
Lemma Roc_lists (perf : Performance) :
  length (Tp perf) = Performance_Len perf ->
  length (Fp perf) = Performance_Len perf ->
  Roc perf
  = Return
      (map (fun fp => (float64_of_int fp / float64_of_int (N perf))%float)
           (Fp perf),
       map (fun tp => (float64_of_int tp / float64_of_int (P perf))%float)
           (Tp perf)).
Proof.
  intros Ltp Lfp. unfold Roc. rewrite repeat_length, <- Ltp.
  pose proof (Roc_loop perf (Tp perf) (Fp perf) [] [] [] []) as Hloop.
  cbn [app length] in Hloop. rewrite Hloop; try reflexivity. lia.
Qed.

Lemma float64_of_int_div_nonnan_r (a b : Z) :
  is_int a -> is_int b -> b <> 0%Z ->
  nonnan (float64_of_int a / float64_of_int b)%float.
Proof.
  intros Ha Hb Hne.
  destruct (Z.eq_dec a 0) as [-> | Ha0];
    [ | now apply float64_of_int_div_nonnan].
  apply nonnan_spec. rewrite div_spec.
  destruct (float64_of_int_finite 0 Ha) as [(_ & s & ->) | (H0 & _)];
    [ | contradiction].
  destruct (float64_of_int_finite b Hb) as [(Hb0 & _) | (_ & s' & m & e & ->)];
    [contradiction | ].
  discriminate.
Qed.

(** X6: on a sweep whose [Tp] and [Fp] have the length of [Tr], [Roc]
    returns the false-positive rates first and the true-positive rates
    second, [fpr[i] = Fp[i] / N] and [tpr[i] = Tp[i] / P], both of the
    length of the sweep; when [P] and [N] are not zero no entry is NaN. *)
Theorem Roc_rates (perf : Performance) :
  length (Tp perf) = Performance_Len perf ->
  length (Fp perf) = Performance_Len perf ->
  exists fpr tpr,
    Roc perf = Return (fpr, tpr) /\
    length fpr = Performance_Len perf /\
    length tpr = Performance_Len perf /\
    (forall i fp, nth_error (Fp perf) i = Some fp ->
       nth_error fpr i
       = Some (float64_of_int fp / float64_of_int (N perf))%float) /\
    (forall i tp, nth_error (Tp perf) i = Some tp ->
       nth_error tpr i
       = Some (float64_of_int tp / float64_of_int (P perf))%float) /\
    (Forall is_int (Fp perf) -> is_int (N perf) -> N perf <> 0%Z ->
       Forall nonnan fpr) /\
    (Forall is_int (Tp perf) -> is_int (P perf) -> P perf <> 0%Z ->
       Forall nonnan tpr).
Proof.
  intros Ltp Lfp. eexists. eexists.
  split; [now apply Roc_lists | ].
  rewrite !length_map.
  split; [exact Lfp | ]. split; [exact Ltp | ].
  split; [intros i fp Hi; now rewrite nth_error_map, Hi | ].
  split; [intros i tp Hi; now rewrite nth_error_map, Hi | ].
  split; intros Hint HT Hne; apply Forall_map;
    (eapply Forall_impl; [ | exact Hint]); cbn; intros a Ha;
    now apply float64_of_int_div_nonnan_r.
Qed.

(** X6, witness. *)
Lemma Roc_rates_witness :
  let perf := {| Tr := [0.25; 0.5; 0.75]%float;
                 Tp := [2; 1; 0]%Z; Fp := [1; 0; 0]%Z;
                 Tn := [1; 2; 2]%Z; Fn := [1; 2; 3]%Z;
                 P := 3; N := 2 |} in
  exists fpr tpr,
    Roc perf = Return (fpr, tpr) /\
    nth_error fpr 0 = Some 0.5%float /\
    Forall nonnan tpr.
Proof.
  intros perf.
  destruct (Roc_rates perf eq_refl eq_refl)
    as (fpr & tpr & H1 & _ & _ & H4 & _ & _ & H7).
  exists fpr, tpr. split; [exact H1 | ]. split.
  - exact (H4 0%nat 1%Z eq_refl).
  - apply H7; unfold is_int, int_min, int_max; cbn;
      repeat constructor; lia.
Defined.

(* ------------------------------------------------------------------ *)
(** * EvalRoc and EvalPrecisionRecall *)

Lemma map_set_nonempty (m : gomap) (v : float) (n : Z) :
  map_keys (map_set m v n) <> [].
Proof.
  destruct (map_set_keys m v n) as [(ks1 & k & ks2 & _ & _ & ->) | (_ & ->)];
    intros H; now apply app_eq_nil in H as [_ H].
Qed.

Lemma count_pairs_nonempty (l : list (float * Z)) :
  forall (c c' : counters),
  count_pairs l c = inr c' ->
  l <> [] \/ map_keys (n_pos_map c) <> [] ->
  map_keys (n_pos_map c') <> [].
Proof.
  induction l as [ | [v lab] l IH]; intros c c' Hc Hne.
  - cbn in Hc. injection Hc as <-. destruct Hne as [Hne | Hne]; congruence.
  - cbn [count_pairs] in Hc.
    destruct (lab =? 1)%Z; [ | destruct (lab =? 0)%Z; [ | discriminate]];
      (eapply IH; [exact Hc | right; cbn [n_pos_map]; apply map_set_nonempty]).
Qed.

(* ------------------------------------------------------------------ *)
(** * Optimum, on any input *)

Lemma index_None {A : Type} (s : list A) (i : nat) :
  (length s <= i)%nat -> index s i = Panic "index out of range".
Proof.
  intros H. unfold index. apply nth_error_None in H. now rewrite H.
Qed.

Lemma index_Return {A : Type} (s : list A) (i : nat) :
  (i < length s)%nat -> exists a, nth_error s i = Some a /\ index s i = Return a.
Proof.
  intros H. unfold index.
  destruct (nth_error s i) as [a | ] eqn:E; [eauto | ].
  apply nth_error_None in E. lia.
Qed.

Lemma Optimum_loop_panics (x y : list float) (count : nat) :
  forall (n : nat) (kv : nat * float),
  (exists msg, for_loop n count (Optimum_body x y) kv = Panic msg) <->
  (0 < count)%nat /\
  (length x < n + count \/ length y < n + count)%nat.
Proof.
  induction count as [ | count IH]; intros n [k v].
  - cbn. split; [intros (msg & H); discriminate | lia].
  - cbn [for_loop]. unfold Optimum_body at 1.
    destruct (Nat.lt_ge_cases n (length x)) as [Lx | Lx].
    2: { rewrite index_None by assumption. cbn [bind].
         split; [intros _; lia | eauto]. }
    destruct (index_Return x n Lx) as (xi & _ & ->). cbn [bind].
    destruct (Nat.lt_ge_cases n (length y)) as [Ly | Ly].
    2: { rewrite index_None by assumption. cbn [bind].
         split; [intros _; lia | eauto]. }
    destruct (index_Return y n Ly) as (yi & _ & ->). cbn [bind].
    destruct (f64_gt (xi * yi) v); cbn [bind]; rewrite IH; lia.
Qed.

(** X9: [Optimum] panics exactly when [x] or [y] is shorter than [tr];
    whatever [x] and [y] hold beyond the length of [tr] is ignored, and
    so are the values of [tr]. *)
Theorem Optimum_panics_iff (tr x y : list float) :
  ((exists msg, Optimum tr x y = Panic msg) <->
   (length x < length tr \/ length y < length tr)%nat) /\
  Optimum tr x y
  = Optimum (repeat 0%float (length tr))
      (firstn (length tr) x) (firstn (length tr) y).
Proof.
  split.
  - unfold Optimum.
    pose proof (Optimum_loop_panics x y (length tr) 0 (0%nat, neg_infinity))
      as H.
    cbn [Nat.add] in H.
    destruct (for_loop 0 (length tr) (Optimum_body x y) (0%nat, neg_infinity))
      as [kv | msg]; cbn [bind].
    + split; [intros (msg & E); discriminate | ].
      intros Hl. destruct H as [_ H].
      destruct H as (msg & E); [ | discriminate].
      split; [ | exact Hl]. destruct tr; cbn in *; lia.
    + split; [intros _; apply H; eauto | eauto].
  - unfold Optimum. rewrite repeat_length. f_equal.
    generalize (0%nat, neg_infinity) as kv.
    assert (G : forall m n kv, (n + m <= length tr)%nat ->
              for_loop n m (Optimum_body x y) kv
              = for_loop n m
                  (Optimum_body (firstn (length tr) x) (firstn (length tr) y))
                  kv).
    { induction m as [ | m IH]; intros n [k v] Hn; [reflexivity | ].
      cbn [for_loop]. unfold Optimum_body at 1 3. unfold index.
      rewrite !nth_error_firstn.
      replace (n <? length tr)%nat with true
        by (symmetry; apply Nat.ltb_lt; lia).
      destruct (nth_error x n); cbn [bind]; [ | reflexivity].
      destruct (nth_error y n); cbn [bind]; [ | reflexivity].
      destruct (f64_gt _ v); cbn [bind]; apply IH; lia. }
    intros kv. apply G. lia.
Qed.

Lemma Optimum_loop_any (x y : list float) (count : nat) :
  forall (n : nat) (kv : nat * float),
  (n + count <= length (products x y))%nat ->
  Optimum_inv (products x y) n kv ->
  exists kv', for_loop n count (Optimum_body x y) kv = Return kv' /\
              Optimum_inv (products x y) (n + count) kv'.
Proof.
  induction count as [ | count IH]; intros n [k v] Hlen Hinv.
  - exists (k, v). rewrite Nat.add_0_r. auto.
  - cbn [for_loop]. unfold Optimum_body at 1.
    destruct (nth_error (products x y) n) as [r | ] eqn:Hr;
      [ | apply nth_error_None in Hr; lia].
    pose proof Hr as Hr'.
    apply nth_error_products in Hr'. destruct Hr' as (xi & yi & Hx & Hy & Er).
    rewrite (index_Some _ _ _ Hx), (index_Some _ _ _ Hy). cbn [bind].
    rewrite <- Er.
    destruct Hinv as (Nv & Hle & Hk).
    replace (n + S count)%nat with (S n + count)%nat by lia.
    destruct (f64_gt r v) eqn:G.
    + apply f64_gt_spec in G. destruct G as (Nr & _ & G).
      apply IH; [lia | ].
      split; [assumption | ]. split.
      * intros j w Hj Hw. destruct (Nat.eq_dec j n) as [-> | Hne].
        -- rewrite Hr in Hw. injection Hw as <-. lia.
        -- specialize (Hle j w ltac:(lia) Hw). lia.
      * right. split; [lia | ]. split; [exact Hr | ].
        intros j w Hj Hw. specialize (Hle j w Hj Hw). lia.
    + assert (Rr : (rank r <= rank v)%Z).
      { destruct (isNaN r) eqn:Nr.
        - rewrite (rank_nan _ Nr). pose proof (rank_nonnan _ Nv).
          unfold rank_inf in *. lia.
        - now apply f64_gt_false in G. }
      apply IH; [lia | ].
      split; [assumption | ]. split.
      * intros j w Hj Hw. destruct (Nat.eq_dec j n) as [-> | Hne].
        -- rewrite Hr in Hw. injection Hw as <-. lia.
        -- apply Hle with (j := j); [lia | assumption].
      * destruct Hk as [Hk | (Hk1 & Hk2 & Hk3)]; [now left | right].
        split; [lia | auto].
Qed.

(** X10: when [x] and [y] are at least as long as [tr], [Optimum] returns
    an index [k] without panicking, whatever the products are.  Either
    [k] is 0 and none of the first [len(tr)] products is greater than
    negative infinity, or [k < len(tr)], the product at [k] is not NaN, no
    product in range is greater than it, and every earlier product is
    smaller or NaN: a NaN product is never selected. *)
Theorem Optimum_skips_NaN (tr x y : list float) :
  (length tr <= length x)%nat -> (length tr <= length y)%nat ->
  exists k, Optimum tr x y = Return k /\
    ((k = 0%nat /\
      forall j w, (j < length tr)%nat -> nth_error (products x y) j = Some w ->
                  f64_gt w neg_infinity = false) \/
     ((k < length tr)%nat /\
      exists v, nth_error (products x y) k = Some v /\ nonnan v /\
        (forall j w, (j < length tr)%nat ->
           nth_error (products x y) j = Some w -> f64_gt w v = false) /\
        (forall j w, (j < k)%nat -> nth_error (products x y) j = Some w ->
           f64_lt w v = true \/ isNaN w = true))).
Proof.
  intros Hx Hy.
  assert (Hlen : (length tr <= length (products x y))%nat).
  { unfold products. rewrite length_map, length_combine. lia. }
  destruct (Optimum_loop_any x y (length tr) 0 (0%nat, neg_infinity))
    as ([k v] & Hloop & Nv & Hle & Hk); [lia | | ].
  { split; [reflexivity | ]. split; [intros; lia | ].
    left. split; [reflexivity | apply rank_neg_infinity]. }
  cbn [Nat.add] in *.
  exists k. unfold Optimum. rewrite Hloop. cbn [bind fst].
  split; [reflexivity | ].
  assert (Hgt : forall j w, (j < length tr)%nat ->
            nth_error (products x y) j = Some w -> f64_gt w v = false).
  { intros j w Hj Hw. specialize (Hle j w Hj Hw).
    destruct (f64_gt w v) eqn:G; [ | reflexivity].
    apply f64_gt_spec in G. lia. }
  destruct Hk as [(-> & Hv) | (Hk1 & Hk2 & Hk3)].
  - left. split; [reflexivity | ].
    intros j w Hj Hw. specialize (Hle j w Hj Hw).
    destruct (f64_gt w neg_infinity) eqn:G; [ | reflexivity].
    apply f64_gt_spec in G. rewrite rank_neg_infinity in G. lia.
  - right. split; [exact Hk1 | ]. exists v.
    split; [exact Hk2 | ]. split; [exact Nv | ]. split; [exact Hgt | ].
    intros j w Hj Hw. specialize (Hk3 j w Hj Hw).
    destruct (isNaN w) eqn:Nw; [now right | left].
    apply f64_lt_spec. auto.
Qed.

(** X10, witness: the first product is NaN, the scan selects index 2. *)
Lemma Optimum_skips_NaN_witness :
  exists k,
    Optimum [0.25; 0.5; 0.75]%float
      [nan; 0.5; 1]%float [1; 0.5; 1]%float = Return k /\
    k <> 0%nat.
Proof.
  destruct (Optimum_skips_NaN [0.25; 0.5; 0.75]%float
              [nan; 0.5; 1]%float [1; 0.5; 1]%float)
    as (k & Hk & _); [cbn; lia | cbn; lia | ].
  exists k. split; [exact Hk | ].
  vm_compute in Hk. injection Hk as <-. discriminate.
Defined.

(* ------------------------------------------------------------------ *)
(** * Precision without normalisation *)

Lemma precision_list_nonnan (tps : list Z) :
  forall (fps : list Z) (prev : float),
  nonnan prev -> Forall is_int tps ->
  Forall nonnan (precision_list prev tps fps).
Proof.
  induction tps as [ | tp tps IH]; intros [ | fp fps] prev Np Hint; cbn;
    try constructor; inversion Hint as [ | ? ? Htp Hint']; subst.
  - destruct (Z.gtb_spec tp 0) as [G | G]; [ | exact Np].
    apply float64_of_int_div_nonnan; [assumption | apply wrap64_is_int | lia].
  - apply IH; [ | assumption].
    destruct (Z.gtb_spec tp 0) as [G | G]; [ | exact Np].
    apply float64_of_int_div_nonnan; [assumption | apply wrap64_is_int | lia].
Qed.

(** X11: without normalisation no entry of the precision is NaN, whatever
    the counts of an aligned sweep are: an entry is a quotient with a
    non-zero numerator, a copy of the entry before it, or the initial 0. *)
Theorem PrecisionRecall_precision_no_NaN (perf : Performance) :
  aligned_sweep perf ->
  Forall is_int (Tp perf) ->
  exists recall precision,
    PrecisionRecall perf false = Return (recall, precision) /\
    length precision = Performance_Len perf /\
    Forall nonnan precision.
Proof.
  intros Hal Hint.
  exists (recall_list (Tp perf) (Fn perf)),
         (precision_list 0%float (Tp perf) (Fp perf)).
  split; [now apply (PrecisionRecall_lists perf false) | ].
  split; [ | now apply precision_list_nonnan].
  destruct Hal as (Ltp & Lfp & _). rewrite <- Ltp. rewrite <- Ltp in Lfp.
  clear - Lfp. revert Lfp. generalize 0%float as prev.
  generalize (Fp perf) as fps. generalize (Tp perf) as tps.
  induction tps as [ | a tps IH]; intros [ | b fps] prev H; cbn in *;
    try discriminate; [reflexivity | ].
  f_equal. apply IH. lia.
Qed.

(** X11, witness: a sweep whose first rows have no true positive. *)
Lemma PrecisionRecall_precision_no_NaN_witness :
  let perf := {| Tr := [0.25; 0.5]%float;
                 Tp := [0; 0]%Z; Fp := [1; 0]%Z;
                 Tn := [1; 2]%Z; Fn := [0; 0]%Z;
                 P := 0; N := 2 |} in
  exists recall precision,
    PrecisionRecall perf false = Return (recall, precision) /\
    Forall nonnan precision.
Proof.
  intros perf.
  destruct (PrecisionRecall_precision_no_NaN perf)
    as (recall & precision & H1 & _ & H3).
  - repeat split.
  - repeat constructor; unfold is_int, int_min, int_max; lia.
  - exists recall, precision. auto.
Defined.

(* ------------------------------------------------------------------ *)
(** * Predictions.Swap *)

Lemma nth_error_set_nth {A : Type} (s : list A) (i k : nat) (a : A) :
  (i < length s)%nat ->
  nth_error (set_nth s i a) k = if (k =? i)%nat then Some a else nth_error s k.
Proof.
  revert i k. induction s as [ | b s IH]; intros [ | i] [ | k] Hi; cbn in *;
    try lia; try reflexivity.
  apply IH. lia.
Qed.

Lemma slice_swap_spec {A : Type} (s : list A) (i j : nat) :
  (i < length s)%nat -> (j < length s)%nat ->
  exists s', slice_swap s i j = Return s' /\ length s' = length s /\
    forall k, nth_error s' k
              = nth_error s (if (k =? i)%nat then j
                             else if (k =? j)%nat then i else k).
Proof.
  intros Hi Hj.
  destruct (index_lt s i Hi) as (a & Ha & _).
  destruct (index_lt s j Hj) as (b & Hb & _).
  exists (set_nth (set_nth s i b) j a).
  split; [now apply slice_swap_Some | ].
  split; [now rewrite !length_set_nth | ].
  intros k. rewrite nth_error_set_nth by now rewrite length_set_nth.
  rewrite nth_error_set_nth by assumption.
  destruct (Nat.eqb_spec k j) as [Ej | Nj];
    destruct (Nat.eqb_spec k i) as [Ei | Ni]; subst; congruence.
Qed.

(** X12: on aligned slices and two indices in range, [Swap(i, j)]
    exchanges the samples at [i] and [j], score and label together, leaves
    every other sample in place, and undoes itself when applied again. *)
Theorem Predictions_Swap_exchanges (obj : Predictions) (i j : nat) :
  aligned obj ->
  (i < Predictions_Len obj)%nat -> (j < Predictions_Len obj)%nat ->
  exists obj',
    Predictions_Swap obj i j = Return obj' /\
    aligned obj' /\ Predictions_Len obj' = Predictions_Len obj /\
    nth_error (pairs obj') i = nth_error (pairs obj) j /\
    nth_error (pairs obj') j = nth_error (pairs obj) i /\
    (forall k, k <> i -> k <> j ->
               nth_error (pairs obj') k = nth_error (pairs obj) k) /\
    Predictions_Swap obj' i j = Return obj.
Proof.
  destruct obj as [vs ls]. unfold aligned, Predictions_Len, pairs.
  cbn [Values Labels]. intros Hal Hi Hj.
  destruct (slice_swap_spec vs i j Hi Hj) as (vs' & Sv & Lv & Nv).
  destruct (slice_swap_spec ls i j) as (ls' & Sl & Ll & Nl); try lia.
  exists {| Values := vs'; Labels := ls' |}.
  unfold Predictions_Swap. cbn [Values Labels]. rewrite Sv, Sl. cbn [bind].
  split; [reflexivity | ]. split; [lia | ]. split; [exact Lv | ].
  assert (Hc : forall k, nth_error (combine vs' ls') k
                         = nth_error (combine vs ls)
                             (if (k =? i)%nat then j
                              else if (k =? j)%nat then i else k)).
  { intros k.
    assert (G : forall (xs : list float) (ys : list Z) n,
              nth_error (combine xs ys) n
              = match nth_error xs n, nth_error ys n with
                | Some x, Some y => Some (x, y)
                | _, _ => None
                end).
    { induction xs as [ | x xs IH]; intros [ | y ys] [ | n]; cbn;
        try reflexivity.
      - now destruct (nth_error xs n).
      - apply IH. }
    now rewrite !G, Nv, Nl. }
  split; [rewrite Hc, Nat.eqb_refl; reflexivity | ].
  split.
  { rewrite Hc, Nat.eqb_refl.
    destruct (Nat.eqb_spec j i) as [-> | Ne]; reflexivity. }
  split.
  { intros k Ki Kj. rewrite Hc.
    destruct (Nat.eqb_spec k i); [contradiction | ].
    destruct (Nat.eqb_spec k j); [contradiction | reflexivity]. }
  destruct (slice_swap_spec vs' i j) as (vs2 & Sv2 & Lv2 & Nv2); try lia.
  destruct (slice_swap_spec ls' i j) as (ls2 & Sl2 & Ll2 & Nl2); try lia.
  rewrite Sv2, Sl2. cbn [bind].
  assert (T : forall k,
            (let k' := if (k =? i)%nat then j
                       else if (k =? j)%nat then i else k in
             if (k' =? i)%nat then j else if (k' =? j)%nat then i else k')
            = k).
  { intros k. cbv zeta.
    destruct (Nat.eqb_spec k i) as [-> | Ni].
    - destruct (Nat.eqb_spec j i) as [-> | Nji]; [reflexivity | ].
      now rewrite Nat.eqb_refl.
    - destruct (Nat.eqb_spec k j) as [-> | Nj].
      + now rewrite Nat.eqb_refl.
      + destruct (Nat.eqb_spec k i); [contradiction | ].
        destruct (Nat.eqb_spec k j); [contradiction | reflexivity]. }
  cbv zeta in T.
  f_equal. f_equal; apply nth_error_ext; intros k.
  - now rewrite Nv2, Nv, T.
  - now rewrite Nl2, Nl, T.
Qed.

(** X12, witness. *)
Lemma Predictions_Swap_exchanges_witness :
  exists obj',
    Predictions_Swap {| Values := [0.5; 0.25; 0.75]%float;
                        Labels := [1; 0; 1]%Z |} 0 1 = Return obj' /\
    nth_error (pairs obj') 0 = Some (0.25%float, 0%Z).
Proof.
  destruct (Predictions_Swap_exchanges
              {| Values := [0.5; 0.25; 0.75]%float; Labels := [1; 0; 1]%Z |}
              0 1 eq_refl)
    as (obj' & H1 & _ & _ & H4 & _); [cbn; lia | cbn; lia | ].
  exists obj'. split; [exact H1 | ]. rewrite H4. reflexivity.
Defined.

(* ------------------------------------------------------------------ *)
(** * ComputePerformance *)

Lemma map_get_eq (m : gomap) (k t : float) :
  f64_eq k t = true -> map_get m k = map_get m t.
Proof.
  intros E. induction m as [ | [k' v] m IH]; cbn; [reflexivity | ].
  destruct (f64_eq k' k) eqn:E1.
  - now rewrite (f64_eq_trans _ _ _ E1 E).
  - destruct (f64_eq k' t) eqn:E2; [ | exact IH].
    rewrite f64_eq_sym in E.
    rewrite (f64_eq_trans _ _ _ E2 E) in E1. discriminate.
Qed.

Lemma count_le_length {A : Type} (f : A -> bool) (l : list A) :
  (0 <= count f l <= Z.of_nat (length l))%Z.
Proof.
  unfold count. pose proof (filter_length_le f l). lia.
Qed.

Lemma count_disjoint {A : Type} (f g : A -> bool) (l : list A) :
  (forall a, f a = true -> g a = false) ->
  (count f l + count g l <= Z.of_nat (length l))%Z.
Proof.
  intros H. unfold count.
  assert (G : (length (filter f l) + length (filter g l) <= length l)%nat).
  { induction l as [ | a l IH]; cbn [filter length]; [lia | ].
    specialize (H a). destruct (f a); [rewrite H by reflexivity | ];
      [ | destruct (g a)]; cbn [length]; lia. }
  lia.
Qed.

(** The totals of the loop without a check: a label other than 0 and 1 is
    counted nowhere. *)
Lemma count_pairs_unchecked_totals (l : list (float * Z)) :
  forall (c : counters) (k : Z),
  (0 <= n_pos c <= k)%Z -> (0 <= n_neg c <= k)%Z ->
  (k + Z.of_nat (length l) <= int_max)%Z ->
  n_pos (count_pairs_unchecked l c) = (n_pos c + count_all 1 l)%Z /\
  n_neg (count_pairs_unchecked l c) = (n_neg c + count_all 0 l)%Z.
Proof.
  induction l as [ | [v lab] l IH]; intros c k Hp Hn Hk.
  - unfold count_all, count. cbn. lia.
  - cbn [length] in Hk. rewrite Nat2Z.inj_succ in Hk. unfold int_max in Hk.
    unfold count_all. rewrite !count_cons. cbn [snd].
    fold (count_all 1 l). fold (count_all 0 l).
    cbn [count_pairs_unchecked].
    match goal with
    | |- n_pos (count_pairs_unchecked l ?c') = _ /\ _ =>
        destruct (IH c' (k + 1)%Z) as (I1 & I2)
    end.
    + cbn [n_pos]. destruct (lab =? 1)%Z; [ | lia].
      rewrite int_add_id by (unfold is_int, int_min, int_max; lia). lia.
    + cbn [n_neg]. destruct (lab =? 0)%Z; [ | lia].
      rewrite int_add_id by (unfold is_int, int_min, int_max; lia). lia.
    + unfold int_max. lia.
    + rewrite I1, I2. cbn [n_pos n_neg].
      destruct (lab =? 1)%Z, (lab =? 0)%Z;
        rewrite ?int_add_id by (unfold is_int, int_min, int_max; lia); lia.
Qed.

Lemma ascending_non_descending (s : list float) :
  ascending rank s -> non_descending s.
Proof.
  intros Hs i j a b Hij Ha Hb.
  pose proof (StronglySorted_nth_error _ _ Hs i j a b Hij Ha Hb) as R.
  cbn in R. destruct (f64_lt b a) eqn:L; [ | reflexivity].
  apply f64_lt_spec in L. lia.
Qed.

(** X13: on two slices of one length [ComputePerformance] neither panics
    nor reports anything about the labels.  Its thresholds are the scores
    themselves, sorted, one row per sample with duplicates kept; the four
    count sequences have that length; and [n_pos] and [n_neg] are the
    numbers of labels 1 and 0, a sample with any other label being
    counted in neither. *)
Theorem ComputePerformance_outcome (values : list float) (labels : list Z) :
  length values = length labels ->
  slice_length_ok values ->
  exists perf,
    ComputePerformance {| Values := values; Labels := labels |} = Return perf /\
    Permutation (Tr perf) values /\
    non_descending (Tr perf) /\
    length (Tp perf) = length values /\ length (Fp perf) = length values /\
    length (Tn perf) = length values /\ length (Fn perf) = length values /\
    P perf = count_label 1 labels /\
    N perf = count_label 0 labels /\
    (P perf + N perf <= Z.of_nat (length values))%Z.
Proof.
  intros Hal Hlen. unfold ComputePerformance. cbn [Values Labels].
  rewrite (count_labels_unchecked_pairs (length values) values labels 0)
    by (assumption || lia).
  cbn [skipn bind]. rewrite sort_Float64s_isort. cbn [bind].
  eexists. split; [reflexivity | ].
  cbn [sweep Tr Tp Fp Tn Fn P N].
  pose proof (isort_perm Float64s_lt values) as Hperm.
  rewrite !length_map, (Permutation_length Hperm).
  split; [exact Hperm | ].
  split; [apply ascending_non_descending, Float64s_ascending | ].
  repeat (split; [reflexivity | ]).
  destruct (count_pairs_unchecked_totals (combine values labels)
              counters_init 0) as (T1 & T2);
    try (cbn; lia).
  { rewrite length_combine. unfold slice_length_ok in Hlen. lia. }
  cbn [n_pos n_neg counters_init] in T1, T2.
  rewrite !count_all_labels in * by assumption.
  rewrite T1, T2. split; [lia | ]. split; [lia | ].
  pose proof (count_disjoint (fun l => (l =? 1)%Z) (fun l => (l =? 0)%Z)
                labels) as D.
  unfold count_label.
  assert (D' : forall a : Z, (a =? 1)%Z = true -> (a =? 0)%Z = false)
    by (intros a E; apply Z.eqb_eq in E; now subst).
  specialize (D D').
  lia.
Qed.

(** X13, witness: the label 7 is counted in neither total. *)
Lemma ComputePerformance_outcome_witness :
  exists perf,
    ComputePerformance {| Values := [0.5; 0.25; 0.5]%float;
                          Labels := [1; 7; 0]%Z |} = Return perf /\
    P perf = 1%Z /\ N perf = 1%Z /\ length (Tp perf) = 3%nat.
Proof.
  destruct (ComputePerformance_outcome [0.5; 0.25; 0.5]%float [1; 7; 0]%Z
              eq_refl)
    as (perf & H1 & _ & _ & H4 & _ & _ & _ & H8 & H9 & _).
  - unfold slice_length_ok, int_max. cbn. lia.
  - exists perf. repeat split; assumption.
Defined.

Lemma non_descending_ascending (values : list float) (labels : list Z) :
  length values = length labels ->
  Forall nonnan values -> non_descending values ->
  ascending (fun p => rank (fst p)) (combine values labels).
Proof.
  intros Hal Nv Hs. apply nth_error_StronglySorted.
  intros i j [a la] [b lb] Hij Ha Hb. cbn [fst].
  apply nth_error_combine in Ha, Hb. destruct Ha as (Ha & _), Hb as (Hb & _).
  rewrite Forall_forall in Nv.
  apply (f64_lt_false b a).
  - apply Nv. eapply nth_error_In; eassumption.
  - apply Nv. eapply nth_error_In; eassumption.
  - exact (Hs i j a b Hij Ha Hb).
Qed.

(** The rows of [ComputePerformance] on pairs in ascending order. *)
Lemma ComputePerformance_rows (values : list float) (labels : list Z) :
  valid_dataset values labels ->
  slice_length_ok values ->
  Forall nonnan values ->
  ascending (fun p => rank (fst p)) (combine values labels) ->
  exists perf,
    ComputePerformance {| Values := values; Labels := labels |} = Return perf /\
    Permutation (Tr perf) values /\
    forall i t, nth_error (Tr perf) i = Some t ->
      nth_error (Tp perf) i = Some (samples_above t 1 values labels) /\
      nth_error (Fp perf) i = Some (samples_above t 0 values labels) /\
      nth_error (Tn perf) i = Some (samples_at_most t 0 values labels) /\
      nth_error (Fn perf) i = Some (samples_at_most t 1 values labels).
Proof.
  intros (Hal & Hne & Hl) Hlen Nv Hs.
  unfold ComputePerformance. cbn [Values Labels].
  rewrite (count_labels_unchecked_pairs (length values) values labels 0)
    by (assumption || lia).
  cbn [skipn bind]. rewrite sort_Float64s_isort. cbn [bind].
  set (l := combine values labels).
  set (c := count_pairs_unchecked l counters_init).
  assert (Hvl : Forall valid_label (map snd l))
    by (unfold l; now rewrite map_snd_combine).
  assert (Hfl : Forall nonnan (map fst l))
    by (unfold l; now rewrite map_fst_combine).
  assert (Hc : count_pairs l counters_init = inr c)
    by now apply count_pairs_unchecked_valid.
  assert (Ll : length l = length values)
    by (unfold l; rewrite length_combine; lia).
  destruct (count_pairs_ok l counters_init 0 counters_init_ok Hvl)
    as (c' & Hc' & Hok).
  { rewrite Ll. unfold slice_length_ok in Hlen. lia. }
  rewrite Hc in Hc'. injection Hc' as <-. cbn [Z.add] in Hok. rewrite Ll in Hok.
  destruct (count_pairs_keys l counters_init c Hc Hfl)
    as (Nk & Dk & Ik); try constructor.
  assert (Hcd : counted l c).
  { assert (H2 : counted [] counters_init)
      by (constructor; [reflexivity | reflexivity | intros t []]).
    assert (H4 : (Z.of_nat (length ([] ++ l)) <= int_max)%Z)
      by (cbn [app]; rewrite Ll; exact Hlen).
    assert (H6 : ascending (fun p => rank (fst p)) ([] ++ l))
      by (cbn [app]; exact Hs).
    exact (count_pairs_counted l [] counters_init c
             counters_init_ok H2 Hvl H4 Hfl H6 (Forall_nil _) (Forall_nil _) Hc). }
  destruct Hcd as [Ep En Eg].
  pose proof (isort_perm Float64s_lt values) as Hperm.
  eexists. split; [reflexivity | ]. cbn [sweep Tr Tp Fp Tn Fn].
  split; [exact Hperm | ].
  intros i t Ht. rewrite !nth_error_map, Ht. cbn [option_map].
  assert (Hin : In t values).
  { eapply Permutation_in; [exact Hperm | ]. eapply nth_error_In; eassumption. }
  pose proof (proj1 (Forall_forall _ _) Nv t Hin) as Nt.
  assert (Hk : exists k, In k (map_keys (n_pos_map c)) /\ f64_eq k t = true).
  { assert (Hr : In (rank t) (ranks (n_pos_map c))).
    { apply Ik. right. unfold l. rewrite map_fst_combine by assumption.
      now apply in_map. }
    unfold ranks in Hr. apply in_map_iff in Hr. destruct Hr as (k & Rk & Hk).
    exists k. split; [exact Hk | ].
    apply f64_eq_spec. rewrite Forall_forall in Nk. auto. }
  destruct Hk as (k & Hk & Ek).
  destruct (Eg k Hk) as (G1 & G2).
  rewrite (map_get_eq (n_pos_map c) _ _ Ek) in G1.
  rewrite (map_get_eq (n_neg_map c) _ _ Ek) in G2.
  apply f64_eq_spec in Ek. destruct Ek as (_ & _ & Rk). rewrite Rk in G1, G2.
  destruct Hok as [Hp Hn Hsum _ Hgp Hgn].
  specialize (Hgp t). specialize (Hgn t).
  unfold slice_length_ok, int_max in Hlen.
  rewrite !int_sub_id by (unfold is_int, int_min, int_max; lia).
  rewrite !samples_above_rank, !samples_at_most_rank by assumption.
  fold l. rewrite G1, G2, Ep, En. auto.
Qed.

(** X14: on a valid dataset without NaN whose scores are already in
    non-descending order, every row of [ComputePerformance] is the
    confusion matrix at its threshold, as for [EvalPerformance]: [Tp] and
    [Fp] count the samples of label 1 and 0 with a score [> t], [Fn] and
    [Tn] those with a score [<= t]. *)
Theorem ComputePerformance_confusion_matrix
    (values : list float) (labels : list Z) :
  valid_dataset values labels ->
  slice_length_ok values ->
  Forall nonnan values ->
  non_descending values ->
  exists perf,
    ComputePerformance {| Values := values; Labels := labels |} = Return perf /\
    Permutation (Tr perf) values /\
    forall i t, nth_error (Tr perf) i = Some t ->
      nth_error (Tp perf) i = Some (samples_above t 1 values labels) /\
      nth_error (Fp perf) i = Some (samples_above t 0 values labels) /\
      nth_error (Tn perf) i = Some (samples_at_most t 0 values labels) /\
      nth_error (Fn perf) i = Some (samples_at_most t 1 values labels).
Proof.
  intros Hv Hlen Nv Hs.
  apply ComputePerformance_rows; try assumption.
  destruct Hv as (Hal & _). now apply non_descending_ascending.
Qed.

(** X14, witness: sorted scores with a duplicate; both rows of the score
    0.5 hold the counts of the threshold 0.5. *)
Lemma ComputePerformance_confusion_matrix_witness :
  exists perf,
    ComputePerformance {| Values := [0.25; 0.5; 0.5; 0.75]%float;
                          Labels := [0; 1; 0; 1]%Z |} = Return perf /\
    (forall i, nth_error (Tr perf) i = Some 0.5%float ->
       nth_error (Tp perf) i = Some 1%Z /\ nth_error (Fn perf) i = Some 1%Z).
Proof.
  destruct (ComputePerformance_confusion_matrix
              [0.25; 0.5; 0.5; 0.75]%float [0; 1; 0; 1]%Z)
    as (perf & He & _ & Hrow).
  - valid_dataset_now.
  - unfold slice_length_ok, int_max. cbn. lia.
  - repeat constructor.
  - apply ascending_non_descending. unfold ascending.
    repeat constructor; vm_compute; discriminate.
  - exists perf. split; [exact He | ]. intros i Hi.
    destruct (Hrow i _ Hi) as (H1 & _ & _ & H4). split; assumption.
Defined.

(** X21: sorting the predictions with [sort.Sort] and handing them to
    [ComputePerformance], as the command built on the variant does after
    reading a table, gives on a valid dataset without NaN one row per
    sample, and every row is the confusion matrix of the dataset at its
    threshold. *)
Theorem sort_then_ComputePerformance (values : list float) (labels : list Z) :
  valid_dataset values labels ->
  slice_length_ok values ->
  Forall nonnan values ->
  exists d perf,
    sort_Sort {| Values := values; Labels := labels |} = Return d /\
    ComputePerformance d = Return perf /\
    Permutation (Tr perf) values /\
    forall i t, nth_error (Tr perf) i = Some t ->
      nth_error (Tp perf) i = Some (samples_above t 1 values labels) /\
      nth_error (Fp perf) i = Some (samples_above t 0 values labels) /\
      nth_error (Tn perf) i = Some (samples_at_most t 0 values labels) /\
      nth_error (Fn perf) i = Some (samples_at_most t 1 values labels).
Proof.
  intros (Hal & Hne & Hl) Hlen Nv.
  destruct (sort_Sort_Predictions {| Values := values; Labels := labels |} Hal)
    as (d & Hs & Hd & Hp).
  unfold pairs in Hp. cbn [Values Labels] in Hp.
  assert (Hperm : Permutation (combine (Values d) (Labels d))
                    (combine values labels))
    by (rewrite Hp; apply isort_perm).
  assert (Hpv : Permutation (Values d) values).
  { rewrite <- (map_fst_combine values labels Hal).
    rewrite <- (map_fst_combine (Values d) (Labels d) Hd).
    now apply Permutation_map. }
  assert (Hpl : Permutation (Labels d) labels).
  { rewrite <- (map_snd_combine values labels Hal).
    rewrite <- (map_snd_combine (Values d) (Labels d) Hd).
    now apply Permutation_map. }
  destruct (ComputePerformance_rows (Values d) (Labels d))
    as (perf & Hc & Ptr & Hrows).
  - split; [exact Hd | ]. split.
    + rewrite (Permutation_length Hpv). exact Hne.
    + eapply Permutation_Forall; [symmetry; exact Hpl | exact Hl].
  - unfold slice_length_ok. rewrite (Permutation_length Hpv). exact Hlen.
  - eapply Permutation_Forall; [symmetry; exact Hpv | exact Nv].
  - rewrite Hp. apply pairs_ascending. now rewrite map_fst_combine.
  - exists d, perf. split; [exact Hs | ].
    split; [destruct d; exact Hc | ].
    split; [now rewrite Ptr | ].
    intros i t Ht. specialize (Hrows i t Ht).
    unfold samples_above, samples_at_most in *.
    now rewrite <- !(count_Permutation _ _ _ Hperm).
Qed.

(** X21, witness: unsorted scores with a duplicate. *)
Lemma sort_then_ComputePerformance_witness :
  exists d perf,
    sort_Sort {| Values := [0.5; 0.25; 0.75; 0.5]%float;
                 Labels := [1; 0; 1; 0]%Z |} = Return d /\
    ComputePerformance d = Return perf /\
    (forall i, nth_error (Tr perf) i = Some 0.5%float ->
       nth_error (Tp perf) i = Some 1%Z /\ nth_error (Fn perf) i = Some 1%Z).
Proof.
  destruct (sort_then_ComputePerformance
              [0.5; 0.25; 0.75; 0.5]%float [1; 0; 1; 0]%Z)
    as (d & perf & Hs & Hc & _ & Hrow).
  - valid_dataset_now.
  - unfold slice_length_ok, int_max. cbn. lia.
  - repeat constructor.
  - exists d, perf. split; [exact Hs | ]. split; [exact Hc | ].
    intros i Hi.
    destruct (Hrow i _ Hi) as (H1 & _ & _ & H4). split; assumption.
Defined.

(* ------------------------------------------------------------------ *)
(** * The curve functions of the variant *)

(** X15: the curve functions of the variant on sorted predictions are
    those of the package, argument for argument: on the fields of a sweep
    whose [Tp] has the length of [Tr], [ComputePrecisionRecall] returns
    what [PrecisionRecall] returns, a panic included, and [ComputeRoc]
    what [Roc] returns. *)
Theorem Compute_curves_agree (perf : Performance) (normalize : bool) :
  length (Tp perf) = Performance_Len perf ->
  ComputePrecisionRecall (Tp perf) (Fp perf) (Fn perf) (P perf) (N perf)
    normalize
  = PrecisionRecall perf normalize /\
  ComputeRoc (Tp perf) (Fp perf) (P perf) (N perf) = Roc perf.
Proof.
  intros Hlen.
  unfold ComputePrecisionRecall, PrecisionRecall, ComputeRoc, Roc.
  rewrite Hlen. split; reflexivity.
Qed.

(** X15, witness: the first row has a true positive but [Fn] is empty;
    both functions panic alike. *)
Lemma Compute_curves_agree_witness :
  let perf := {| Tr := [0.25; 0.5]%float;
                 Tp := [1; 0]%Z; Fp := [1; 0]%Z;
                 Tn := [1; 2]%Z; Fn := []%Z;
                 P := 1; N := 2 |} in
  ComputePrecisionRecall [1; 0]%Z [1; 0]%Z [] 1 2 false
  = PrecisionRecall perf false /\
  PrecisionRecall perf false = Panic "index out of range".
Proof.
  intros perf. split.
  - exact (proj1 (Compute_curves_agree perf false eq_refl)).
  - reflexivity.
Defined.

(* ------------------------------------------------------------------ *)
(** * ReadPredictions *)

Section Reading.

Context {E : Type} `{TextLibrary E}.

Lemma is_predictions_not_labels (f : string) :
  is_predictions f = true -> is_labels f = false.
Proof.
  unfold is_predictions, is_labels. intros Hp.
  apply orb_true_iff in Hp.
  destruct Hp as [Hp | Hp]; apply String.eqb_eq in Hp; subst; reflexivity.
Qed.

(** The header line: either it names the two columns and the rows are
    read, or one of the three header errors is returned. *)
Lemma ReadPredictions_on_header (header : string) (rows : list string) :
  match header_columns (strings_Fields header) with
  | Some (ip, il) =>
      ReadPredictions (header :: rows) = read_rows ip il rows [] [] /\
      ((ip = 0 /\ il = 1) \/ (ip = 1 /\ il = 0))%Z
  | None =>
      exists e, ReadPredictions (header :: rows) = Return ([], [], Some e) /\
        (e = invalid_predictions_table \/ e = no_predictions_column \/
         e = no_labels_column)
  end.
Proof.
  unfold ReadPredictions, header_columns.
  destruct (strings_Fields header) as [ | a [ | b [ | c l]]];
    try (cbn; eauto).
  unfold find_column. cbn.
  destruct (is_predictions a) eqn:Pa; destruct (is_predictions b) eqn:Pb;
    try rewrite (is_predictions_not_labels _ Pa);
    try rewrite (is_predictions_not_labels _ Pb);
    cbn; eauto 6;
    destruct (is_labels a) eqn:La; destruct (is_labels b) eqn:Lb;
    cbn; eauto 6.
Qed.

Lemma index_int_nth {A : Type} (s : list A) (i : Z) (a : A) :
  (0 <= i)%Z ->
  index_int s i = Return a <-> nth_error s (Z.to_nat i) = Some a.
Proof.
  intros Hi. unfold index_int, index.
  destruct (Z.ltb_spec i 0); [lia | ].
  destruct (nth_error s (Z.to_nat i)); split; congruence.
Qed.

Lemma valid_label_test (l : Z) :
  negb (l =? 0)%Z && negb (l =? 1)%Z = false <-> valid_label l.
Proof.
  unfold valid_label.
  destruct (Z.eqb_spec l 0), (Z.eqb_spec l 1); cbn; intuition congruence.
Qed.

(** The rows are accepted exactly when each of them parses to a score and
    a label 0 or 1; the samples are then appended in the order of the
    rows. *)
Lemma read_rows_accepts (ip il : Z) (rows : list string) :
  (0 <= ip)%Z -> (0 <= il)%Z ->
  forall (vs : list float) (ls : list Z) (values : list float)
         (labels : list Z),
  read_rows ip il rows vs ls = Return (values, labels, None) <->
  exists samples,
    Forall2 (row_parses ip il) rows samples /\
    Forall valid_label (map snd samples) /\
    values = vs ++ map fst samples /\ labels = ls ++ map snd samples.
Proof.
  intros Hip Hil.
  induction rows as [ | line rows IH]; intros vs ls values labels.
  - cbn [read_rows]. split.
    + intros [= <- <-]. exists []. cbn. rewrite !app_nil_r.
      repeat split; constructor.
    + intros (samples & HF & _ & -> & ->). inversion HF; subst.
      cbn. now rewrite !app_nil_r.
  - cbn [read_rows]. split.
    + unfold index_int at 1.
      destruct (Z.ltb_spec il 0); [lia | ]. unfold index at 1.
      destruct (nth_error (strings_Fields line) (Z.to_nat il)) as [fl | ] eqn:Hfl;
        cbn [bind]; [ | discriminate].
      destruct (strconv_ParseInt fl) as [e | label] eqn:Hl; [discriminate | ].
      unfold index_int at 1.
      destruct (Z.ltb_spec ip 0); [lia | ]. unfold index at 1.
      destruct (nth_error (strings_Fields line) (Z.to_nat ip)) as [fp | ] eqn:Hfp;
        cbn [bind]; [ | discriminate].
      destruct (strconv_ParseFloat fp) as [e | value] eqn:Hv; [discriminate | ].
      destruct (negb (label =? 0)%Z && negb (label =? 1)%Z) eqn:Hlab;
        [discriminate | ].
      intros Hr. apply IH in Hr.
      destruct Hr as (samples & HF & Hval & -> & ->).
      exists ((value, label) :: samples). cbn [map fst snd].
      rewrite <- !app_assoc. cbn [app].
      repeat split; try reflexivity.
      * constructor; [ | exact HF]. exists fl, fp. cbn [fst snd]. auto.
      * constructor; [now apply valid_label_test | exact Hval].
    + intros (samples & HF & Hval & -> & ->).
      inversion HF as [ | ? [value label] ? samples' Hrow HF']; subst.
      destruct Hrow as (fl & fp & Hfl & Hl & Hfp & Hv). cbn [fst snd] in *.
      cbn [map snd] in Hval. inversion Hval as [ | ? ? Hlab Hval']; subst.
      rewrite (proj2 (index_int_nth _ _ _ Hil) Hfl). cbn [bind]. rewrite Hl.
      rewrite (proj2 (index_int_nth _ _ _ Hip) Hfp). cbn [bind]. rewrite Hv.
      rewrite (proj2 (valid_label_test label) Hlab).
      apply IH. exists samples'. cbn [map fst snd].
      rewrite <- !app_assoc. cbn [app]. auto.
Qed.

Lemma read_rows_no_header_error (ip il : Z) (rows : list string) :
  forall (vs : list float) (ls : list Z) values labels e,
  read_rows ip il rows vs ls = Return (values, labels, Some e) ->
  e <> invalid_predictions_table /\ e <> no_predictions_column /\
  e <> no_labels_column.
Proof.
  induction rows as [ | line rows IH]; intros vs ls values labels e;
    cbn [read_rows]; [discriminate | ].
  destruct (index_int (strings_Fields line) il); cbn [bind]; [ | discriminate].
  destruct (strconv_ParseInt _); [intros [= _ _ <-]; repeat split; discriminate | ].
  destruct (index_int (strings_Fields line) ip); cbn [bind]; [ | discriminate].
  destruct (strconv_ParseFloat _);
    [intros [= _ _ <-]; repeat split; discriminate | ].
  destruct (negb _ && negb _);
    [intros [= _ _ <-]; repeat split; discriminate | apply IH].
Qed.

End Reading.

(** X16: [ReadPredictions] accepts a table of a header and rows, and
    returns [(values, labels)] without an error, exactly when the header
    has two fields, one of them [predictions] or [prediction] and the
    other [labels] or [label], in either order, and every row has in
    the two columns a field [ParseFloat] accepts and a field [ParseInt]
    accepts with the value 0 or 1; the samples returned are those of the
    rows, in the order of the rows. *)
Theorem ReadPredictions_accepts {E : Type} `{TextLibrary E}
    (header : string) (rows : list string)
    (values : list float) (labels : list Z) :
  ReadPredictions (header :: rows) = Return (values, labels, None) <->
  exists ip il,
    header_columns (strings_Fields header) = Some (ip, il) /\
    length values = length labels /\
    Forall2 (row_parses ip il) rows (combine values labels) /\
    Forall valid_label labels.
Proof.
  pose proof (ReadPredictions_on_header header rows) as Hh.
  destruct (header_columns (strings_Fields header)) as [[ip il] | ].
  - destruct Hh as (-> & Hcols).
    assert (Hip : (0 <= ip)%Z) by lia. assert (Hil : (0 <= il)%Z) by lia.
    rewrite (read_rows_accepts ip il rows Hip Hil). cbn [app].
    split.
    + intros (samples & HF & Hval & -> & ->).
      exists ip, il. split; [reflexivity | ].
      rewrite !length_map. split; [reflexivity | ].
      assert (Es : combine (map fst samples) (map snd samples) = samples).
      { clear. induction samples as [ | [v l] s IH]; cbn; congruence. }
      rewrite Es. auto.
    + intros (ip' & il' & [= <- <-] & Hal & HF & Hval).
      exists (combine values labels).
      rewrite map_fst_combine, map_snd_combine by assumption. auto.
  - destruct Hh as (e & -> & _). split; [discriminate | ].
    intros (ip & il & Hc & _). discriminate.
Qed.

(** X17: the header alone decides between an error about the table and
    the reading of the rows.  Fields other than two give the error of an
    invalid table; two fields of which none names the predictions, or of
    which none names the labels, give the error of the missing column,
    the predictions first; and none of these three errors is returned
    once the header names both columns. *)
Theorem ReadPredictions_header {E : Type} `{TextLibrary E}
    (header : string) (rows : list string) :
  let fields := strings_Fields header in
  let result := ReadPredictions (header :: rows) in
  (result = Return ([], [], Some invalid_predictions_table) <->
   length fields <> 2%nat) /\
  (result = Return ([], [], Some no_predictions_column) <->
   length fields = 2%nat /\ Forall (fun f => is_predictions f = false) fields) /\
  (result = Return ([], [], Some no_labels_column) <->
   length fields = 2%nat /\ Exists (fun f => is_predictions f = true) fields /\
   Forall (fun f => is_labels f = false) fields).
Proof.
  cbv zeta.
  pose proof (ReadPredictions_on_header header rows) as Hh.
  unfold header_columns in Hh.
  assert (Hrows : forall ip il e,
            ReadPredictions (header :: rows) = read_rows ip il rows [] [] ->
            e = invalid_predictions_table \/ e = no_predictions_column \/
            e = no_labels_column ->
            ReadPredictions (header :: rows) <> Return ([], [], Some e)).
  { intros ip il e Hr He Habs. rewrite Hr in Habs.
    apply read_rows_no_header_error in Habs. intuition congruence. }
  destruct (strings_Fields header) as [ | a [ | b [ | c l]]] eqn:Ef.
  1, 2, 4:
    destruct Hh as (e & Hr & _); unfold ReadPredictions in Hr |- *;
    rewrite Ef in Hr |- *; cbn in Hr |- *;
    (split; [split; [intros _; lia | reflexivity] | ]);
    (split; (split; [discriminate | intros (Hl & _); cbn in Hl; lia])).
  assert (F2 : forall P : string -> Prop,
            Forall P [a; b] <-> P a /\ P b).
  { intros P. split.
    - intros HF. inversion HF as [ | ? ? Ha HF']; subst.
      inversion HF'; subst. auto.
    - intros (Ha & Hb). repeat constructor; assumption. }
  assert (E2 : forall P : string -> Prop,
            Exists P [a; b] <-> P a \/ P b).
  { intros P. split.
    - intros HE. inversion HE as [ | ? ? HE']; subst; [now left | ].
      inversion HE' as [ | ? ? HE'']; subst; [now right | inversion HE''].
    - intros [Ha | Hb]; [now left | right; now left]. }
  rewrite !F2, E2. cbn [length].
  destruct (is_predictions a) eqn:Pa; destruct (is_predictions b) eqn:Pb;
    destruct (is_labels a) eqn:La; destruct (is_labels b) eqn:Lb;
    try (rewrite (is_predictions_not_labels _ Pa) in La; discriminate);
    try (rewrite (is_predictions_not_labels _ Pb) in Lb; discriminate);
    cbn in Hh;
    try (destruct Hh as (Hr & _);
         pose proof (Hrows _ _ invalid_predictions_table Hr) as R1;
         pose proof (Hrows _ _ no_predictions_column Hr) as R2;
         pose proof (Hrows _ _ no_labels_column Hr) as R3;
         repeat split; intros; intuition (congruence || auto));
    destruct Hh as (e & Hr & _); unfold ReadPredictions in Hr |- *;
    rewrite Ef in Hr |- *; unfold find_column in Hr |- *; cbn in Hr |- *;
    rewrite ?Pa, ?Pb, ?La, ?Lb in Hr |- *; cbn in Hr |- *;
    repeat split; intros; intuition (congruence || auto).
Qed.

Lemma read_rows_app {E : Type} `{TextLibrary E} (ip il : Z)
    (good : list string) (samples : list (float * Z)) :
  (0 <= ip)%Z -> (0 <= il)%Z ->
  Forall2 (row_parses ip il) good samples ->
  Forall valid_label (map snd samples) ->
  forall (rest : list string) (vs : list float) (ls : list Z),
  read_rows ip il (good ++ rest) vs ls
  = read_rows ip il rest (vs ++ map fst samples) (ls ++ map snd samples).
Proof.
  intros Hip Hil HF. induction HF as [ | line [value label] good samples Hrow HF IH];
    intros Hval rest vs ls.
  - cbn. now rewrite !app_nil_r.
  - cbn [map snd] in Hval. inversion Hval as [ | ? ? Hlab Hval']; subst.
    destruct Hrow as (fl & fp & Hfl & Hl & Hfp & Hv). cbn [fst snd] in *.
    cbn [app read_rows].
    rewrite (proj2 (index_int_nth _ _ _ Hil) Hfl). cbn [bind]. rewrite Hl.
    rewrite (proj2 (index_int_nth _ _ _ Hip) Hfp). cbn [bind]. rewrite Hv.
    rewrite (proj2 (valid_label_test label) Hlab).
    rewrite IH by assumption. cbn [map fst snd].
    now rewrite <- !app_assoc.
Qed.

(** X18: a row without any field, a blank line for one, makes
    [ReadPredictions] panic with an index out of range once the rows
    before it have been accepted; no error is returned for it. *)
Theorem ReadPredictions_blank_row_panics {E : Type} `{TextLibrary E}
    (header : string) (good : list string) (row : string)
    (rest : list string) (ip il : Z) (samples : list (float * Z)) :
  header_columns (strings_Fields header) = Some (ip, il) ->
  Forall2 (row_parses ip il) good samples ->
  Forall valid_label (map snd samples) ->
  strings_Fields row = [] ->
  ReadPredictions (header :: good ++ row :: rest)
  = Panic "index out of range".
Proof.
  intros Hh HF Hval Hrow.
  pose proof (ReadPredictions_on_header header (good ++ row :: rest)) as Ho.
  rewrite Hh in Ho. destruct Ho as (-> & Hcols).
  rewrite (read_rows_app ip il good samples) by (assumption || lia).
  cbn [read_rows]. rewrite Hrow. unfold index_int.
  destruct (il <? 0)%Z; [reflexivity | ].
  unfold index. now destruct (Z.to_nat il).
Qed.

(** X18, witness: a second row of one space. *)
Lemma ReadPredictions_blank_row_panics_witness :
  let lib : TextLibrary unit :=
    {| strings_Fields := fun s =>
         if (s =? "predictions labels")%string then ["predictions"; "labels"]%string
         else if (s =? "0.5 1")%string then ["0.5"; "1"]%string
         else [];
       strconv_ParseInt := fun s =>
         if (s =? "1")%string then inr 1%Z else inl tt;
       strconv_ParseFloat := fun s =>
         if (s =? "0.5")%string then inr 0.5%float else inl tt |} in
  @ReadPredictions unit lib ["predictions labels"; "0.5 1"; " "; "0.5 1"]%string
  = Panic "index out of range".
Proof.
  intros lib.
  apply (@ReadPredictions_blank_row_panics unit lib
           "predictions labels"%string ["0.5 1"]%string " "%string
           ["0.5 1"]%string 0%Z 1%Z
           [(0.5%float, 1%Z)]).
  - reflexivity.
  - repeat constructor. exists "1"%string, "0.5"%string.
    repeat split; reflexivity.
  - constructor; [now right | constructor].
  - reflexivity.
Defined.

(* ------------------------------------------------------------------ *)
(** * The command *)

Lemma for_loop_invariant {St : Type} (Inv : nat -> St -> Prop)
    (body : nat -> St -> outcome St) (n : nat) :
  forall (start : nat) (s : St),
  (forall i s0, (start <= i < start + n)%nat -> Inv i s0 ->
     exists s1, body i s0 = Return s1 /\ Inv (S i) s1) ->
  Inv start s ->
  exists s', for_loop start n body s = Return s' /\ Inv (start + n)%nat s'.
Proof.
  induction n as [ | n IH]; intros start s Hb Hs.
  - exists s. rewrite Nat.add_0_r. auto.
  - cbn [for_loop]. destruct (Hb start s) as (s1 & H1 & I1); [lia | exact Hs | ].
    rewrite H1. cbn [bind].
    replace (start + S n)%nat with (S start + n)%nat by lia.
    apply IH; [ | exact I1]. intros i s0 Hi. apply Hb. lia.
Qed.

Lemma export_table2_lines (config : Config) (x y : list float)
    (name_x name_y : string) :
  (length x <= length y)%nat ->
  exists out, export_table2 config [] x y name_x name_y = Return out /\
              (length x <= length out)%nat.
Proof.
  intros Hy. unfold export_table2.
  apply (for_loop_invariant (fun i out => (i <= length out)%nat)).
  - intros i out Hi Hout.
    destruct (index_lt x i) as (xi & _ & ->); [lia | ].
    destruct (index_lt y i) as (yi & _ & ->); [lia | ]. cbn [bind].
    eexists. split; [reflexivity | ]. rewrite length_app. cbn. lia.
  - lia.
Qed.

Lemma export_table3_lines (config : Config) (x y z : list float)
    (name_x name_y name_z : string) :
  (length x <= length y)%nat -> (length x <= length z)%nat ->
  exists out, export_table3 config [] x y z name_x name_y name_z = Return out /\
              (length x <= length out)%nat.
Proof.
  intros Hy Hz. unfold export_table3.
  apply (for_loop_invariant (fun i out => (i <= length out)%nat)).
  - intros i out Hi Hout.
    destruct (index_lt x i) as (xi & _ & ->); [lia | ].
    destruct (index_lt y i) as (yi & _ & ->); [lia | ].
    destruct (index_lt z i) as (zi & _ & ->); [lia | ]. cbn [bind].
    eexists. split; [reflexivity | ]. rewrite length_app. cbn. lia.
  - lia.
Qed.

Lemma print_optimum_line (config : Config) (x y tr : list float) (i : nat)
    (name_x name_y : string) :
  (i < length x)%nat -> (i < length y)%nat -> (i < length tr)%nat ->
  exists out, print_optimum config x y tr i name_x name_y = Return out /\
              out <> [].
Proof.
  intros Hx Hy Ht. unfold print_optimum.
  destruct (index_lt x i Hx) as (xi & _ & ->).
  destruct (index_lt y i Hy) as (yi & _ & ->).
  destruct (index_lt tr i Ht) as (ti & _ & ->). cbn [bind].
  destruct (PrintHeader config); eexists; (split; [reflexivity | discriminate]).
Qed.

Lemma recall_list_length (tps : list Z) :
  forall fns, length tps = length fns ->
  length (recall_list tps fns) = length tps.
Proof.
  induction tps as [ | a tps IH]; intros [ | b fns] Hl; cbn in *;
    try discriminate; [reflexivity | ]. f_equal. apply IH. lia.
Qed.

Lemma precision_list_length (tps : list Z) :
  forall fps prev, length tps = length fps ->
  length (precision_list prev tps fps) = length tps.
Proof.
  induction tps as [ | a tps IH]; intros [ | b fps] prev Hl; cbn in *;
    try discriminate; [reflexivity | ]. f_equal. apply IH. lia.
Qed.

Lemma PrecisionRecall_lengths (perf : Performance) (normalize : bool) :
  aligned_sweep perf ->
  exists recall precision,
    PrecisionRecall perf normalize = Return (recall, precision) /\
    length recall = Performance_Len perf /\
    length precision = Performance_Len perf.
Proof.
  intros Hs. rewrite (PrecisionRecall_lists perf normalize Hs).
  destruct Hs as (Ltp & Lfp & Lfn).
  eexists. eexists. split; [reflexivity | ].
  rewrite recall_list_length by lia.
  split; [exact Ltp | ].
  destruct normalize; rewrite ?length_map; rewrite precision_list_length; lia.
Qed.

Lemma Roc_lengths (perf : Performance) :
  aligned_sweep perf ->
  exists fpr tpr,
    Roc perf = Return (fpr, tpr) /\
    length fpr = Performance_Len perf /\ length tpr = Performance_Len perf.
Proof.
  intros (Ltp & Lfp & _). rewrite (Roc_lists perf Ltp Lfp).
  eexists. eexists. split; [reflexivity | ]. now rewrite !length_map.
Qed.

Lemma Optimum_in_range (tr x y : list float) :
  tr <> [] ->
  (length tr <= length x)%nat -> (length tr <= length y)%nat ->
  exists k, Optimum tr x y = Return k /\ (k < length tr)%nat.
Proof.
  intros Hne Hx Hy.
  assert (Hlen : (length tr <= length (products x y))%nat).
  { unfold products. rewrite length_map, length_combine. lia. }
  destruct (Optimum_loop_any x y (length tr) 0 (0%nat, neg_infinity))
    as ([k v] & Hloop & _ & _ & Hk); [lia | | ].
  { split; [reflexivity | ]. split; [intros; lia | ].
    left. split; [reflexivity | apply rank_neg_infinity]. }
  exists k. unfold Optimum. rewrite Hloop. cbn [bind fst].
  split; [reflexivity | ].
  destruct tr; [congruence | ]. cbn [length Nat.add] in *.
  destruct Hk as [(-> & _) | (Hk & _)]; lia.
Qed.

(* ------------------------------------------------------------------ *)
(** * NaN scores *)

Lemma map_get_NaN (m : gomap) (t : float) :
  isNaN t = true -> map_get m t = 0%Z.
Proof.
  intros Nt. induction m as [ | [k v] m IH]; cbn; [reflexivity | ].
  destruct (f64_eq k t) eqn:Ek; [ | exact IH].
  apply f64_eq_spec in Ek. destruct Ek as (_ & Nn & _).
  unfold nonnan in Nn. congruence.
Qed.

(* ------------------------------------------------------------------ *)
(** * The package over the library's sort *)

(** ** The insertion sort has the three properties assumed of [sort.Sort] *)

Lemma sort_Sort_permutes : Sort_permutes sort_Sort.
Proof.
  intros d Hd.
  destruct (sort_Sort_Predictions d Hd) as (d' & Hs & Hd' & Hp).
  exists d'. split; [exact Hs | ]. split; [exact Hd' | ].
  rewrite Hp. apply isort_perm.
Qed.

Lemma sort_Sort_ascending : Sort_ascending sort_Sort.
Proof.
  intros d d' Hd Nv Hs.
  destruct (sort_Sort_Predictions d Hd) as (d0 & Hs0 & Hd0 & Hp).
  rewrite Hs in Hs0. injection Hs0 as <-.
  apply ascending_non_descending. unfold ascending.
  rewrite <- (map_fst_combine _ _ Hd0).
  apply StronglySorted_map. fold (pairs d'). rewrite Hp.
  apply pairs_ascending. unfold pairs. now rewrite map_fst_combine.
Qed.

Lemma sort_Sort_small : Sort_small sort_Sort.
Proof. intros d _. reflexivity. Qed.

(** With the insertion sort for [Sort] the functions of [Library] are the
    ones defined with it, and so they are on at most 12 samples with any
    [Sort] that is the insertion sort there. *)
Lemma Library_EvalPerformance_sort_Sort (values : list float) (labels : list Z) :
  Library.EvalPerformance sort_Sort values labels
  = EvalPerformance values labels.
Proof. reflexivity. Qed.

Lemma Library_EvalPerformance_small
    (Sort : Predictions -> outcome Predictions)
    (values : list float) (labels : list Z) :
  Sort_small Sort -> (length values <= 12)%nat ->
  Library.EvalPerformance Sort values labels = EvalPerformance values labels.
Proof.
  intros Hsmall Hlen. unfold Library.EvalPerformance, EvalPerformance.
  now rewrite Hsmall.
Qed.

(** ** EvalPerformance as a function of the pairs *)

Section LibrarySort.

Variable Sort : Predictions -> outcome Predictions.
Hypothesis Sort_perm : Sort_permutes Sort.

Lemma Library_EvalPerformance_pairs (values : list float) (labels : list Z) :
  length values = length labels ->
  exists d,
    Library.EvalPerformance Sort values labels
    = Return (d, eval_pairs (pairs d))
    /\ aligned d
    /\ Permutation (pairs d) (combine values labels).
Proof.
  intros Hal. unfold Library.EvalPerformance.
  destruct (Sort_perm {| Values := values; Labels := labels |} Hal)
    as (d & Hs & Hd & Hp).
  exists d. rewrite Hs. cbn [bind]. repeat split; try assumption.
  rewrite (count_labels_pairs _ _ _ _ _ Hd) by lia.
  cbn [skipn bind]. unfold eval_pairs, pairs.
  destruct (count_pairs _ _) as [err | c]; [reflexivity | ].
  now rewrite sort_Float64s_isort.
Qed.

Lemma Library_EvalPerformance_valid (values : list float) (labels : list Z) :
  valid_dataset values labels ->
  slice_length_ok values ->
  exists d c,
    Library.EvalPerformance Sort values labels
    = Return (d, (sweep (isort Float64s_lt (map_keys (n_pos_map c))) c, None))
    /\ aligned d
    /\ Permutation (pairs d) (combine values labels)
    /\ Permutation (map fst (pairs d)) values
    /\ Forall valid_label (map snd (pairs d))
    /\ length (pairs d) = length values
    /\ count_pairs (pairs d) counters_init = inr c
    /\ counters_ok (Z.of_nat (length values)) c.
Proof.
  intros (Hal & Hne & Hl) Hlen.
  destruct (Library_EvalPerformance_pairs values labels Hal)
    as (d & He & Hd & Hperm).
  assert (Hlen' : length (pairs d) = length values).
  { rewrite (Permutation_length Hperm), length_combine. lia. }
  assert (Hpv : Permutation (map fst (pairs d)) values).
  { rewrite <- (map_fst_combine values labels Hal). now apply Permutation_map. }
  assert (Hvl : Forall valid_label (map snd (pairs d))).
  { eapply Permutation_Forall; [ | exact Hl].
    rewrite <- (map_snd_combine values labels Hal).
    symmetry. now apply Permutation_map. }
  destruct (count_pairs_ok (pairs d) counters_init 0 counters_init_ok Hvl)
    as (c & Hc & Hok).
  - rewrite Hlen'. exact Hlen.
  - exists d, c. rewrite He. unfold eval_pairs. rewrite Hc.
    rewrite Hlen' in Hok.
    split; [reflexivity | ].
    do 6 (split; [assumption || reflexivity | ]). exact Hok.
Qed.

(** The sweep of a valid dataset: its counters, their totals, and at least
    one threshold. *)
Lemma Library_EvalPerformance_valid_totals
    (values : list float) (labels : list Z) :
  valid_dataset values labels ->
  slice_length_ok values ->
  exists d tr c,
    Library.EvalPerformance Sort values labels
    = Return (d, (sweep tr c, None)) /\
    Permutation (pairs d) (combine values labels) /\
    counters_ok (Z.of_nat (length values)) c /\
    n_pos c = count_label 1 labels /\
    n_neg c = count_label 0 labels /\
    tr <> [].
Proof.
  intros Hv Hlen.
  destruct (Library_EvalPerformance_valid values labels Hv Hlen)
    as (d & c & He & Hd & Hperm & Hpv & Hvl & Ld & Hc & Hok).
  destruct Hv as (Hal & Hne & Hl).
  destruct (count_pairs_totals (pairs d) counters_init c 0 counters_init_ok)
    as (T1 & T2); try assumption.
  - rewrite Ld. unfold slice_length_ok in Hlen. lia.
  - eexists. eexists. eexists. split; [exact He | ].
    cbn [n_pos n_neg counters_init] in T1, T2. unfold count_all in T1, T2.
    rewrite (count_Permutation _ _ _ Hperm) in T1.
    rewrite (count_Permutation _ _ _ Hperm) in T2.
    fold (count_all 1 (combine values labels)) in T1.
    fold (count_all 0 (combine values labels)) in T2.
    rewrite count_all_labels in T1 by assumption.
    rewrite count_all_labels in T2 by assumption.
    split; [exact Hperm | ].
    split; [exact Hok | ]. split; [lia | ]. split; [lia | ].
    intros Hnil.
    assert (Hk : map_keys (n_pos_map c) <> []).
    { eapply count_pairs_nonempty; [exact Hc | left].
      intros E. apply (f_equal (@length _)) in E.
      rewrite Ld in E. cbn in E. lia. }
    apply Hk.
    pose proof (Permutation_length
                  (isort_perm Float64s_lt (map_keys (n_pos_map c)))) as HL.
    rewrite Hnil in HL. destruct (map_keys (n_pos_map c)); [reflexivity | ].
    discriminate.
Qed.

End LibrarySort.

(** Whatever the labels and the scores are, the sweep returned for aligned
    inputs can be passed on to [PrecisionRecall], and the recall it yields
    has no NaN. *)
Lemma EvalPerformance_recall_nonnan
    (Sort : Predictions -> outcome Predictions)
    (values : list float) (labels : list Z) :
  Sort_permutes Sort ->
  length values = length labels ->
  exists d perf err recall precision,
    Library.EvalPerformance Sort values labels = Return (d, (perf, err)) /\
    PrecisionRecall perf false = Return (recall, precision) /\
    Forall nonnan recall.
Proof.
  intros Hsort Hal.
  destruct (Library_EvalPerformance_pairs Sort Hsort values labels Hal)
    as (d & He & _ & _).
  exists d, (fst (eval_pairs (pairs d))), (snd (eval_pairs (pairs d))).
  assert (Hs : aligned_sweep (fst (eval_pairs (pairs d))) /\
               Forall is_int (Tp (fst (eval_pairs (pairs d))))).
  { unfold eval_pairs. destruct (count_pairs (pairs d) counters_init); cbn [fst].
    - split; [repeat split | constructor].
    - apply sweep_aligned. }
  destruct Hs as (Hs1 & Hs2).
  exists (recall_list (Tp (fst (eval_pairs (pairs d))))
                      (Fn (fst (eval_pairs (pairs d))))),
         (precision_list 0%float (Tp (fst (eval_pairs (pairs d))))
                         (Fp (fst (eval_pairs (pairs d))))).
  split; [now rewrite <- surjective_pairing | ].
  split; [now apply (PrecisionRecall_lists _ false) | ].
  now apply recall_list_nonnan.
Qed.


(* ------------------------------------------------------------------ *)
(** * The claims about EvalPerformance, over the library's sort *)

(** C1 (amended): let [sort.Sort] return with the samples permuted.  On
    every valid dataset (held in a slice, hence of a length that is an
    [int]) [EvalPerformance] returns a sweep with [Tp[i] + Fn[i] = P] and
    [Fp[i] + Tn[i] = N] at every index; when no score is NaN, and
    [sort.Sort] then leaves the scores in ascending order, [Tp] and [Fp]
    are non-increasing and [Tn] and [Fn] are non-decreasing along the
    thresholds. *)
Theorem EvalPerformance_sweep_invariant
    (Sort : Predictions -> outcome Predictions)
    (values : list float) (labels : list Z) :
  Sort_permutes Sort ->
  valid_dataset values labels ->
  slice_length_ok values ->
  exists d perf,
    Library.EvalPerformance Sort values labels = Return (d, (perf, None)) /\
    sweep_identities perf /\
    (Sort_ascending Sort -> Forall nonnan values -> sweep_monotone perf).
Proof.
  intros Hsort Hv Hlen.
  destruct (Library_EvalPerformance_valid Sort Hsort values labels Hv Hlen)
    as (d & c & He & Hd & Hperm & Hpv & Hvl & Ld & Hc & Hok).
  destruct Hv as (Hal & Hne & Hl).
  exists d, (sweep (isort Float64s_lt (map_keys (n_pos_map c))) c).
  split; [exact He | ]. split.
  - eapply sweep_identities_ok; eassumption.
  - intros Hasc Nv.
    assert (Nd : Forall nonnan (map fst (pairs d)))
      by (eapply Permutation_Forall; [symmetry; exact Hpv | exact Nv]).
    assert (Sd : ascending (fun p => rank (fst p)) (pairs d)).
    { unfold pairs in *. rewrite (map_fst_combine _ _ Hd) in Nd.
      apply non_descending_ascending; try assumption.
      unfold Library.EvalPerformance in He.
      destruct (Sort {| Values := values; Labels := labels |}) as [d0 | msg]
        eqn:Hs; [ | discriminate].
      apply (Hasc {| Values := values; Labels := labels |} d0 Hal Nv) in Hs.
      cbn [bind] in He.
      destruct (count_labels _ _ _ _ _) as [[err | c0] | msg];
        cbn [bind] in He; try discriminate.
      destruct (sort_Float64s _); cbn [bind] in He; [ | discriminate].
      injection He as <- _. exact Hs. }
    destruct (count_pairs_monotone (pairs d) counters_init c 0
                counters_init_ok) as (Mp & Mn); try assumption.
    + rewrite Ld. unfold slice_length_ok in Hlen. lia.
    + constructor.
    + constructor.
    + intros k1 k2 [].
    + intros k1 k2 [].
    + eapply sweep_monotone_ok; try eassumption.
      * apply Float64s_ascending.
      * apply Forall_forall. intros t Ht.
        eapply Permutation_in; [apply isort_perm | exact Ht].
Qed.

(** C1, witness: a dataset with a tied score, sorted by the insertion
    sort. *)
Lemma EvalPerformance_sweep_invariant_witness :
  exists d perf,
    Library.EvalPerformance sort_Sort [0.5; 0.25; 0.5]%float [1; 0; 0]%Z
    = Return (d, (perf, None)) /\
    sweep_identities perf /\ sweep_monotone perf.
Proof.
  destruct (EvalPerformance_sweep_invariant sort_Sort
              [0.5; 0.25; 0.5]%float [1; 0; 0]%Z sort_Sort_permutes)
    as (d & perf & He & Hi & Hm).
  - valid_dataset_now.
  - unfold slice_length_ok, int_max. cbn. lia.
  - exists d, perf. repeat split; try assumption;
      apply Hm; try apply sort_Sort_ascending; repeat constructor.
Defined.

(** C3 (amended): let [sort.Sort] return with the samples permuted.  On
    aligned inputs [EvalPerformance] returns the error exactly when some
    label is neither 0 nor 1; the empty input is not an error. *)
Theorem EvalPerformance_error_iff
    (Sort : Predictions -> outcome Predictions)
    (values : list float) (labels : list Z) :
  Sort_permutes Sort ->
  length values = length labels ->
  exists d perf err,
    Library.EvalPerformance Sort values labels = Return (d, (perf, err)) /\
    (err <> None <-> Exists (fun l => ~ valid_label l) labels) /\
    (values = [] -> err = None).
Proof.
  intros Hsort Hal.
  destruct (Library_EvalPerformance_pairs Sort Hsort values labels Hal)
    as (d & He & Hd & Hp).
  assert (Hperm : Permutation (map snd (pairs d)) labels).
  { rewrite <- (map_snd_combine values labels Hal). now apply Permutation_map. }
  pose proof (count_pairs_error (pairs d) counters_init) as Herr.
  exists d, (fst (eval_pairs (pairs d))), (snd (eval_pairs (pairs d))).
  split; [now rewrite <- surjective_pairing | ].
  unfold eval_pairs.
  destruct (count_pairs (pairs d) counters_init) as [err | c] eqn:Hc;
    cbn [fst snd].
  - assert (Hex : Exists (fun l => ~ valid_label l) labels).
    { eapply Permutation_Exists; [exact Hperm | ]. apply Herr. eauto. }
    split; [split; [intros _; exact Hex | discriminate] | ].
    intros ->. destruct labels; [inversion Hex | discriminate].
  - split; [ | reflexivity].
    split; [congruence | ]. intros Hex.
    apply (Permutation_Exists (Permutation_sym Hperm)) in Hex.
    apply Herr in Hex. destruct Hex as (err & Hex). discriminate.
Qed.

(** C3, witness: a row with label 2 is rejected. *)
Lemma EvalPerformance_error_iff_witness :
  exists d perf err,
    Library.EvalPerformance sort_Sort [0.5; 0.25]%float [1; 2]%Z
    = Return (d, (perf, err)) /\
    err <> None.
Proof.
  destruct (EvalPerformance_error_iff sort_Sort [0.5; 0.25]%float [1; 2]%Z
              sort_Sort_permutes eq_refl)
    as (d & perf & err & He & Hiff & _).
  exists d, perf, err. split; [exact He | ].
  apply Hiff. apply Exists_cons_tl, Exists_cons_hd.
  unfold valid_label. lia.
Defined.



(* ------------------------------------------------------------------ *)
(** * Further properties of EvalPerformance, over the library's sort *)

(** X1: let [sort.Sort] return with the samples permuted.  On a valid
    dataset the totals [P] and [N] of the sweep are the numbers of labels
    1 and of labels 0, and they add up to the number of samples. *)
Theorem EvalPerformance_totals
    (Sort : Predictions -> outcome Predictions)
    (values : list float) (labels : list Z) :
  Sort_permutes Sort ->
  valid_dataset values labels ->
  slice_length_ok values ->
  exists d perf,
    Library.EvalPerformance Sort values labels = Return (d, (perf, None)) /\
    P perf = count_label 1 labels /\
    N perf = count_label 0 labels /\
    (P perf + N perf = Z.of_nat (length values))%Z.
Proof.
  intros Hsort Hv Hlen.
  destruct (Library_EvalPerformance_valid_totals Sort Hsort values labels
              Hv Hlen)
    as (d & tr & c & He & _ & Hok & HP & HN & _).
  exists d, (sweep tr c). split; [exact He | ]. cbn [P N sweep].
  split; [exact HP | ]. split; [exact HN | ].
  destruct Hok as [_ _ Hs _ _ _]. exact Hs.
Qed.

(** X1, witness. *)
Lemma EvalPerformance_totals_witness :
  exists d perf,
    Library.EvalPerformance sort_Sort
      [0.5; 0.25; 0.5; 0.75]%float [1; 0; 0; 1]%Z
    = Return (d, (perf, None)) /\
    P perf = 2%Z /\ N perf = 2%Z.
Proof.
  destruct (EvalPerformance_totals sort_Sort
              [0.5; 0.25; 0.5; 0.75]%float [1; 0; 0; 1]%Z sort_Sort_permutes)
    as (d & perf & He & HP & HN & _).
  - valid_dataset_now.
  - unfold slice_length_ok, int_max. cbn. lia.
  - exists d, perf. auto.
Defined.

(** X5: let [sort.Sort] return with the samples permuted.  When
    [EvalPerformance] returns an error, the error names a label of the
    input that is neither 0 nor 1, the returned [Performance] is the zero
    value, and the caller's slices have been reordered all the same: they
    hold a permutation of the original pairs. *)
Theorem EvalPerformance_error_value
    (Sort : Predictions -> outcome Predictions)
    (values : list float) (labels : list Z)
    (d : Predictions) (perf : Performance) (e : error) :
  Sort_permutes Sort ->
  length values = length labels ->
  Library.EvalPerformance Sort values labels = Return (d, (perf, Some e)) ->
  perf = Performance_zero /\
  (exists lab, e = invalid_label lab /\ In lab labels /\ ~ valid_label lab) /\
  Permutation (combine (Values d) (Labels d)) (combine values labels).
Proof.
  intros Hsort Hal He.
  destruct (Library_EvalPerformance_pairs Sort Hsort values labels Hal)
    as (d0 & He0 & Hd & Hperm).
  rewrite He0 in He. injection He as Ed Er. subst d0.
  unfold eval_pairs in Er.
  destruct (count_pairs (pairs d) counters_init) as [err | c] eqn:Hc;
    [ | discriminate].
  injection Er as <- <-.
  split; [reflexivity | ]. split; [ | exact Hperm].
  destruct (count_pairs_error_value _ _ _ Hc) as (lab & H1 & H2 & H3).
  exists lab. repeat split; try assumption.
  rewrite <- (map_snd_combine values labels Hal).
  eapply Permutation_in; [apply Permutation_map; exact Hperm | exact H2].
Qed.

(** X5, witness: the label 2 is reported, and the slices come back
    sorted. *)
Lemma EvalPerformance_error_value_witness :
  Library.EvalPerformance sort_Sort [0.5; 0.25]%float [1; 2]%Z
  = Return ({| Values := [0.25; 0.5]%float; Labels := [2; 1]%Z |},
            (Performance_zero, Some (invalid_label 2))) /\
  exists lab, invalid_label 2 = invalid_label lab /\ In lab [1; 2]%Z
              /\ ~ valid_label lab.
Proof.
  assert (He : Library.EvalPerformance sort_Sort [0.5; 0.25]%float [1; 2]%Z
               = Return ({| Values := [0.25; 0.5]%float; Labels := [2; 1]%Z |},
                         (Performance_zero, Some (invalid_label 2))))
    by reflexivity.
  split; [exact He | ].
  exact (proj1 (proj2 (EvalPerformance_error_value sort_Sort
                        [0.5; 0.25]%float [1; 2]%Z _ _ _
                        sort_Sort_permutes eq_refl He))).
Defined.

(** X7: let [sort.Sort] return with the samples permuted.  On a valid
    dataset [EvalRoc] returns, without an error, two sequences of one
    common length, at least 1.  The true-positive rates hold no NaN when
    some label is 1, and nothing but NaN when none is; the false-positive
    rates likewise with the labels 0. *)
Theorem EvalRoc_NaN
    (Sort : Predictions -> outcome Predictions)
    (values : list float) (labels : list Z) :
  Sort_permutes Sort ->
  valid_dataset values labels ->
  slice_length_ok values ->
  exists d fpr tpr,
    Library.EvalRoc Sort values labels = Return (d, (fpr, tpr, None)) /\
    length fpr = length tpr /\ (1 <= length tpr)%nat /\
    (count_label 1 labels <> 0%Z -> Forall nonnan tpr) /\
    (count_label 1 labels = 0%Z -> Forall (fun x => isNaN x = true) tpr) /\
    (count_label 0 labels <> 0%Z -> Forall nonnan fpr) /\
    (count_label 0 labels = 0%Z -> Forall (fun x => isNaN x = true) fpr).
Proof.
  intros Hsort Hv Hlen.
  destruct (Library_EvalPerformance_valid_totals Sort Hsort values labels
              Hv Hlen)
    as (d & tr & c & He & _ & Hok & HP & HN & Htr).
  unfold Library.EvalRoc. rewrite He. cbn [bind].
  destruct (sweep_aligned tr c) as ((Ltp & Lfp & _) & _).
  rewrite (Roc_lists _ Ltp Lfp). cbn [bind].
  eexists. eexists. eexists. split; [reflexivity | ].
  cbn [sweep Tp Fp P N]. rewrite !length_map.
  split; [reflexivity | ].
  split; [destruct tr; [congruence | cbn; lia] | ].
  destruct Hok as [Hp Hn Hs _ Hgp Hgn].
  unfold slice_length_ok, int_max in Hlen.
  assert (IP : is_int (n_pos c)) by (unfold is_int, int_min, int_max; lia).
  assert (IN : is_int (n_neg c)) by (unfold is_int, int_min, int_max; lia).
  rewrite <- HP, <- HN.
  repeat split; intros H0; apply Forall_map, Forall_map, Forall_forall;
    intros t _.
  - apply float64_of_int_div_nonnan_r; [apply wrap64_is_int | | ]; assumption.
  - specialize (Hgp t). rewrite H0 in *.
    replace (map_get (n_pos_map c) t) with 0%Z by lia. reflexivity.
  - apply float64_of_int_div_nonnan_r; [apply wrap64_is_int | | ]; assumption.
  - specialize (Hgn t). rewrite H0 in *.
    replace (map_get (n_neg_map c) t) with 0%Z by lia. reflexivity.
Qed.

(** X7, witness: a dataset without a positive sample. *)
Lemma EvalRoc_NaN_witness :
  exists d fpr tpr,
    Library.EvalRoc sort_Sort [0.5; 0.25]%float [0; 0]%Z
    = Return (d, (fpr, tpr, None)) /\
    Forall (fun x => isNaN x = true) tpr /\ Forall nonnan fpr.
Proof.
  destruct (EvalRoc_NaN sort_Sort [0.5; 0.25]%float [0; 0]%Z
              sort_Sort_permutes)
    as (d & fpr & tpr & He & _ & _ & _ & H1 & H2 & _).
  - valid_dataset_now.
  - unfold slice_length_ok, int_max. cbn. lia.
  - exists d, fpr, tpr. split; [exact He | ]. split.
    + apply H1. reflexivity.
    + apply H2. discriminate.
Defined.

(** X8: let [sort.Sort] return with the samples permuted.  On two slices
    of one length [EvalPrecisionRecall] and [EvalRoc] never panic.  Each
    returns an error exactly when some label is neither 0 nor 1, then with
    two nil sequences; otherwise its two sequences have one common length.
    Either way the caller's slices are left holding a permutation of the
    samples. *)
Theorem Eval_curves_outcome
    (Sort : Predictions -> outcome Predictions)
    (values : list float) (labels : list Z) (normalize : bool) :
  Sort_permutes Sort ->
  length values = length labels ->
  (exists d r p err,
     Library.EvalPrecisionRecall Sort values labels normalize
     = Return (d, (r, p, err)) /\
     Permutation (pairs d) (combine values labels) /\
     (err <> None <-> Exists (fun l => ~ valid_label l) labels) /\
     (err <> None -> r = [] /\ p = []) /\
     length r = length p) /\
  (exists d fpr tpr err,
     Library.EvalRoc Sort values labels = Return (d, (fpr, tpr, err)) /\
     Permutation (pairs d) (combine values labels) /\
     (err <> None <-> Exists (fun l => ~ valid_label l) labels) /\
     (err <> None -> fpr = [] /\ tpr = []) /\
     length fpr = length tpr).
Proof.
  intros Hsort Hal.
  destruct (Library_EvalPerformance_pairs Sort Hsort values labels Hal)
    as (d & He & Hd & Hperm).
  assert (Hlab : Permutation (map snd (pairs d)) labels).
  { rewrite <- (map_snd_combine values labels Hal). now apply Permutation_map. }
  pose proof (count_pairs_error (pairs d) counters_init) as Herr.
  assert (Hiff : (exists e, count_pairs (pairs d) counters_init = inl e) <->
                 Exists (fun l => ~ valid_label l) labels).
  { rewrite Herr. split; intros H; apply Exists_exists in H as (x & Hx & Hn);
      apply Exists_exists; exists x; split; try assumption.
    - eapply Permutation_in; [exact Hlab | exact Hx].
    - eapply Permutation_in; [symmetry; exact Hlab | exact Hx]. }
  unfold Library.EvalPrecisionRecall, Library.EvalRoc.
  rewrite He. cbn [bind].
  unfold eval_pairs in *.
  destruct (count_pairs (pairs d) counters_init) as [e | c] eqn:Ec.
  - split; eexists; eexists; eexists; eexists;
      (split; [reflexivity | ]); (split; [exact Hperm | ]);
      (split; [ | split; [intros _; split; reflexivity | reflexivity]]);
      (split; [intros _; apply Hiff; eauto | discriminate]).
  - destruct (sweep_aligned (isort Float64s_lt (map_keys (n_pos_map c))) c)
      as (Hs & _).
    destruct (PrecisionRecall_lengths _ normalize Hs)
      as (recall & precision & Hpr & Lr & Lp).
    destruct (Roc_lengths _ Hs) as (fpr & tpr & Hroc & Lf & Lt).
    rewrite Hpr, Hroc. cbn [bind].
    split; eexists; eexists; eexists; eexists;
      (split; [reflexivity | ]); (split; [exact Hperm | ]);
      (split; [split; [congruence | ] | split; [congruence | ]]).
    + intros H. apply Hiff in H as (e & H). discriminate.
    + now rewrite Lr, Lp.
    + intros H. apply Hiff in H as (e & H). discriminate.
    + now rewrite Lf, Lt.
Qed.

(** X8, witness. *)
Lemma Eval_curves_outcome_witness :
  exists d r p err,
    Library.EvalPrecisionRecall sort_Sort [0.5; 0.25]%float [1; 2]%Z false
    = Return (d, (r, p, err)) /\ r = [] /\ p = [].
Proof.
  destruct (Eval_curves_outcome sort_Sort [0.5; 0.25]%float [1; 2]%Z false
              sort_Sort_permutes eq_refl)
    as ((d & r & p & err & He & _ & Hiff & Hnil & _) & _).
  exists d, r, p, err. split; [exact He | ].
  apply Hnil, Hiff. apply Exists_cons_tl, Exists_cons_hd.
  unfold valid_label. lia.
Defined.

(* ------------------------------------------------------------------ *)
(** * Reading, then evaluating *)

(** X19: what [ReadPredictions] returns without an error is a valid
    input of [EvalPerformance]: as many scores as labels, one sample for
    every line after the header, every label 0 or 1.  With a [sort.Sort]
    that returns with the samples permuted, [EvalPerformance] evaluates it
    without a panic and without an error, NaN scores included. *)
Theorem ReadPredictions_then_EvalPerformance {E : Type} `{TextLibrary E}
    (Sort : Predictions -> outcome Predictions)
    (lines : list string) (values : list float) (labels : list Z) :
  Sort_permutes Sort ->
  ReadPredictions lines = Return (values, labels, None) ->
  length values = length labels /\
  length values = (length lines - 1)%nat /\
  Forall valid_label labels /\
  exists d perf,
    Library.EvalPerformance Sort values labels = Return (d, (perf, None)) /\
    Permutation (pairs d) (combine values labels).
Proof.
  intros Hsort Hr.
  assert (Hread : length values = length labels /\
                  length values = (length lines - 1)%nat /\
                  Forall valid_label labels).
  { destruct lines as [ | header rows].
    - cbn in Hr. injection Hr as <- <-. repeat split. constructor.
    - pose proof (ReadPredictions_on_header header rows) as Ho.
      destruct (header_columns (strings_Fields header)) as [[ip il] | ].
      + destruct Ho as (Ho & Hcols). rewrite Ho in Hr.
        apply read_rows_accepts in Hr; try lia.
        destruct Hr as (samples & HF & Hval & -> & ->). cbn [app length].
        rewrite !length_map.
        apply Forall2_length in HF. repeat split; [lia | exact Hval].
      + destruct Ho as (e & Ho & _). rewrite Ho in Hr. discriminate. }
  destruct Hread as (Hal & Hlen & Hval).
  repeat (split; [assumption | ]).
  destruct (Library_EvalPerformance_pairs Sort Hsort values labels Hal)
    as (d & He & Hd & Hperm).
  exists d. unfold eval_pairs in He.
  destruct (count_pairs (pairs d) counters_init) as [err | c] eqn:Hc.
  - exfalso.
    assert (Hex : Exists (fun lab => ~ valid_label lab) (map snd (pairs d)))
      by (apply (count_pairs_error (pairs d) counters_init); eauto).
    apply Exists_exists in Hex. destruct Hex as (lab & Hin & Hn). apply Hn.
    rewrite Forall_forall in Hval. apply Hval.
    rewrite <- (map_snd_combine values labels Hal).
    eapply Permutation_in; [apply Permutation_map; exact Hperm | exact Hin].
  - eexists. split; [exact He | exact Hperm].
Qed.

(** X19, witness: a table of two rows, the second with a NaN score. *)
Lemma ReadPredictions_then_EvalPerformance_witness :
  let lib : TextLibrary unit :=
    {| strings_Fields := fun s =>
         if (s =? "label prediction")%string then ["label"; "prediction"]%string
         else if (s =? "1 0.5")%string then ["1"; "0.5"]%string
         else ["0"; "NaN"]%string;
       strconv_ParseInt := fun s =>
         if (s =? "1")%string then inr 1%Z
         else if (s =? "0")%string then inr 0%Z else inl tt;
       strconv_ParseFloat := fun s =>
         if (s =? "0.5")%string then inr 0.5%float
         else if (s =? "NaN")%string then inr nan else inl tt |} in
  @ReadPredictions unit lib ["label prediction"; "1 0.5"; "0 NaN"]%string
  = Return ([0.5; nan]%float, [1; 0]%Z, None) /\
  exists d perf,
    Library.EvalPerformance sort_Sort [0.5; nan]%float [1; 0]%Z
    = Return (d, (perf, None)).
Proof.
  intros lib.
  assert (Hr : @ReadPredictions unit lib
                 ["label prediction"; "1 0.5"; "0 NaN"]%string
               = Return ([0.5; nan]%float, [1; 0]%Z, None))
    by reflexivity.
  split; [exact Hr | ].
  destruct (@ReadPredictions_then_EvalPerformance unit lib sort_Sort _ _ _
              sort_Sort_permutes Hr)
    as (_ & _ & _ & d & perf & He & _).
  exists d, perf. exact He.
Defined.

(* ------------------------------------------------------------------ *)
(** * The command *)

(** X20: let [sort.Sort] return with the samples permuted.  Given what
    [read_predictions] returns, scores and labels of one length with
    every label 0 or 1, the command never panics and never ends on an
    evaluation error.  It ends with the fatal error of an
    empty table when there is no sample, with that of an invalid target
    when the lower-cased target is none of the six, and otherwise writes
    at least one line. *)
Theorem classifier_performance_outcome
    (Sort : Predictions -> outcome Predictions)
    (ToLower : string -> string)
    (config : Config) (values : list float) (labels : list Z)
    (filename target : string) :
  Sort_permutes Sort ->
  length values = length labels ->
  Forall valid_label labels ->
  slice_length_ok values ->
  exists r,
    Library.classifier_performance Sort ToLower config values labels
      filename target
    = Return r /\
    match r with
    | inl f =>
        (values = [] /\ f = table_is_empty filename) \/
        (values <> [] /\ f = invalid_target target /\
         ~ In (ToLower target) targets)
    | inr out =>
        values <> [] /\ In (ToLower target) targets /\ out <> []
    end.
Proof.
  intros Hsort Hal Hval Hlen. unfold Library.classifier_performance.
  destruct values as [ | v0 values'] eqn:Ev.
  { cbn. eexists. split; [reflexivity | ]. left. auto. }
  rewrite <- Ev in *. assert (Hne : values <> []) by (rewrite Ev; discriminate).
  assert (Hv : valid_dataset values labels).
  { repeat split; try assumption. rewrite Ev. cbn. lia. }
  replace (length values =? 0)%nat with false
    by (rewrite Ev; reflexivity).
  destruct (Library_EvalPerformance_valid_totals Sort Hsort values labels
              Hv Hlen)
    as (d & tr & c & He & _ & _ & _ & _ & Htr).
  rewrite He. cbn [bind].
  destruct (sweep_aligned tr c) as (Hs & _).
  assert (Ltr : (1 <= length tr)%nat) by (destruct tr; [congruence | cbn; lia]).
  set (perf := sweep tr c) in *.
  assert (Hperf : Performance_Len perf = length tr) by reflexivity.
  assert (Htrp : Tr perf = tr) by reflexivity.
  destruct (PrecisionRecall_lengths perf (NormalizePrecision config) Hs)
    as (recall & precision & Hpr & Lr & Lp).
  destruct (Roc_lengths perf Hs) as (fpr & tpr & Hroc & Lf & Lt).
  rewrite Hperf in Lr, Lp, Lf, Lt. rewrite Htrp.
  unfold targets.
  destruct (String.eqb_spec (ToLower target) "precision-recall") as [T1 | T1].
  { rewrite Hpr. cbn [bind].
    destruct (PrintThresholds config).
    - destruct (export_table3_lines config recall precision tr
                  "recall" "precision" "threshold")
        as (out & -> & Lo); try lia.
      cbn [bind]. eexists. split; [reflexivity | ].
      rewrite T1. split; [exact Hne | ]. split; [cbn; auto | ].
      destruct out; [cbn in Lo; lia | discriminate].
    - destruct (export_table2_lines config recall precision
                  "recall" "precision")
        as (out & -> & Lo); try lia.
      cbn [bind]. eexists. split; [reflexivity | ].
      rewrite T1. split; [exact Hne | ]. split; [cbn; auto | ].
      destruct out; [cbn in Lo; lia | discriminate]. }
  destruct (String.eqb_spec (ToLower target) "precision-recall-auc")
    as [T2 | T2].
  { rewrite Hpr. cbn [bind].
    rewrite (AUC_trapezoid_sum recall precision) by lia. cbn [bind].
    eexists. split; [reflexivity | ].
    rewrite T2. split; [exact Hne | ]. split; [cbn; auto | discriminate]. }
  destruct (String.eqb_spec (ToLower target) "roc") as [T3 | T3].
  { rewrite Hroc. cbn [bind].
    destruct (PrintThresholds config).
    - destruct (export_table3_lines config fpr tpr tr "FPR" "TPR" "threshold")
        as (out & -> & Lo); try lia.
      cbn [bind]. eexists. split; [reflexivity | ].
      rewrite T3. split; [exact Hne | ]. split; [cbn; auto | ].
      destruct out; [cbn in Lo; lia | discriminate].
    - destruct (export_table2_lines config fpr tpr "FPR" "TPR")
        as (out & -> & Lo); try lia.
      cbn [bind]. eexists. split; [reflexivity | ].
      rewrite T3. split; [exact Hne | ]. split; [cbn; auto | ].
      destruct out; [cbn in Lo; lia | discriminate]. }
  destruct (String.eqb_spec (ToLower target) "roc-auc") as [T4 | T4].
  { rewrite Hroc. cbn [bind].
    rewrite (AUC_trapezoid_sum fpr tpr) by lia. cbn [bind].
    eexists. split; [reflexivity | ].
    rewrite T4. split; [exact Hne | ]. split; [cbn; auto 6 | discriminate]. }
  destruct (String.eqb_spec (ToLower target) "optimal-precision-recall")
    as [T5 | T5].
  { rewrite Hpr. cbn [bind].
    destruct (Optimum_in_range tr recall precision Htr) as (k & -> & Hk);
      try lia.
    cbn [bind].
    destruct (print_optimum_line config recall precision tr k
                "recall" "precision") as (out & -> & Ho); try lia.
    cbn [bind]. eexists. split; [reflexivity | ].
    rewrite T5. split; [exact Hne | ]. split; [cbn; auto 8 | exact Ho]. }
  destruct (String.eqb_spec (ToLower target) "optimal-roc") as [T6 | T6].
  { rewrite Hroc. cbn [bind].
    destruct (for_loop_invariant
                (fun (_ : nat) (s : list float) => length s = length fpr)
                (fun i fpr_inv => f <- index fpr i ;;
                                  assign fpr_inv i (1 - f)%float)
                (length fpr) 0 (repeat 0%float (length fpr)))
      as (fpr_inv & -> & Li).
    { intros i s Hi Hs'.
      destruct (index_lt fpr i) as (f & _ & ->); [lia | ]. cbn [bind].
      rewrite assign_lt by lia. eexists. split; [reflexivity | ].
      now rewrite length_set_nth. }
    { apply repeat_length. }
    cbn [bind].
    destruct (Optimum_in_range tr fpr_inv tpr Htr) as (k & -> & Hk);
      try lia.
    cbn [bind].
    destruct (print_optimum_line config fpr tpr tr k "fpr" "tpr")
      as (out & -> & Ho); try lia.
    cbn [bind]. eexists. split; [reflexivity | ].
    rewrite T6. split; [exact Hne | ]. split; [cbn; auto 10 | exact Ho]. }
  eexists. split; [reflexivity | ]. right.
  split; [exact Hne | ]. split; [reflexivity | ].
  cbn. intuition congruence.
Qed.

(** X20, witness: the target [ROC-AUC] on two samples. *)
Lemma classifier_performance_outcome_witness :
  exists out,
    Library.classifier_performance sort_Sort (fun _ => "roc-auc"%string)
      {| NormalizePrecision := false; PrintHeader := false;
         PrintThresholds := false; Verbose := 0 |}
      [0.5; 0.25]%float [1; 0]%Z "table"%string "ROC-AUC"%string
    = Return (inr out) /\ out <> [].
Proof.
  destruct (classifier_performance_outcome sort_Sort
              (fun _ => "roc-auc"%string)
              {| NormalizePrecision := false; PrintHeader := false;
                 PrintThresholds := false; Verbose := 0 |}
              [0.5; 0.25]%float [1; 0]%Z "table"%string "ROC-AUC"%string)
    as (r & Hr & Hm).
  - exact sort_Sort_permutes.
  - reflexivity.
  - constructor; [now right | constructor; [now left | constructor]].
  - unfold slice_length_ok, int_max. cbn. lia.
  - destruct r as [f | out].
    + exfalso. destruct Hm as [(Hm & _) | (_ & _ & Hm)];
        [discriminate | apply Hm; cbn; auto].
    + exists out. split; [exact Hr | apply Hm].
Defined.

(* ------------------------------------------------------------------ *)
(** * NaN scores *)

Lemma map_set_NaN_keys (m : gomap) (v : float) (n : Z) :
  count isNaN (map_keys (map_set m v n))
  = (count isNaN (map_keys m) + (if isNaN v then 1 else 0))%Z.
Proof.
  destruct (map_set_keys m v n)
    as [(ks1 & k & ks2 & -> & Ek & ->) | (_ & ->)].
  - apply f64_eq_spec in Ek. destruct Ek as (Nk & Nv & _).
    unfold nonnan in Nk, Nv.
    rewrite !count_app, !count_cons, Nk, Nv. lia.
  - now rewrite count_app, count_one.
Qed.

(** Every NaN score adds a key of its own. *)
Lemma count_pairs_NaN_keys (l : list (float * Z)) :
  forall (c c' : counters),
  count_pairs l c = inr c' ->
  count isNaN (map_keys (n_pos_map c'))
  = (count isNaN (map_keys (n_pos_map c)) + count isNaN (map fst l))%Z.
Proof.
  induction l as [ | [v lab] l IH]; intros c c' Hc.
  - cbn in Hc. injection Hc as <-. unfold count at 3. cbn. lia.
  - cbn [count_pairs] in Hc. cbn [map fst]. rewrite count_cons.
    destruct (lab =? 1)%Z; [ | destruct (lab =? 0)%Z; [ | discriminate]];
      apply IH in Hc; rewrite Hc; cbn [n_pos_map];
      rewrite map_set_NaN_keys; lia.
Qed.

(** X22: let [sort.Sort] return with the samples permuted.  In the sweep
    of a valid dataset every NaN score is a threshold of its own: there
    are as many NaN thresholds as NaN scores.  The row of a NaN threshold
    counts every sample as predicted positive ([Tp = P], [Fp = N],
    [Tn = Fn = 0]), since no count is ever found under a NaN key, and the
    NaN thresholds come before all others. *)
Theorem EvalPerformance_NaN_rows
    (Sort : Predictions -> outcome Predictions)
    (values : list float) (labels : list Z) :
  Sort_permutes Sort ->
  valid_dataset values labels ->
  slice_length_ok values ->
  exists d perf,
    Library.EvalPerformance Sort values labels = Return (d, (perf, None)) /\
    count isNaN (Tr perf) = count isNaN values /\
    (forall i t, nth_error (Tr perf) i = Some t -> isNaN t = true ->
       nth_error (Tp perf) i = Some (P perf) /\
       nth_error (Fp perf) i = Some (N perf) /\
       nth_error (Tn perf) i = Some 0%Z /\
       nth_error (Fn perf) i = Some 0%Z) /\
    (forall i j a b, (i < j)%nat ->
       nth_error (Tr perf) i = Some a -> nth_error (Tr perf) j = Some b ->
       isNaN b = true -> isNaN a = true).
Proof.
  intros Hsort Hv Hlen.
  destruct (Library_EvalPerformance_valid Sort Hsort values labels Hv Hlen)
    as (d & c & He & _ & _ & Hpv & _ & _ & Hc & Hok).
  eexists. eexists. split; [exact He | ].
  cbn [sweep Tr Tp Fp Tn Fn P N]. split; [ | split].
  - rewrite (count_Permutation _ _ _
               (isort_perm Float64s_lt (map_keys (n_pos_map c)))).
    rewrite (count_pairs_NaN_keys _ _ _ Hc).
    rewrite (count_Permutation _ _ _ Hpv).
    unfold count at 1. cbn. lia.
  - intros i t Ht Nt. rewrite !nth_error_map, Ht. cbn [option_map].
    rewrite !(map_get_NaN _ t Nt).
    destruct Hok as [Hp Hn Hs _ _ _].
    unfold slice_length_ok, int_max in Hlen.
    rewrite !int_sub_id by (unfold is_int, int_min, int_max; lia).
    rewrite !Z.sub_0_r. auto.
  - intros i j a b Hij Ha Hb Nb.
    pose proof (StronglySorted_nth_error _ _
                  (Float64s_ascending (map_keys (n_pos_map c)))
                  i j a b Hij Ha Hb) as R.
    cbn in R. rewrite (rank_nan b Nb) in R.
    destruct (isNaN a) eqn:Na; [reflexivity | ].
    pose proof (rank_nonnan a Na) as B. unfold rank_inf in *. lia.
Qed.

(** X22, witness: two NaN scores among four give two NaN thresholds, the
    first two of the sweep. *)
Lemma EvalPerformance_NaN_rows_witness :
  exists d perf,
    Library.EvalPerformance sort_Sort
      [0.5; nan; 0.25; nan]%float [1; 0; 1; 0]%Z
    = Return (d, (perf, None)) /\
    count isNaN (Tr perf) = 2%Z /\
    nth_error (Tr perf) 1 = Some nan /\
    nth_error (Tp perf) 1 = Some (P perf).
Proof.
  destruct (EvalPerformance_NaN_rows sort_Sort
              [0.5; nan; 0.25; nan]%float [1; 0; 1; 0]%Z sort_Sort_permutes)
    as (d & perf & He & Hn & Hrow & _).
  - valid_dataset_now.
  - unfold slice_length_ok, int_max. cbn. lia.
  - exists d, perf. split; [exact He | ]. split; [exact Hn | ].
    assert (Ht : nth_error (Tr perf) 1 = Some nan).
    { vm_compute in He. injection He as _ <-. reflexivity. }
    split; [exact Ht | ].
    exact (proj1 (Hrow 1%nat nan Ht eq_refl)).
Defined.
